(** * gqlc: generator orchestration and plugin execution

    A shallow embedding of the generator driver of gqlc:
    - [plugin.Generator.Generate] (plugin/plugin.go), the executor that runs
      an external plugin as a generator;
    - the file-writing tail of the JavaScript generator (js), which shares
      the output context with the plugin executor;
    - [runRoot] (cmd/gqlc/root.go), the compile pipeline, with the pre-run
      check of the root command and the template functions of its usage
      text;
    - [CommandLine.Run] (cmd/cli.go), the panic-safe entry point;
    - of the JavaScript generator: the import mask and [setImports],
      [getOptions], [writeImports], [printType], the printing primitives
      [P], [In], [Out] and [Reset], and [generateSchema], [generateScalar]
      and [generateUnion];
    - [compareBytes], the comparison of the end-to-end test
      (cmd/cli_e2e_test.go).

    Go functions that mutate their receiver or the outside world are written
    in state-passing style over an abstract [World]; library calls (os/exec,
    encoding/json, protobuf, cobra, the parser and the type checker) are
    fields of an environment class, so that every theorem holds for every
    behaviour of those libraries. *)

From Stdlib Require Import Strings.Ascii Strings.String Strings.Byte ZArith.
From stdpp Require Import base option strings list gmap fin_maps.

(** ** Go values shared by the packages *)

Module Go.

(** [[]byte]. Go's [string(b)] and [[]byte(s)] keep the bytes. *)
Abbreviation bytes := (list Byte.byte).
Definition string_of_bytes (b : bytes) : string := string_of_list_byte b.
Definition bytes_of_string (s : string) : bytes := list_byte_of_string s.

(** The [error] values the embedded code builds or passes on. *)
Inductive error : Type :=
| errorString (s : string)                     (* errors.New, fmt.Errorf *)
| wrapError (msg : string) (err : error)       (* fmt.Errorf with %w *)
| GeneratorError (GenName DocName Msg : string)(* gen.GeneratorError{...} *)
| InvalidPath (name : string)                  (* the output context's path error *)
| runtimeError (msg : string)                  (* runtime.Error *)
| PanicNilError.                               (* *runtime.PanicNilError *)

(** [gen.GeneratorError] has an [Error] method in package gen, and the
    output context words its own path error; both texts are parameters of
    the development. *)
Class ErrorText : Type := {
  generatorErrorText : string → string → string → string;
  invalidPathText : string → string;
}.

Definition Error {ET : ErrorText} (e : error) : string :=
  match e with
  | errorString s => s
  | wrapError msg _ => msg
  | GeneratorError g d m => generatorErrorText g d m
  | InvalidPath name => invalidPathText name
  | runtimeError msg => "runtime error: " +:+ msg
  | PanicNilError => "panic called with nil argument (obsolete)"
  end.

(** [errors.Unwrap]. *)
Definition Unwrap (e : error) : option error :=
  match e with wrapError _ inner => Some inner | _ => None end.

Definition errors_New (s : string) : error := errorString s.

(** An [interface{}] value; [VNil] is the nil interface. *)
Inductive Value : Type :=
| VNil
| VBool (b : bool)
| VInt (n : Z)
| VString (s : string)
| VChan (id : nat)
| VError (e : error).

(** A Go call that returns [(T, error)]. *)
Inductive result (A : Type) : Type :=
| Ok (a : A)
| Err (e : error).
Global Arguments Ok {A} a.
Global Arguments Err {A} e.

(** A Go call either returns or panics with a value. *)
Inductive outcome (A : Type) : Type :=
| Returns (a : A)
| Panics (v : Value).
Global Arguments Returns {A} a.
Global Arguments Panics {A} v.

(** [ast.Document]: the pipeline and the executor read only [Name]; the
    declarations are carried along untouched. *)
Record Document : Type := mkDocument {
  doc_Name : string;
  doc_Types : list string;
}.

Global Instance Document_eq_dec : EqDecision Document.
Proof. solve_decision. Defined.

End Go.

Import Go.

(** ** Package plugin *)

Module Plugin.

(** pb.Request and pb.Response (plugin/pb, generated from the .proto). *)
Record Request : Type := mkRequest {
  FileToGenerate : list string;
  req_Parameter : string;
  Documents : list Document;
}.

Record File : Type := mkFile {
  file_Name : string;
  file_Content : string;
}.

Record Response : Type := mkResponse {
  resp_Error : string;
  resp_File : list File;
}.

(** The fields of [exec.Cmd] the executor touches. *)
Record Cmd : Type := mkCmd {
  cmd_Path : string;
  cmd_Stdin : bytes;
}.

(** [Generator]: [lookOnce] is the done flag of the [sync.Once]. *)
Record Generator : Type := mkGenerator {
  gen_Cmd : option Cmd;
  Name : string;
  Prefix : string;
  lookOnce : bool;
  path : string;
  lookPathErr : option error;
}.

(** [&Generator{Name: name, Prefix: prefix}]. *)
Definition newGenerator (name prefix : string) : Generator :=
  mkGenerator None name prefix false "" None.

(** What the executor does to the outside world, in program order.
    Handles are numbered in the order they are obtained. *)
Inductive Event : Type :=
| EvLookPath (file : string)
| EvRun (c : Cmd)
| EvOpen (h : nat) (name : string)
| EvOpenFailed (name : string)
| EvWrite (h : nat) (data : bytes)
| EvClose (h : nat).

Section WithWorld.

Context {World : Type}.

(** io.WriteCloser and gen.GeneratorContext, as objects with methods. *)
Record WriteCloser : Type := mkWriteCloser {
  Write : bytes → World → option error * World;
  Close : World → option error * World;
}.

Record GeneratorContext : Type := mkGeneratorContext {
  Open : string → World → result WriteCloser * World;
}.

(** The libraries the executor calls. *)
Class Env : Type := {
  json_Marshal : gmap string Value → result bytes;
  exec_LookPath : string → World → (string * option error) * World;
  proto_Marshal : Request → result bytes;
  proto_Unmarshal : bytes → result Response;
  exec_CommandContext : string → Cmd;
  cmd_Run : Cmd → World → (option error * bytes) * World;
}.

Record State : Type := mkState {
  world : World;
  log : list Event;
  handles : nat;       (* handles obtained so far *)
}.

Definition emit (e : Event) (w : World) (s : State) : State :=
  mkState w (log s ++ [e]) (handles s).

Context {ET : ErrorText} {E : Env}.

(** [g.lookOnce.Do(func() { ... })] *)
Definition lookOnce_Do (g : Generator) (s : State) : Generator * State :=
  if lookOnce g then (g, s)
  else
    let pluginName := Prefix g +:+ Name g in
    let '((p, e), w) := exec_LookPath pluginName (world s) in
    (mkGenerator (gen_Cmd g) (Name g) (Prefix g) true p e,
     emit (EvLookPath pluginName) w s).

(** The loop "Write plugin files". *)
Fixpoint writeFiles (gCtx : GeneratorContext) (files : list File)
    (s : State) : option error * State :=
  match files with
  | [] => (None, s)
  | f :: rest =>
    match Open gCtx (file_Name f) (world s) with
    | (Err ferr, w) => (Some ferr, emit (EvOpenFailed (file_Name f)) w s)
    | (Ok wc, w) =>
      let h := handles s in
      let s := mkState w (log s ++ [EvOpen h (file_Name f)]) (S h) in
      let data := bytes_of_string (file_Content f) in
      let '(werr, w) := Write wc data (world s) in
      let s := emit (EvWrite h data) w s in
      match werr with
      | Some e => (Some e, s)
      | None => writeFiles gCtx rest s
      end
    end
  end.

Definition setCmd (g : Generator) (c : option Cmd) : Generator :=
  mkGenerator c (Name g) (Prefix g) (lookOnce g) (path g) (lookPathErr g).

(** The body of [Generate], before the deferred function runs. *)
Definition Generate_body (g : Generator) (gCtx : GeneratorContext)
    (doc : Document) (opts : gmap string Value) (s : State)
    : option error * Generator * State :=
  match json_Marshal opts with
  | Err err => (Some err, g, s)
  | Ok b =>
    let '(g, s) := lookOnce_Do g s in
    match lookPathErr g with
    | Some e => (Some e, g, s)
    | None =>
      match proto_Marshal (mkRequest [doc_Name doc] (string_of_bytes b) [doc]) with
      | Err perr => (Some perr, g, s)
      | Ok b =>
        let c := match gen_Cmd g with
                 | None => exec_CommandContext (path g)
                 | Some c => c
                 end in
        let c := mkCmd (cmd_Path c) b in
        let '((err, out), w) := cmd_Run c (world s) in
        let s := emit (EvRun c) w s in
        let g := setCmd g None in
        match err with
        | Some e => (Some e, g, s)
        | None =>
          match proto_Unmarshal out with
          | Err e => (Some e, g, s)
          | Ok resp =>
            if decide (resp_Error resp ≠ "")
            then (Some (errors_New (resp_Error resp)), g, s)
            else
              let '(err, s) := writeFiles gCtx (resp_File resp) s in
              (err, g, s)
          end
        end
      end
    end
  end.

(** The deferred function of [Generate]. *)
Definition attribute (g : Generator) (doc : Document) (err : option error)
    : option error :=
  match err with
  | Some e => Some (GeneratorError (Prefix g +:+ Name g) (doc_Name doc) (Error e))
  | None => None
  end.

Definition Generate (g : Generator) (gCtx : GeneratorContext)
    (doc : Document) (opts : gmap string Value) (s : State)
    : option error * Generator * State :=
  let '(err, g', s') := Generate_body g gCtx doc opts s in
  (attribute g' doc err, g', s').

(** A client that calls [Generate] on one executor again and again. *)
Fixpoint GenerateSeq (g : Generator)
    (calls : list (GeneratorContext * Document * gmap string Value))
    (s : State) : list (option error) * Generator * State :=
  match calls with
  | [] => ([], g, s)
  | (gCtx, doc, opts) :: rest =>
    let '(err, g, s) := Generate g gCtx doc opts s in
    let '(errs, g, s) := GenerateSeq g rest s in
    (err :: errs, g, s)
  end.

(** *** Observations on a run *)

(** The command [Generate] runs: the preset [g.Cmd] or a fresh one for the
    cached path, with the encoded request on its standard input. *)
Definition command (g : Generator) (stdin : bytes) : Cmd :=
  mkCmd (cmd_Path (match gen_Cmd g with
                   | None => exec_CommandContext (path g)
                   | Some c => c
                   end)) stdin.

(** The plugin was started, exited with status 0 and wrote a well-formed
    response [resp]; [g'] and [s'] are the executor and the world then. *)
Definition Responds (g : Generator) (doc : Document) (opts : gmap string Value)
    (s : State) (resp : Response) (g' : Generator) (s' : State) : Prop :=
  ∃ b g1 s1 req out w,
    json_Marshal opts = Ok b
    ∧ lookOnce_Do g s = (g1, s1)
    ∧ lookPathErr g1 = None
    ∧ proto_Marshal (mkRequest [doc_Name doc] (string_of_bytes b) [doc]) = Ok req
    ∧ cmd_Run (command g1 req) (world s1) = ((None, out), w)
    ∧ proto_Unmarshal out = Ok resp
    ∧ g' = setCmd g1 None
    ∧ s' = emit (EvRun (command g1 req)) w s1.

Definition isLookPath (e : Event) : bool :=
  match e with EvLookPath _ => true | _ => false end.

Definition isClose (e : Event) : bool :=
  match e with EvClose _ => true | _ => false end.

(** The events of the loop "Write plugin files". *)
Definition isFileEvent (e : Event) : bool :=
  match e with
  | EvOpen _ _ | EvOpenFailed _ | EvWrite _ _ => true
  | _ => false
  end.

Definition isOpen (e : Event) : bool :=
  match e with EvOpen _ _ => true | _ => false end.

(** Resolutions of the plugin path recorded in a log. *)
Definition lookups (l : list Event) : nat := length (filter isLookPath l).

(** Closes of output handles recorded in a log. *)
Definition closes (l : list Event) : list Event := filter isClose l.

End WithWorld.

Global Arguments WriteCloser : clear implicits.
Global Arguments GeneratorContext : clear implicits.
Global Arguments Env : clear implicits.
Global Arguments State : clear implicits.

End Plugin.


(** ** Package js: the part of [Generate] that writes the output file *)

Module Js.

Import Plugin.

Section WithWorld.

Context {World : Type}.

(** [defer jsFile.Close()]: runs when [Generate] leaves, whatever the path. *)
Definition deferred_Close (h : nat) (wc : WriteCloser World)
    (r : option error * State World) : option error * State World :=
  let '(err, s) := r in
  let '(_, w) := Close wc (world s) in
  (err, emit (EvClose h) w s).

(** [bytes.Buffer.WriteTo]: one [Write] of the buffered bytes, none when the
    buffer is empty. *)
Definition Buffer_WriteTo (h : nat) (wc : WriteCloser World) (buf : bytes)
    (s : State World) : option error * State World :=
  match buf with
  | [] => (None, s)
  | _ =>
    let '(err, w) := Write wc buf (world s) in
    (err, emit (EvWrite h buf) w s)
  end.

(** From "Open file to write to" to the end of [Generate]. [imports] is
    the text [writeImports] assembles and [buf] the generator's buffer.
    When [Open] fails, [jsFile] is nil and the deferred [jsFile.Close()]
    dereferences it. *)
Definition writeOut (gCtx : GeneratorContext World) (fileName : string)
    (imports buf : bytes) (s : State World)
    : outcome (option error) * State World :=
  match Open gCtx fileName (world s) with
  | (Err err, w) =>
    (Panics (VError (runtimeError "invalid memory address or nil pointer dereference")),
     emit (EvOpenFailed fileName) w s)
  | (Ok jsFile, w) =>
    let h := handles s in
    let s := mkState w (log s ++ [EvOpen h fileName]) (S h) in
    let '(err, s) :=
      deferred_Close h jsFile
        (let '(err, w) := Write jsFile imports (world s) in
         let s := emit (EvWrite h imports) w s in
         match err with
         | Some e => (Some e, s)
         | None => Buffer_WriteTo h jsFile buf s
         end) in
    (Returns err, s)
  end.

End WithWorld.

End Js.

(** ** The output context *)

Module OutputContext.

Import Plugin.

(** Path components of a [/]-separated name. *)
Fixpoint splitSlash (cur : string) (s : string) : list string :=
  match s with
  | EmptyString => [String.rev cur]
  | String c rest =>
    if Ascii.eqb c "/"%char then String.rev cur :: splitSlash EmptyString rest
    else splitSlash (String c cur) rest
  end.

Definition components (name : string) : list string := splitSlash EmptyString name.

Definition isAbs (name : string) : bool :=
  match name with
  | String c _ => Ascii.eqb c "/"%char
  | EmptyString => false
  end.

Fixpoint hasBackslash (s : string) : bool :=
  match s with
  | EmptyString => false
  | String c rest => Ascii.eqb c "\"%char || hasBackslash rest
  end.

Definition isDot (c : string) : bool := String.eqb c "." || String.eqb c "..".

(** A name that is absolute or has a [.] or [..] component. *)
Definition unsafe (name : string) : Prop :=
  isAbs name = true ∨ "."%string ∈ components name ∨ ".."%string ∈ components name.

(** Modelled from the spec: the name check of the Output Context's open
    (package gen, which defines the context, is not among the sources).
    A name is accepted when it is relative, [/]-separated and has no [.]
    or [..] component. *)
Definition validName (name : string) : bool :=
  negb (isAbs name) && negb (hasBackslash name)
  && forallb (λ c, negb (isDot c)) (components name).

(** Modelled from the spec: the Output Context's open (package gen is not
    among the sources): an unacceptable name fails with [InvalidPath]
    before the file system is touched; otherwise the file is opened under
    the generator's output directory by [inner], whose failures are the
    I/O errors. *)
Definition guarded {World : Type} (inner : GeneratorContext World)
    : GeneratorContext World :=
  mkGeneratorContext (λ name w,
    if validName name then Open inner name w
    else (Err (InvalidPath name), w)).

End OutputContext.

(** ** Package main (cmd/gqlc): the compile pipeline *)

Module Root.

(** [pflag.Flag], as [runRoot] reads it. *)
Record Flag : Type := mkFlag {
  flag_Name : string;
  Changed : bool;
}.

(** [parser.Mode]: the zero mode and [parser.ParseComments]. *)
Inductive Mode : Type := NoMode | ParseComments.

(** [*ast.Document]: the parser allocates a document per call; [addr]
    tells two documents apart even when their contents agree. *)
Record DocRef : Type := mkDocRef {
  addr : nat;
  deref : Document;
}.

Global Instance DocRef_eq_dec : EqDecision DocRef.
Proof. solve_decision. Defined.

(** A statement either falls through or leaves the function with the
    value it returns. *)
Inductive flow (A : Type) : Type :=
| Next (a : A)
| Return (err : option error).
Global Arguments Next {A} a.
Global Arguments Return {A} err.

Section WithWorld.

Context {World DocSet OsFile CodeGenerator : Type}.

(** The collaborators of [runRoot]. [map_range i m] is the order in which
    the [i]-th [range] statement over the map [m] yields its entries: the
    language fixes no order, only that every entry comes once. *)
Class Env : Type := {
  geners : gmap string CodeGenerator;
  filepath_Abs : string → World → result string * World;
  os_Open : string → World → result OsFile * World;
  token_NewDocSet : DocSet;
  parser_ParseDoc :
    DocSet → string → OsFile → Mode → World → (DocSet * result Document) * World;
  util_CheckTypes : gmap string DocRef → list error;
  Generate : CodeGenerator → DocRef → string → World → option error * World;
  map_range : nat → gmap string DocRef → list (string * DocRef);
  map_range_perm : ∀ i m, map_range i m ≡ₚ map_to_list m;
}.

Context {E : Env}.

(** The callback given to [VisitAll], applied to one flag. *)
Definition visit (acc : list CodeGenerator * Mode) (f : Flag)
    : list CodeGenerator * Mode :=
  let '(gs, mode) := acc in
  if negb (Changed f) then (gs, mode)
  else
    match geners !! flag_Name f with
    | Some gen =>
      (gs ++ [gen],
       if decide (flag_Name f = "doc_out") then ParseComments else mode)
    | None => (gs, mode)
    end.

(** "Accumulate selected code generators": [flags] are the local flags of
    the command in the order [VisitAll] visits them. *)
Definition selectGenerators (flags : list Flag) : list CodeGenerator * Mode :=
  foldl visit ([], NoMode) flags.

(** The variables of the loop "Parse files": the map, the document set,
    the number of documents allocated so far and the named result [err]. *)
Record ParseState : Type := mkParseState {
  ps_docs : gmap string DocRef;
  ps_dset : DocSet;
  ps_next : nat;
  ps_err : option error;
}.

(** One iteration of "Parse files". [filepath.Abs] assigns the named
    result [err]; the errors of [os.Open] and [parser.ParseDoc] live in
    variables of the loop body that shadow it. *)
Definition parseFile (mode : Mode) (filename : string) (ps : ParseState)
    (w : World) : flow ParseState * World :=
  let '(r, w) := filepath_Abs filename w in
  match r with
  | Err e => (Return (Some e), w)
  | Ok filename =>
    let '(r, w) := os_Open filename w in
    match r with
    | Err e => (Return (Some e), w)
    | Ok f =>
      let '((dset, r), w) := parser_ParseDoc (ps_dset ps) filename f mode w in
      match r with
      | Err e => (Return (Some e), w)
      | Ok doc =>
        let ref := mkDocRef (ps_next ps) doc in
        (Next (mkParseState (<[doc_Name doc := ref]> (ps_docs ps)) dset
                 (S (ps_next ps)) None), w)
      end
    end
  end.

Fixpoint parseFiles (mode : Mode) (args : list string) (ps : ParseState)
    (w : World) : flow ParseState * World :=
  match args with
  | [] => (Next ps, w)
  | filename :: rest =>
    match parseFile mode filename ps w with
    | (Return e, w) => (Return e, w)
    | (Next ps, w) => parseFiles mode rest ps w
    end
  end.

(** What [runRoot] hands to its generators, in program order. *)
Definition Trace : Type := list (CodeGenerator * DocRef).

(** [for _, doc := range docs { err = g.Generate(ctx, doc, ""); ... }] over
    the entries in the order the [range] yields them. *)
Fixpoint generateDocs (g : CodeGenerator) (ds : list (string * DocRef))
    (err : option error) (tr : Trace) (w : World)
    : flow (option error) * Trace * World :=
  match ds with
  | [] => (Next err, tr, w)
  | (_, doc) :: rest =>
    let '(err, w) := Generate g doc "" w in
    let tr := tr ++ [(g, doc)] in
    match err with
    | Some e => (Return (Some e), tr, w)
    | None => generateDocs g rest None tr w
    end
  end.

(** [for _, g := range gs { ... }]; [i] counts the [range] statements over
    the map executed so far. *)
Fixpoint generateAll (i : nat) (gs : list CodeGenerator)
    (docs : gmap string DocRef) (err : option error) (tr : Trace) (w : World)
    : flow (option error) * Trace * World :=
  match gs with
  | [] => (Next err, tr, w)
  | g :: rest =>
    match generateDocs g (map_range i docs) err tr w with
    | (Return e, tr, w) => (Return e, tr, w)
    | (Next err, tr, w) => generateAll (S i) rest docs err tr w
    end
  end.

Definition runRoot (flags : list Flag) (args : list string) (w : World)
    : option error * Trace * World :=
  let '(gs, mode) := selectGenerators flags in
  match parseFiles mode args (mkParseState ∅ token_NewDocSet 0 None) w with
  | (Return e, w) => (e, [] : Trace, w)
  | (Next ps, w) =>
    let docs := ps_docs ps in
    let errs := util_CheckTypes docs in
    if decide (0 < length errs) then          (* len(errs) > 0 *)
      (* TODO: Compound errors into a single error and return. *)
      (ps_err ps, [] : Trace, w)
    else
      match generateAll 0 gs docs (ps_err ps) [] w with
      | (Return e, tr, w) => (e, tr, w)
      | (Next err, tr, w) => (err, tr, w)
      end
  end.

(** *** Observations on a run *)

(** The generator a flag selects, if any. *)
Definition selected (f : Flag) : option CodeGenerator :=
  if Changed f then geners !! flag_Name f else None.

(** The documents "Parse files" produces, in the order they are parsed,
    up to the first file that fails (the loop itself keeps only the map). *)
Fixpoint parsed (mode : Mode) (args : list string) (dset : DocSet)
    (next : nat) (w : World) : list DocRef :=
  match args with
  | [] => []
  | filename :: rest =>
    match filepath_Abs filename w with
    | (Err _, _) => []
    | (Ok filename, w) =>
      match os_Open filename w with
      | (Err _, _) => []
      | (Ok f, w) =>
        match parser_ParseDoc dset filename f mode w with
        | ((_, Err _), _) => []
        | ((dset, Ok doc), w) =>
          mkDocRef next doc :: parsed mode rest dset (S next) w
        end
      end
    end
  end.

(** [docs[doc.Name] = doc] for each document of a list, in order. *)
Definition collect (m : gmap string DocRef) (l : list DocRef) : gmap string DocRef :=
  foldl (λ m r, <[doc_Name (deref r) := r]> m) m l.

(** The documents of a run, in parse order, and the map [runRoot] holds
    when the loop "Parse files" is over. *)
Definition parsedDocs (flags : list Flag) (args : list string) (w : World)
    : list DocRef :=
  parsed (selectGenerators flags).2 args token_NewDocSet 0 w.

Definition docsOf (flags : list Flag) (args : list string) (w : World)
    : gmap string DocRef :=
  collect ∅ (parsedDocs flags args w).

(** The invocations of a run in which no generator fails: the generators
    in the order given, each with the documents in the order its [range]
    over the map yields them. *)
Fixpoint plan (i : nat) (gs : list CodeGenerator) (docs : gmap string DocRef)
    : Trace :=
  match gs with
  | [] => []
  | g :: rest => ((λ kd, (g, kd.2)) <$> map_range i docs) ++ plan (S i) rest docs
  end.

(** The invocations in parse order: what [plan] would be if every [range]
    yielded the documents as they were parsed. *)
Definition parseOrderPlan (gs : list CodeGenerator) (docs : list DocRef) : Trace :=
  g ← gs; (λ r, (g, r)) <$> docs.

End WithWorld.

Global Arguments Env : clear implicits.
Global Arguments ParseState : clear implicits.
Global Arguments Trace : clear implicits.

(** *** Two runs *)

(** Two runs on the same registry, files and libraries: the environments
    agree on everything but the order in which a [range] over the map
    yields its entries. *)
Definition sameButRange {World DocSet OsFile CodeGenerator : Type}
    (E E' : Env World DocSet OsFile CodeGenerator) : Prop :=
  geners (Env := E') = geners (Env := E)
  ∧ (∀ f w, filepath_Abs (Env := E') f w = filepath_Abs (Env := E) f w)
  ∧ (∀ f w, os_Open (Env := E') f w = os_Open (Env := E) f w)
  ∧ token_NewDocSet (Env := E') = token_NewDocSet (Env := E)
  ∧ (∀ d filename f mode w,
       parser_ParseDoc (Env := E') d filename f mode w
       = parser_ParseDoc (Env := E) d filename f mode w)
  ∧ (∀ docs, util_CheckTypes (Env := E') docs = util_CheckTypes (Env := E) docs)
  ∧ (∀ g doc opts w, Generate (Env := E') g doc opts w = Generate (Env := E) g doc opts w).

End Root.

(** ** Package cmd: the entry point *)

Module Cli.

Definition newline : string := String (ascii_of_nat 10) EmptyString.

Section WithWorld.

Context {World Command : Type}.

(** cobra, the runtime and fmt, as [Run] uses them. [panicnil] is the
    runtime setting of that name: when set, as it is for every program
    built for a Go version before 1.21, [panic(nil)] leaves [recover]
    returning nil; otherwise the runtime panics with a [*PanicNilError]
    instead. [debug.Stack] always holds the header line of the calling
    goroutine. *)
Class Env : Type := {
  SetArgs : Command → list string → Command;
  Execute : Command → World → outcome (option error) * Command * World;
  debug_Stack : World → bytes;
  debug_Stack_nonempty : ∀ w, debug_Stack w ≠ [];
  fmt_GoSyntax : Value → string;
  panicnil : bool;
}.

Context {ET : ErrorText} {E : Env}.

(** [fmt.Errorf("gqlc: recovered from unexpected panic: %w\n\n%s", err, stack)] *)
Definition wrapPanic (err : error) (stack : bytes) : error :=
  wrapError
    ("gqlc: recovered from unexpected panic: " +:+ Error err
       +:+ newline +:+ newline +:+ string_of_bytes stack)
    err.

(** [args[1:]] *)
Definition sliceFrom1 (args : list string) : outcome (list string) :=
  match args with
  | [] => Panics (VError (runtimeError "slice bounds out of range [1:0]"))
  | _ :: rest => Returns rest
  end.

(** The statements of [Run] after the [defer]. *)
Definition Run_body (c : Command) (args : list string) (w : World)
    : outcome (option error) * Command * World :=
  match sliceFrom1 args with
  | Panics v => (Panics v, c, w)
  | Returns rest => Execute (SetArgs c rest) w
  end.

(** What [recover()] returns in a deferred call while [panic(v)] unwinds. *)
Definition recover (v : Value) : Value :=
  match v with
  | VNil => if panicnil then VNil else VError PanicNilError
  | _ => v
  end.

(** The deferred function of [Run], given the panic value; [None] is the
    value the named result [err] still holds when the body panicked. *)
Definition recovered (v : Value) (w : World) : option error :=
  match recover v with
  | VNil => None
  | VError rerr => Some (wrapPanic rerr (debug_Stack w))
  | r => Some (wrapPanic (errorString (fmt_GoSyntax r)) (debug_Stack w))
  end.

(** The [defer] of [Run] around the outcome of its statements: a return
    goes through, a panic ends in the deferred function. *)
Definition deferred (r : outcome (option error) * Command * World)
    : outcome (option error) * Command * World :=
  let '(o, c, w) := r in
  match o with
  | Returns err => (Returns err, c, w)
  | Panics v => (Returns (recovered v w), c, w)
  end.

Definition Run (c : Command) (args : list string) (w : World)
    : outcome (option error) * Command * World :=
  deferred (Run_body c args w).

End WithWorld.

Global Arguments Env : clear implicits.

End Cli.

(** ** Functions of the Go standard library that the code relies on *)

Module Std.

(** [path[i:]] for the last [.] of the last element of [path], scanning from
    the end as [filepath.Ext] does: [rev] holds the bytes not yet seen, last
    byte first, and [acc] the bytes already passed. The separator is [/]. *)
Fixpoint extFrom (rev acc : list ascii) : list ascii :=
  match rev with
  | [] => []
  | c :: rest =>
    if Ascii.eqb c "/" then []
    else if Ascii.eqb c "." then c :: acc
    else extFrom rest (c :: acc)
  end.

(** [filepath.Ext] *)
Definition filepath_Ext (path : string) : string :=
  string_of_list_ascii (extFrom (reverse (list_ascii_of_string path)) []).

(** [strings.HasPrefix] *)
Definition strings_HasPrefix (s prefix : string) : bool := String.prefix prefix s.

(** [strings.TrimPrefix] *)
Definition strings_TrimPrefix (s prefix : string) : string :=
  if strings_HasPrefix s prefix
  then String.substring (String.length prefix) (String.length s - String.length prefix) s
  else s.

(** [strings.Contains] *)
Fixpoint strings_Contains (s substr : string) : bool :=
  String.prefix substr s
  || match s with
     | EmptyString => false
     | String _ rest => strings_Contains rest substr
     end.

End Std.

(** ** Package main (cmd/gqlc): the root command around [runRoot] *)

Module RootCmd.

Import Std Root.

(** The loop "Validate file names" of [PersistentPreRunE]. *)
Fixpoint validateFileNames (args : list string) : option error :=
  match args with
  | [] => None
  | fileName :: rest =>
    let ext := strings_TrimPrefix (filepath_Ext fileName) "." in
    if negb (String.eqb ext "gql") && negb (String.eqb ext "graphql")
    then Some (errorString ("invalid file extension: " +:+ fileName))
    else validateFileNames rest
  end.

(** [rootCmd.PersistentPreRunE]; [cmdName] is [cmd.Name()]. *)
Definition PersistentPreRunE (cmdName : string) (args : list string) : option error :=
  if String.eqb cmdName "help" then None else validateFileNames args.

(** The template functions [in] and [ex] of [tmplFs]: a flag set is the
    list of its flags in the order [VisitAll] visits them, and [AddFlag] on
    the new set appends. *)
Definition tmpl_in (set : list Flag) (key : string) : list Flag :=
  foldl (λ fs flag, if strings_Contains (flag_Name flag) key then fs ++ [flag] else fs)
        [] set.

Definition tmpl_ex (set : list Flag) (key : string) : list Flag :=
  foldl (λ fs flag, if negb (strings_Contains (flag_Name flag) key) then fs ++ [flag] else fs)
        [] set.

(** *** Observations *)

(** The name ends in [.gql] or [.graphql]. *)
Definition schemaName (fileName : string) : Prop :=
  (∃ base, fileName = base +:+ ".gql") ∨ (∃ base, fileName = base +:+ ".graphql").

End RootCmd.

(** ** Package plugin: more observations on a run *)

Module PluginRuns.

Import Plugin.

Definition isRun (e : Event) : bool :=
  match e with EvRun _ => true | _ => false end.

(** Subprocesses started, as recorded in a log. *)
Definition runs (l : list Event) : nat := length (filter isRun l).

(** What writing [files] one after the other records when every [Open] and
    [Write] succeeds and [h0] handles were obtained before. *)
Definition fileEvents (h0 : nat) (files : list File) : list Event :=
  mjoin (imap (λ i f, [EvOpen (h0 + i) (file_Name f);
                       EvWrite (h0 + i) (bytes_of_string (file_Content f))]) files).

End PluginRuns.

(** ** Package js: the generator's buffer, its import mask and its options *)

Module JsGen.

Import Std.

(** *** The import mask *)

(** [1 << iota] in the constant block, as [uint16]. *)
Definition bit (iota : nat) : Z := Z.shiftl 1 (Z.of_nat iota).

Definition schemaBit : Z := bit 0.
Definition scalarBit : Z := bit 1.
Definition objectBit : Z := bit 2.
Definition interfaceBit : Z := bit 3.
Definition unionBit : Z := bit 4.
Definition enumBit : Z := bit 5.
Definition inputObjectBit : Z := bit 6.
Definition directiveBit : Z := bit 7.
Definition listBit : Z := bit 8.
Definition nonNullBit : Z := bit 9.
Definition intBit : Z := bit 10.
Definition floatBit : Z := bit 11.
Definition stringBit : Z := bit 12.
Definition booleanBit : Z := bit 13.
Definition idBit : Z := bit 14.

(** [mask & ^b] on [uint16]: [^b] is [b] with its 16 bits flipped. *)
Definition andNot (mask b : Z) : Z := Z.land mask (Z.lxor b 65535).

(** The mask [Generate] starts from: every bit set. *)
Definition fullMask : Z :=
  Z.lor
    (Z.lor
       (Z.lor (Z.lor (Z.lor (Z.lor (Z.lor (Z.lor (Z.lor schemaBit scalarBit) objectBit)
                                      interfaceBit) unionBit) enumBit) inputObjectBit)
          directiveBit)
       (Z.lor listBit nonNullBit))
    (Z.lor (Z.lor (Z.lor (Z.lor intBit floatBit) stringBit) booleanBit) idBit).

(** The table [bits]. *)
Definition bits : list (Z * bytes) := [
  (schemaBit, bytes_of_string "GraphQLSchema");
  (scalarBit, bytes_of_string "GraphQLScalarType");
  (objectBit, bytes_of_string "GraphQLObjectType");
  (interfaceBit, bytes_of_string "GraphQLInterfaceType");
  (unionBit, bytes_of_string "GraphQLUnionType");
  (enumBit, bytes_of_string "GraphQLEnumType");
  (inputObjectBit, bytes_of_string "GraphQLInputObjectType");
  (directiveBit, bytes_of_string "GraphQLDirectiveType");
  (listBit, bytes_of_string "GraphQLList");
  (nonNullBit, bytes_of_string "GraphQLNonNull");
  (intBit, bytes_of_string "GraphQLInt");
  (floatBit, bytes_of_string "GraphQLFloat");
  (stringBit, bytes_of_string "GraphQLString");
  (booleanBit, bytes_of_string "GraphQLBoolean");
  (idBit, bytes_of_string "GraphQLID")
].

(** *** Options *)

Record Options : Type := mkOptions {
  opt_Module : string;
  UseFlow : bool;
  Descriptions : bool;
  imports : list bytes;
  declStr : bytes;
}.

Definition flowDirective : bytes := bytes_of_string "// @flow".
Definition commonJSDecl : bytes := bytes_of_string "var".
Definition commonJSImport : bytes := bytes_of_string "= require('graphql');".
Definition es6Decl : bytes := bytes_of_string "let".
Definition es6ImportDecl : bytes := bytes_of_string "import".
Definition es6Import : bytes := bytes_of_string "from 'graphql';".
Definition indentUnit : bytes := bytes_of_string "  ".

Definition addImport (o : Options) (imp : bytes) : Options :=
  mkOptions (opt_Module o) (UseFlow o) (Descriptions o) (imports o ++ [imp]) (declStr o).

(** [Options.setImports] *)
Definition setImports (o : Options) (mask : Z) : Options :=
  foldl (λ o p, if Z.eqb (Z.land mask p.1) 0 then addImport o p.2 else o) o bits.

(** The loop of [writeImports] over [opts.imports]; [i] is the index of the
    first import of [imps]. *)
Fixpoint writeImportList (indent : bytes) (impLen : nat) (i : nat)
    (imps : list bytes) (b : bytes) : bytes :=
  match imps with
  | [] => b
  | imp :: rest =>
    let b := b ++ indent ++ imp in
    let b := if decide (i ≠ impLen - 1)
             then b ++ bytes_of_string "," ++ [Byte.x0a] else b in
    writeImportList indent impLen (S i) rest b
  end.

(** The bytes [writeImports] hands to [w.Write], in one call. *)
Definition importStatement (opts : Options) : bytes :=
  let b := [] in
  let b := if UseFlow opts then b ++ flowDirective ++ [Byte.x0a; Byte.x0a] else b in
  let declStr := if String.eqb (opt_Module opts) "ES6" then es6ImportDecl
                 else commonJSDecl in
  let b := b ++ declStr ++ bytes_of_string " {" in
  let impLen := length (imports opts) in
  let b := if decide (1 < impLen) then b ++ [Byte.x0a] else b in
  let indent := if decide (1 < impLen) then indentUnit else take 1 indentUnit in
  let b := writeImportList indent impLen 0 (imports opts) b in
  let b := if decide (impLen = 1) then b ++ bytes_of_string " " else b ++ [Byte.x0a] in
  let b := b ++ bytes_of_string "} " in
  let b := if String.eqb (opt_Module opts) "COMMONJS" then b ++ commonJSImport
           else if String.eqb (opt_Module opts) "ES6" then b ++ es6Import
           else b in
  b ++ [Byte.x0a; Byte.x0a].

(** *** The values of a [@js] directive *)

Record BasicLit : Type := mkBasicLit {
  lit_Value : string;
}.

(** An [*ast.CompositeLit] as the value of an object field: nil, or with
    its [Value] unset or one of the three alternatives; only a basic
    literal is read there. *)
Inductive FieldValue : Type :=
| Val_nil
| Val_unset
| Val_BasicLit (lit : BasicLit)
| Val_ListLit
| Val_ObjLit.

(** The [Value] of an [*ast.CompositeLit]: unset, or one of its three
    alternatives. Of an object literal the fields are read, each with its
    key and its value. *)
Inductive CompositeLit : Type :=
| CompositeLit_unset
| CompositeLit_BasicLit (lit : BasicLit)
| CompositeLit_ListLit
| CompositeLit_ObjLit (fields : list (string * FieldValue)).

(** The [Value] of an [ast.Arg]. *)
Inductive ArgValue : Type :=
| Arg_unset
| Arg_BasicLit (lit : BasicLit)
| Arg_CompositeLit (lit : CompositeLit).

(** [ast.DirectiveLit]: [dir_Args] is [d.Args], nil or the list
    [d.Args.Args]. *)
Record DirectiveLit : Type := mkDirectiveLit {
  dir_Name : string;
  dir_Args : option (list ArgValue);
}.

(** [strconv.ParseBool]; the text of its error quotes the input with
    [strconv.Quote], which is a parameter. *)
Class Quote := strconv_Quote : string → string.

Definition strconv_ParseBool {Q : Quote} (str : string) : result bool :=
  if existsb (String.eqb str) ["1"; "t"; "T"; "true"; "TRUE"; "True"]%string
  then Ok true
  else if existsb (String.eqb str) ["0"; "f"; "F"; "false"; "FALSE"; "False"]%string
  then Ok false
  else Err (errorString ("strconv.ParseBool: parsing " +:+ strconv_Quote str
                           +:+ ": invalid syntax")).

(** A failed type assertion and a nil dereference, as the runtime raises
    them (the texts carry no detail). *)
Definition assertionPanic {A : Type} : outcome A :=
  Panics (VError (runtimeError "interface conversion")).
Definition nilPanic {A : Type} : outcome A :=
  Panics (VError (runtimeError "invalid memory address or nil pointer dereference")).
Definition indexPanic {A : Type} : outcome A :=
  Panics (VError (runtimeError "index out of range [0] with length 0")).

Definition setModule (o : Options) (m : string) : Options :=
  mkOptions m (UseFlow o) (Descriptions o) (imports o) (declStr o).
Definition setUseFlow (o : Options) (u : bool) : Options :=
  mkOptions (opt_Module o) u (Descriptions o) (imports o) (declStr o).
Definition setDescriptions (o : Options) (d : bool) : Options :=
  mkOptions (opt_Module o) (UseFlow o) d (imports o) (declStr o).
Definition setDeclStr (o : Options) (d : bytes) : Options :=
  mkOptions (opt_Module o) (UseFlow o) (Descriptions o) (imports o) d.

(** [arg.Val.Value], asserted to be a basic literal, and its [Value]. *)
Definition basicValue (val : FieldValue) : outcome string :=
  match val with
  | Val_nil => nilPanic
  | Val_BasicLit lit => Returns (lit_Value lit)
  | _ => assertionPanic
  end.

(** The loop over [jsOpts.Fields]: it goes on with the options, or leaves
    [getOptions] with an error. *)
Fixpoint directiveFields {Q : Quote} (fields : list (string * FieldValue))
    (gOpts : Options) : outcome (Options * option error) :=
  match fields with
  | [] => Returns (gOpts, None)
  | (key, val) :: rest =>
    if String.eqb key "module" then
      match basicValue val with
      | Panics v => Panics v
      | Returns m => directiveFields rest (setModule gOpts m)
      end
    else if String.eqb key "useFlow" then
      match basicValue val with
      | Panics v => Panics v
      | Returns v =>
        directiveFields rest (if String.eqb v "true" then setUseFlow gOpts true else gOpts)
      end
    else if String.eqb key "descriptions" then
      match basicValue val with
      | Panics v => Panics v
      | Returns v =>
        match strconv_ParseBool v with
        | Err err => Returns (gOpts, Some err)
        | Ok b => directiveFields rest (setDescriptions gOpts b)
        end
      end
    else directiveFields rest gOpts
  end.

(** "Extract document directive options" *)
Fixpoint directiveOptions {Q : Quote} (directives : list DirectiveLit)
    (gOpts : Options) : outcome (Options * option error) :=
  match directives with
  | [] => Returns (gOpts, None)
  | d :: rest =>
    if negb (String.eqb (dir_Name d) "js") then directiveOptions rest gOpts
    else
      match dir_Args d with
      | None => Returns (gOpts, None)                              (* break *)
      | Some [] => indexPanic
      | Some (Arg_CompositeLit (CompositeLit_ObjLit fields) :: _) =>
        match directiveFields fields gOpts with
        | Returns (gOpts, None) => directiveOptions rest gOpts
        | r => r
        end
      | Some _ => assertionPanic
      end
  end.

(** [m.(string)] and [d.(bool)] in the two-value form whose second value is
    dropped: the zero value when the type differs. *)
Definition asString (v : Value) : string :=
  match v with VString s => s | _ => EmptyString end.
Definition asBool (v : Value) : bool :=
  match v with VBool b => b | _ => false end.

(** "Unmarshal cli options", for a map that is not nil. *)
Definition cliOptions (opts : gmap string Value) (gOpts : Options) : Options :=
  let gOpts := match opts !! "module"%string with
               | Some m => setModule gOpts (asString m)
               | None => gOpts
               end in
  let gOpts := match opts !! "descriptions"%string with
               | Some d => setDescriptions gOpts (asBool d)
               | None => gOpts
               end in
  let gOpts := match opts !! "useFlow"%string with
               | Some u => setUseFlow gOpts (asBool u)
               | None => gOpts
               end in
  if String.eqb (opt_Module gOpts) "ES6" then setDeclStr gOpts es6Decl else gOpts.

(** [getOptions]; [directives] is [doc.Directives] and [opts] the map of
    the command line, nil or not. *)
Definition getOptions {Q : Quote} (directives : list DirectiveLit)
    (opts : option (gmap string Value)) : outcome (Options * option error) :=
  let gOpts := mkOptions "COMMONJS" false false [] commonJSDecl in
  match directiveOptions directives gOpts with
  | Panics v => Panics v
  | Returns (gOpts, Some err) => Returns (gOpts, Some err)
  | Returns (gOpts, None) =>
    match opts with
    | None => Returns (gOpts, None)
    | Some opts => Returns (cliOptions opts gOpts, None)
    end
  end.

(** *** The output file name *)

(** [doc.Name[:len(doc.Name)-len(filepath.Ext(doc.Name))] + ".js"] *)
Definition jsFileName (docName : string) : string :=
  String.substring 0 (String.length docName - String.length (filepath_Ext docName))
    docName +:+ ".js".

End JsGen.

(** ** Package js: printing *)

Module JsPrint.

Import Std JsGen.

(** [ast.List] and [ast.NonNull], each with its [Type]: unset, or one of
    the alternatives the ast gives it. The pointers on the way to an
    identifier are not nil, as the parser builds them. *)
Inductive List : Type :=
| List_unset
| List_Ident (name : string)
| List_List (l : List)
| List_NonNull (n : NonNull)
with NonNull : Type :=
| NonNull_unset
| NonNull_Ident (name : string)
| NonNull_List (l : List).

(** The [typ interface{}] of [printType]: an identifier, a list, a
    non-null, or anything else (nil included). *)
Inductive FieldType : Type :=
| TOther
| TIdent (name : string)
| TList (l : List)
| TNonNull (n : NonNull).

(** The generator: the embedded [bytes.Buffer] and the indent. *)
Record Gen : Type := mkGen {
  Buffer : bytes;
  indent : bytes;
}.

Definition Write (p : bytes) (g : Gen) : Gen := mkGen (Buffer g ++ p) (indent g).
Definition WriteByte (c : Byte.byte) (g : Gen) : Gen := Write [c] g.
Definition WriteString (s : string) (g : Gen) : Gen := Write (bytes_of_string s) g.

(** [Generator.Reset] *)
Definition Reset (g : Gen) : Gen := mkGen [] [].

(** An argument of [P]: a [[]byte], a [string], a [bool], [int] or
    [float64] with the text [fmt.Fprint] gives it, or a value of any
    other type. *)
Inductive PArg : Type :=
| ABytes (v : bytes)
| AString (v : string)
| AFmt (text : string)
| AOther.

Definition printArg (g : Gen) (s : PArg) : Gen :=
  match s with
  | ABytes v => Write v g
  | AString v => WriteString v g
  | AFmt text => WriteString text g
  | AOther => g
  end.

(** [Generator.P] *)
Definition P (str : list PArg) (g : Gen) : Gen :=
  WriteByte Byte.x0a (foldl printArg (Write (indent g) g) str).

(** [Generator.In] *)
Definition In (g : Gen) : Gen := mkGen (Buffer g) (indent g ++ bytes_of_string "  ").

(** [Generator.Out]: [g.indent[:len(g.indent)-2]] is out of bounds on an
    indent of one byte. *)
Definition Out (g : Gen) : outcome Gen :=
  match length (indent g) with
  | 0 => Returns g
  | 1 => Panics (VError (runtimeError "slice bounds out of range [:-1]"))
  | S (S n) => Returns (mkGen (Buffer g) (take n (indent g)))
  end.

(** Sequencing of calls that may panic. *)
Definition andThen (r : outcome Gen) (k : Gen → outcome Gen) : outcome Gen :=
  match r with
  | Returns g => k g
  | Panics v => Panics v
  end.

Notation "r >>> k" := (andThen r k) (at level 61, left associativity).

(** [printType]. A call that returns yields the mask and the generator;
    [fuel] bounds the depth of the calls, and [None] is a call that needs
    more. On a list or non-null whose [Type] is unset, [typ] is left as it
    was and the function calls itself on the same value. *)
Fixpoint printType (fuel : nat) (imports : Z) (typ : FieldType) (g : Gen)
    : option (Z * Gen) :=
  match fuel with
  | 0 => None
  | S fuel =>
    match typ with
    | TIdent name =>
      if String.eqb name "Int" then Some (andNot imports intBit, WriteString "GraphQLInt" g)
      else if String.eqb name "Float" then
        Some (andNot imports floatBit, WriteString "GraphQLFloat" g)
      else if String.eqb name "String" then
        Some (andNot imports stringBit, WriteString "GraphQLString" g)
      else if String.eqb name "Boolean" then
        Some (andNot imports booleanBit, WriteString "GraphQLBoolean" g)
      else if String.eqb name "ID" then Some (andNot imports idBit, WriteString "GraphQLID" g)
      else Some (imports, WriteString name g)
    | TList v =>
      let g := WriteString "new GraphQLList(" g in
      let typ := match v with
                 | List_Ident name => TIdent name
                 | List_List l => TList l
                 | List_NonNull n => TNonNull n
                 | List_unset => typ
                 end in
      match printType fuel imports typ g with
      | None => None
      | Some (imports, g) => Some (andNot imports listBit, WriteByte Byte.x29 g)
      end
    | TNonNull v =>
      let g := WriteString "new GraphQLNonNull(" g in
      let typ := match v with
                 | NonNull_Ident name => TIdent name
                 | NonNull_List l => TList l
                 | NonNull_unset => typ
                 end in
      match printType fuel imports typ g with
      | None => None
      | Some (imports, g) => Some (andNot imports nonNullBit, WriteByte Byte.x29 g)
      end
    | TOther => Some (imports, g)
    end
  end.

(** [text[:len(text)-1]] *)
Definition dropLast (text : string) : string :=
  String.substring 0 (String.length text - 1) text.

(** [printDescr], on a document group that is not nil; [text] is what its
    [Text] method returns. *)
Definition printDescr (text : string) (g : Gen) : Gen :=
  if decide (0 < String.length text) then
    let g := WriteByte Byte.x0a (WriteByte Byte.x2c g) in
    let g := WriteString "description: '" (Write (indent g) g) in
    WriteByte Byte.x27 (WriteString (dropLast text) g)
  else g.

(** The [Type] of an [ast.TypeSpec]: unset or one of its alternatives. The
    functions below read the root operations of a schema and the members
    of a union; of the other alternatives only the tag matters to them.
    The schema, its list of root operations, the union and the identifiers
    of fields and members are not nil, as the parser builds them. *)
Inductive FieldTypeOneof : Type :=
| Field_unset
| Field_Ident (name : string)
| Field_List (l : List)
| Field_NonNull (n : NonNull).

Record Field : Type := mkField {
  field_Name : string;
  field_Type : FieldTypeOneof;
}.

Inductive TypeSpecType : Type :=
| TypeSpec_unset
| TypeSpec_Schema (rootOps : list Field)
| TypeSpec_Scalar
| TypeSpec_Object
| TypeSpec_Interface
| TypeSpec_Union (members : list string)
| TypeSpec_Enum
| TypeSpec_Input
| TypeSpec_Directive.

(** [generateScalar]; [doc] is nil or the text of the document group. *)
Definition generateScalar (name : string) (descr : bool) (doc : option string)
    (g : Gen) : outcome Gen :=
  let g := P [AString "GraphQLScalarType({"] g in
  let g := In g in
  let g := P [AString "name: '"; AString name; AString "',"] g in
  let g := match doc with
           | Some text =>
             if descr && bool_decide (0 < String.length text)
             then P [AString "description: '"; AString (dropLast text); AString "',"] g
             else g
           | None => g
           end in
  let g := P [AString "serialize(value) { /* TODO */ }"] g in
  Out g >>> λ g, Returns (P [AString "});"] g).

(** The loop of [generateUnion] over more than one member; [i] is the
    index of the first member of [mems]. *)
Fixpoint printMembers (memsLen : nat) (i : nat) (mems : list string)
    (sep : string) (g : Gen) : Gen :=
  match mems with
  | [] => g
  | mem :: rest =>
    let sep := if decide (i = memsLen - 1) then EmptyString else sep in
    printMembers memsLen (S i) rest sep (P [AString mem; AString sep] g)
  end.

(** [generateUnion]. With one member, [P] is handed the member itself, an
    [*ast.Ident], between the two strings. *)
Definition generateUnion (name : string) (descr : bool) (doc : option string)
    (ts : TypeSpecType) (g : Gen) : outcome Gen :=
  match ts with
  | TypeSpec_Union members =>
    let g := P [AString "GraphQLUnionType({"] g in
    let g := In g in
    let g := P [AString "name: '"; AString name; AString "',"] g in
    let memsLen := length members in
    let g := if decide (memsLen = 1)
             then P [AString "types: [ "; AOther; AString " ],"] g else g in
    (if decide (1 < memsLen) then
       let g := P [AString "types: ["] g in
       let g := In g in
       let g := printMembers memsLen 0 members "," g in
       Out g >>> λ g, Returns (P [AString "],"] g)
     else Returns g) >>> λ g,
    let g := WriteString "resolveType(value) { /* TODO */ }" (Write (indent g) g) in
    let g := match doc with
             | Some text => if descr then printDescr text g else g
             | None => g
             end in
    let g := WriteByte Byte.x0a g in
    Out g >>> λ g, Returns (P [AString "});"] g)
  | _ => assertionPanic
  end.

(** [strings.ToLower], a parameter. *)
Class Lower := strings_ToLower : string → string.

(** The loop of [generateSchema] over the root operations. *)
Definition rootOperations {L : Lower} (rootOps : list Field)
    : option Field * option Field :=
  foldl (λ qm f,
           let lname := strings_ToLower (field_Name f) in
           let q := if String.eqb lname "query" then Some f else qm.1 in
           let m := if String.eqb lname "mutation" then Some f else qm.2 in
           (q, m))
        (None, None) rootOps.

(** [f.Type], asserted to be an identifier, and its [Name], for a field
    pointer that may be nil. *)
Definition identName (f : option Field) : outcome string :=
  match f with
  | None => nilPanic
  | Some f =>
    match field_Type f with
    | Field_Ident name => Returns name
    | _ => assertionPanic
    end
  end.

(** [generateSchema] *)
Definition generateSchema {L : Lower} (opts : Options) (ts : TypeSpecType)
    (g : Gen) : outcome Gen :=
  match ts with
  | TypeSpec_Schema rootOps =>
    let '(query, mutation) := rootOperations rootOps in
    let g := P [ABytes (declStr opts); AString " Schema = new GraphQLSchema({"] g in
    let g := In g in
    let g := Write (indent g) g in
    match identName query with
    | Panics v => Panics v
    | Returns q =>
      let g := WriteString ("query: " +:+ q) g in
      (match mutation with
       | Some _ =>
         let g := WriteByte Byte.x0a (WriteByte Byte.x2c g) in
         let g := Write (indent g) g in
         match identName mutation with
         | Panics v => Panics v
         | Returns m => Returns (WriteString ("mutation: " +:+ m) g)
         end
       | None => Returns g
       end) >>> λ g,
      Out g >>> λ g, Returns (P [AString "});"] (P [] g))
    end
  | _ => assertionPanic
  end.

End JsPrint.

(** ** Package js: observations *)

Module JsObs.

Import Std JsGen JsPrint.

(** The entry of [bits] for a built-in scalar name, if it is one. *)
Definition scalarEntry (name : string) : option (Z * bytes) :=
  if String.eqb name "Int" then Some (intBit, bytes_of_string "GraphQLInt")
  else if String.eqb name "Float" then Some (floatBit, bytes_of_string "GraphQLFloat")
  else if String.eqb name "String" then Some (stringBit, bytes_of_string "GraphQLString")
  else if String.eqb name "Boolean" then Some (booleanBit, bytes_of_string "GraphQLBoolean")
  else if String.eqb name "ID" then Some (idBit, bytes_of_string "GraphQLID")
  else None.

(** The entries of [bits] a type refers to, outermost last, and whether
    the type ends in an identifier (no [Type] is unset on the way). *)
Fixpoint usesList (l : List) : list (Z * bytes) :=
  match l with
  | List_unset => []
  | List_Ident name => option_list (scalarEntry name)
  | List_List l => usesList l ++ [(listBit, bytes_of_string "GraphQLList")]
  | List_NonNull n => usesNonNull n ++ [(nonNullBit, bytes_of_string "GraphQLNonNull")]
  end
with usesNonNull (n : NonNull) : list (Z * bytes) :=
  match n with
  | NonNull_unset => []
  | NonNull_Ident name => option_list (scalarEntry name)
  | NonNull_List l => usesList l ++ [(listBit, bytes_of_string "GraphQLList")]
  end.

Definition uses (typ : FieldType) : list (Z * bytes) :=
  match typ with
  | TOther => []
  | TIdent name => option_list (scalarEntry name)
  | TList l => usesList l ++ [(listBit, bytes_of_string "GraphQLList")]
  | TNonNull n => usesNonNull n ++ [(nonNullBit, bytes_of_string "GraphQLNonNull")]
  end.

Fixpoint setList (l : List) : bool :=
  match l with
  | List_unset => false
  | List_Ident _ => true
  | List_List l => setList l
  | List_NonNull n => setNonNull n
  end
with setNonNull (n : NonNull) : bool :=
  match n with
  | NonNull_unset => false
  | NonNull_Ident _ => true
  | NonNull_List l => setList l
  end.

Definition allSet (typ : FieldType) : bool :=
  match typ with
  | TOther | TIdent _ => true
  | TList l => setList l
  | TNonNull n => setNonNull n
  end.

(** The nesting of a type. *)
Fixpoint depthList (l : List) : nat :=
  match l with
  | List_unset | List_Ident _ => 1
  | List_List l => S (depthList l)
  | List_NonNull n => S (depthNonNull n)
  end
with depthNonNull (n : NonNull) : nat :=
  match n with
  | NonNull_unset | NonNull_Ident _ => 1
  | NonNull_List l => S (depthList l)
  end.

Definition depth (typ : FieldType) : nat :=
  match typ with
  | TOther | TIdent _ => 0
  | TList l => depthList l
  | TNonNull n => depthNonNull n
  end.

(** The calls a client makes on the generator between two outputs. *)
Inductive Op : Type :=
| OpReset
| OpIn
| OpOut
| OpP (str : list PArg)
| OpWrite (p : bytes).

Definition runOp (g : Gen) (op : Op) : outcome Gen :=
  match op with
  | OpReset => Returns (Reset g)
  | OpIn => Returns (In g)
  | OpOut => Out g
  | OpP str => Returns (P str g)
  | OpWrite p => Returns (Write p g)
  end.

Fixpoint runOps (g : Gen) (ops : list Op) : outcome Gen :=
  match ops with
  | [] => Returns g
  | op :: rest => runOp g op >>> λ g, runOps g rest
  end.

(** Imports one per line, each after two spaces, with a comma after all but
    the last. *)
Fixpoint importLines (imps : list bytes) : bytes :=
  match imps with
  | [] => []
  | [imp] => indentUnit ++ imp
  | imp :: rest => indentUnit ++ imp ++ bytes_of_string "," ++ [Byte.x0a] ++ importLines rest
  end.

(** [g'] has the indent of [g] and a buffer that extends the buffer of [g]. *)
Definition keeps (g g' : Gen) : Prop :=
  indent g' = indent g ∧ Buffer g `prefix_of` Buffer g'.

(** The bytes [x] stand somewhere in [l]. *)
Definition occurs (x l : bytes) : Prop := ∃ pre post, l = pre ++ x ++ post.

(** The indent is a run of an even number of spaces. *)
Definition evenIndent (g : Gen) : Prop := ∃ n, indent g = replicate (2 * n) Byte.x20.

(** The options [getOptions] starts from. *)
Definition defaults : Options := mkOptions "COMMONJS" false false [] commonJSDecl.

(** What stands between the braces of the import statement. *)
Definition importBody (imps : list bytes) : bytes :=
  match imps with
  | [] => [Byte.x0a]
  | [imp] => bytes_of_string " " ++ imp ++ bytes_of_string " "
  | _ => [Byte.x0a] ++ importLines imps ++ [Byte.x0a]
  end.

End JsObs.

(** ** Package cmd: the helper of the end-to-end test *)

Module E2E.

Global Instance Byte_eq_dec : EqDecision Byte.byte := Byte.byte_eq_dec.

(** [bytes.EqualFold], a parameter. *)
Class Fold := bytes_EqualFold : bytes → bytes → bool.

(** How [compareBytes] ends: it returns, it stops the test with [t.Fatalf]
    at index [i] on line [line], where [expected] was expected and [got]
    found, or [ex[i]] is out of range. *)
Inductive Verdict : Type :=
| Passes
| Fatal (i : nat) (expected got : Byte.byte) (line : nat)
| OutOfRange (i : nat).

(** The loop of [compareBytes]; [i] is the index of the first byte of [out]
    and [line] the line counted so far. *)
Fixpoint compareLoop (ex : bytes) (i line : nat) (out : bytes) : Verdict :=
  match out with
  | [] => Passes
  | b :: rest =>
    let line := if decide (b = Byte.x0a) then S line else line in
    match ex !! i with
    | None => OutOfRange i
    | Some e =>
      if decide (e ≠ b) then Fatal i e b line
      else compareLoop ex (S i) line rest
    end
  end.

(** [compareBytes] *)
Definition compareBytes {F : Fold} (ex out : bytes) : Verdict :=
  if bytes_EqualFold out ex then Passes else compareLoop ex 0 1 out.

(** Line feeds in a run of bytes. *)
Definition lineFeeds (l : bytes) : nat := length (filter (λ b, b = Byte.x0a) l).

End E2E.

(** * Concrete worlds

    Small instances of the environments, on which the properties below are
    exercised. *)

Module Examples.

Definition demoText : ErrorText := {|
  generatorErrorText g d m := g +:+ ": " +:+ d +:+ ": " +:+ m;
  invalidPathText name := "invalid path: " +:+ name;
|}.

(** ** A plugin and an output directory held in memory *)

Definition memFile (name : string) : Plugin.WriteCloser (gmap string bytes) :=
  Plugin.mkWriteCloser
    (λ data w, (None, <[name := default [] (w !! name) ++ data]> w))
    (λ w, (None, w)).

Definition memCtx : Plugin.GeneratorContext (gmap string bytes) :=
  Plugin.mkGeneratorContext (λ name w, (Ok (memFile name), <[name := []]> w)).

Definition isChan (v : Value) : bool :=
  match v with VChan _ => true | _ => false end.

(** A host on which the plugin is installed or not, and whose plugin
    answers every request with [reply] and exits with status 0. Options
    holding a channel do not encode. *)
Definition demoPlugin (found : bool) (reply : Plugin.Response)
    : Plugin.Env (gmap string bytes) := {|
  Plugin.json_Marshal opts :=
    if existsb isChan (map_to_list opts).*2
    then Err (errorString "json: unsupported type: chan int")
    else Ok (bytes_of_string "{}");
  Plugin.exec_LookPath file w :=
    if found then (("/usr/local/bin/" +:+ file, None), w)
    else ((EmptyString,
           Some (errorString ("exec: " +:+ file +:+ ": executable file not found in $PATH"))),
          w);
  Plugin.proto_Marshal req := Ok (bytes_of_string (Plugin.req_Parameter req));
  Plugin.proto_Unmarshal out := Ok reply;
  Plugin.exec_CommandContext p := Plugin.mkCmd p [];
  Plugin.cmd_Run c w := ((None, []), w);
|}.

Definition schemaDoc : Document := mkDocument "schema.gql" ["Query"].

Definition docsPlugin : Plugin.Generator := Plugin.newGenerator "docs" "gqlc-gen-".

Definition start : Plugin.State (gmap string bytes) := Plugin.mkState ∅ [] 0.

Definition boom : Plugin.Response := Plugin.mkResponse "boom" [].

Definition oneFile : Plugin.Response :=
  Plugin.mkResponse EmptyString [Plugin.mkFile "a.txt" "x"].

Definition evilFiles : Plugin.Response :=
  Plugin.mkResponse EmptyString
    [Plugin.mkFile "ok.txt" "fine"; Plugin.mkFile "../evil.txt" "gotcha"].

Definition chanOpts : gmap string Value := {["done" := VChan 0]}.

(** The executor once the plugin is found, and once it is not. *)
Definition docsPluginFound : Plugin.Generator :=
  Plugin.mkGenerator None "docs" "gqlc-gen-" true "/usr/local/bin/gqlc-gen-docs" None.

Definition notFound : error :=
  errorString "exec: gqlc-gen-docs: executable file not found in $PATH".

Definition docsPluginMissing : Plugin.Generator :=
  Plugin.mkGenerator None "docs" "gqlc-gen-" true EmptyString (Some notFound).

(** The command the executor runs and the state it reaches when the plugin
    has answered, before any file is written. *)
Definition docsCmd : Plugin.Cmd :=
  Plugin.mkCmd "/usr/local/bin/gqlc-gen-docs" (bytes_of_string "{}").

Definition answered : Plugin.State (gmap string bytes) :=
  Plugin.mkState ∅ [Plugin.EvLookPath "gqlc-gen-docs"; Plugin.EvRun docsCmd] 0.

(** ** A pipeline over schema files *)

(** [filepath.Abs] in the directory [/src]. *)
Definition demoAbs (f : string) : string :=
  match f with
  | String "." (String "/" rest) => "/src/" +:+ rest
  | _ => "/src/" +:+ f
  end.

Definition demoRange (rev : nat → bool) (i : nat) (m : gmap string Root.DocRef)
    : list (string * Root.DocRef) :=
  if rev i then reverse (map_to_list m) else map_to_list m.

Definition demoRange_perm (rev : nat → bool) (i : nat) (m : gmap string Root.DocRef)
    : demoRange rev i m ≡ₚ map_to_list m :=
  match rev i as b
    return (if b then reverse (map_to_list m) else map_to_list m) ≡ₚ map_to_list m
  with
  | true => reverse_Permutation (map_to_list m)
  | false => Permutation_refl (map_to_list m)
  end.

(** Two registered generators that always succeed, a parser that names a
    document after its absolute path, a checker that reports [diags], and
    maps whose [i]-th [range] runs backwards when [rev i]. *)
Definition demoRoot (rev : nat → bool) (diags : list error)
    : Root.Env unit unit string string := {|
  Root.geners := {["doc_out" := "doc"; "go_out" := "go"]};
  Root.filepath_Abs f w := (Ok (demoAbs f), w);
  Root.os_Open f w := (Ok f, w);
  Root.token_NewDocSet := tt;
  Root.parser_ParseDoc d filename f mode w := ((d, Ok (mkDocument filename [])), w);
  Root.util_CheckTypes docs := diags;
  Root.Generate g doc opts w := (None, w);
  Root.map_range := demoRange rev;
  Root.map_range_perm := demoRange_perm rev;
|}.

Definition docFlags : list Root.Flag :=
  [Root.mkFlag "doc_out" true; Root.mkFlag "go_out" false; Root.mkFlag "verbose" true].

Definition bothFlags : list Root.Flag :=
  [Root.mkFlag "doc_out" true; Root.mkFlag "go_out" true].

(** The flags of the two generators in the order they are defined, [go_out]
    first, and a flag set in the order of the names, in which pflag visits
    it unless its [SortFlags] is unset. *)
Definition definedFlags : list Root.Flag :=
  [Root.mkFlag "go_out" true; Root.mkFlag "doc_out" true].

Fixpoint insertByName (f : Root.Flag) (fs : list Root.Flag) : list Root.Flag :=
  match fs with
  | [] => [f]
  | f' :: rest =>
    if String.leb (Root.flag_Name f) (Root.flag_Name f') then f :: fs
    else f' :: insertByName f rest
  end.

Definition byName (fs : list Root.Flag) : list Root.Flag := foldr insertByName [] fs.

(** A [range] that runs backwards from the [n]-th on. *)
Definition lateReverse (n i : nat) : bool := Nat.leb n i.

Definition docA (n : nat) : Root.DocRef := Root.mkDocRef n (mkDocument "/src/a.gql" []).
Definition docB (n : nat) : Root.DocRef := Root.mkDocRef n (mkDocument "/src/b.gql" []).

(** ** A command line *)

Definition quote : string := String (ascii_of_nat 34) EmptyString.

Definition demoStack : bytes := bytes_of_string "goroutine 1 [running]:".

(** A command that panics with the string [boom] on the switch [--boom],
    with a nil value on [--nil], and succeeds otherwise. *)
Definition demoCli (legacy : bool) : Cli.Env unit (list string) := {|
  Cli.SetArgs c a := a;
  Cli.Execute c w :=
    if decide ("--boom"%string ∈ c) then (Panics (VString "boom"), c, w)
    else if decide ("--nil"%string ∈ c) then (Panics VNil, c, w)
    else (Returns None, c, w);
  Cli.debug_Stack w := demoStack;
  Cli.debug_Stack_nonempty w := ltac:(discriminate);
  Cli.fmt_GoSyntax v :=
    match v with
    | VString s => quote +:+ s +:+ quote
    | _ => "<value>"
    end;
  Cli.panicnil := legacy;
|}.

End Examples.

(** * More concrete inputs

    Hosts on which something fails, and inputs of the JavaScript generator
    and of the test helper. *)

Module Samples.

Import Examples.

(** ** A directory in which one schema file is missing *)

Definition missing : error :=
  errorString "open /src/missing.gql: no such file or directory".

Definition brokenRoot : Root.Env unit unit string string := {|
  Root.geners := {["doc_out" := "doc"; "go_out" := "go"]};
  Root.filepath_Abs f w := (Ok (demoAbs f), w);
  Root.os_Open f w :=
    if String.eqb f "/src/missing.gql" then (Err missing, w) else (Ok f, w);
  Root.token_NewDocSet := tt;
  Root.parser_ParseDoc d filename f mode w := ((d, Ok (mkDocument filename [])), w);
  Root.util_CheckTypes docs := [];
  Root.Generate g doc opts w := (None, w);
  Root.map_range := demoRange (λ _, false);
  Root.map_range_perm := demoRange_perm (λ _, false);
|}.

(** ** An output directory with a locked file, and a plugin that crashes *)

Definition denied : error := errorString "open locked.txt: permission denied".

Definition lockedCtx : Plugin.GeneratorContext (gmap string bytes) :=
  Plugin.mkGeneratorContext
    (λ name w, if String.eqb name "locked.txt" then (Err denied, w)
               else (Ok (memFile name), <[name := []]> w)).

Definition twoFiles : Plugin.Response :=
  Plugin.mkResponse EmptyString [Plugin.mkFile "a.txt" "x"; Plugin.mkFile "b.txt" "z"].

Definition threeFiles : Plugin.Response :=
  Plugin.mkResponse EmptyString
    [Plugin.mkFile "a.txt" "x"; Plugin.mkFile "locked.txt" "y"; Plugin.mkFile "b.txt" "z"].

Definition exitStatus : error := errorString "exit status 1".

(** The plugin is installed and exits with status 1 on every request. *)
Definition crashPlugin : Plugin.Env (gmap string bytes) := {|
  Plugin.json_Marshal opts := Ok (bytes_of_string "{}");
  Plugin.exec_LookPath file w := (("/usr/local/bin/" +:+ file, None), w);
  Plugin.proto_Marshal req := Ok (bytes_of_string (Plugin.req_Parameter req));
  Plugin.proto_Unmarshal out := Ok oneFile;
  Plugin.exec_CommandContext p := Plugin.mkCmd p [];
  Plugin.cmd_Run c w := ((Some exitStatus, []), w);
|}.

(** What the JavaScript generator writes: an import statement and a body. *)
Definition importLine : bytes := bytes_of_string "var {} = require('graphql');".
Definition body : bytes := bytes_of_string "x".

Definition looked : Plugin.State (gmap string bytes) :=
  Plugin.mkState ∅ [Plugin.EvLookPath "gqlc-gen-docs"] 0.

(** ** Inputs of the JavaScript generator *)

Definition goQuote : JsGen.Quote := λ s, quote +:+ s +:+ quote.

Definition lowerAscii (c : ascii) : ascii :=
  let n := nat_of_ascii c in
  if Nat.leb 65 n && Nat.leb n 90 then ascii_of_nat (n + 32) else c.

Fixpoint lowerString (s : string) : string :=
  match s with
  | EmptyString => EmptyString
  | String c rest => String (lowerAscii c) (lowerString rest)
  end.

Definition asciiLower : JsPrint.Lower := lowerString.

(** [@js(options: {module: "ES6", useFlow: true})], [@js] and another
    directive. *)
Definition es6Directive : JsGen.DirectiveLit :=
  JsGen.mkDirectiveLit "js"
    (Some [JsGen.Arg_CompositeLit
             (JsGen.CompositeLit_ObjLit
                [("module"%string, JsGen.Val_BasicLit (JsGen.mkBasicLit "ES6"));
                 ("useFlow"%string, JsGen.Val_BasicLit (JsGen.mkBasicLit "true"))])]).

Definition bareDirective : JsGen.DirectiveLit := JsGen.mkDirectiveLit "js" None.

Definition otherDirective : JsGen.DirectiveLit := JsGen.mkDirectiveLit "deprecated" None.

Definition cliOpts : gmap string Value :=
  {["descriptions" := VBool true; "useFlow" := VString "yes"]}.

Definition es6Options : JsGen.Options :=
  JsGen.mkOptions "ES6" false true [] JsGen.es6Decl.

Definition docOptions : JsGen.Options :=
  JsGen.mkOptions "ES6" true false [] JsGen.commonJSDecl.

(** The type [[Int!]]. *)
Definition intList : JsPrint.FieldType :=
  JsPrint.TList (JsPrint.List_NonNull (JsPrint.NonNull_Ident "Int")).

Definition fresh : JsPrint.Gen := JsPrint.mkGen [] [].

(** The generator a call has returned, if it has. *)
Definition returned (r : outcome JsPrint.Gen) : JsPrint.Gen :=
  match r with
  | Returns g => g
  | Panics _ => fresh
  end.

Definition session : list JsObs.Op :=
  [JsObs.OpIn; JsObs.OpP [JsPrint.AString "x"]; JsObs.OpIn; JsObs.OpOut; JsObs.OpOut;
   JsObs.OpOut; JsObs.OpReset].

Definition petUnion : JsPrint.TypeSpecType := JsPrint.TypeSpec_Union ["Cat"; "Dog"]%string.

Definition fullSchema : list JsPrint.Field :=
  [JsPrint.mkField "Query" (JsPrint.Field_Ident "Query");
   JsPrint.mkField "mutation" (JsPrint.Field_Ident "Mutation")].

Definition mutationOnly : list JsPrint.Field :=
  [JsPrint.mkField "mutation" (JsPrint.Field_Ident "Mutation")].

(** ** Inputs of the test helper *)

Definition lowerByte (b : Byte.byte) : Byte.byte :=
  byte_of_ascii (lowerAscii (ascii_of_byte b)).

(** Equality up to the case of the ASCII letters. *)
Definition asciiFold : E2E.Fold :=
  λ a b, bool_decide (lowerByte <$> a = lowerByte <$> b).

(** Two lines that differ in their last byte. *)
Definition expectedLines : bytes := [Byte.x61; Byte.x0a; Byte.x62; Byte.x63].
Definition writtenLines : bytes := [Byte.x61; Byte.x0a; Byte.x62; Byte.x64].

End Samples.

(** * Properties *)

(** ** The plugin executor *)

Module PluginFacts.

Import Plugin.

Section WithWorld.

Context {World : Type} {ET : ErrorText} {E : Env World}.

Implicit Types (g : Generator) (s : State World) (doc : Document).
Implicit Types (gCtx : GeneratorContext World) (opts : gmap string Value).

Lemma lookOnce_Do_identity g s g' s' :
  lookOnce_Do g s = (g', s') → Prefix g' = Prefix g ∧ Name g' = Name g.
Proof.
  unfold lookOnce_Do. destruct (lookOnce g).
  - by intros [= <- <-].
  - destruct (exec_LookPath _ _) as [[p e] w]. by intros [= <- <-].
Qed.

Lemma Generate_body_identity g gCtx doc opts s err g' s' :
  Generate_body g gCtx doc opts s = (err, g', s') →
  Prefix g' = Prefix g ∧ Name g' = Name g.
Proof.
  unfold Generate_body.
  destruct (json_Marshal opts); [|by intros [= <- <- <-]].
  destruct (lookOnce_Do g s) as [g1 s1] eqn:Hlook.
  apply lookOnce_Do_identity in Hlook.
  destruct (lookPathErr g1); [by intros [= <- <- <-]|].
  destruct (proto_Marshal _); [|by intros [= <- <- <-]].
  destruct (cmd_Run _ _) as [[rerr out] w].
  destruct rerr; [by intros [= <- <- <-]|].
  destruct (proto_Unmarshal out); [|by intros [= <- <- <-]].
  case_decide; [by intros [= <- <- <-]|].
  destruct (writeFiles _ _ _). by intros [= <- <- <-].
Qed.

Lemma Generate_unfold g gCtx doc opts s err g' s' :
  Generate_body g gCtx doc opts s = (err, g', s') →
  Generate g gCtx doc opts s = (attribute g doc err, g', s').
Proof.
  intros Hb. unfold Generate. rewrite Hb.
  apply Generate_body_identity in Hb as [HP HN].
  unfold attribute. by rewrite HP, HN.
Qed.

Lemma Responds_body g gCtx doc opts s resp g' s' :
  Responds g doc opts s resp g' s' →
  Generate_body g gCtx doc opts s =
    if decide (resp_Error resp ≠ EmptyString)
    then (Some (errors_New (resp_Error resp)), g', s')
    else let '(err, s'') := writeFiles gCtx (resp_File resp) s' in (err, g', s'').
Proof.
  intros (b & g1 & s1 & req & out & w & Hj & Hl & Hp & Hm & Hr & Hu & -> & ->).
  unfold Generate_body. rewrite Hj, Hl, Hp, Hm.
  fold (command g1 req). rewrite Hr, Hu. reflexivity.
Qed.

(** C8. Every error [Generate] returns is a [gen.GeneratorError] that
    names the generator ([Prefix + Name]) and the document, with the text
    of the error the body failed with as its message; and [Generate]
    returns an error exactly when its body fails. *)
Theorem Generate_errors_attributed g gCtx doc opts s :
  ∀ res g' s', Generate g gCtx doc opts s = (res, g', s') →
    (∀ e, res = Some e →
       ∃ cause, Generate_body g gCtx doc opts s = (Some cause, g', s')
                ∧ e = GeneratorError (Prefix g +:+ Name g) (doc_Name doc) (Error cause))
    ∧ (res = None → Generate_body g gCtx doc opts s = (None, g', s')).
Proof.
  intros res g' s' Hg.
  destruct (Generate_body g gCtx doc opts s) as [[err g1] s1] eqn:Hb.
  rewrite (Generate_unfold _ _ _ _ _ _ _ _ Hb) in Hg.
  injection Hg as <- <- <-.
  destruct err as [cause|]; simpl; split; try done.
  intros e [= <-]. by exists cause.
Qed.

(** C4. A plugin that exits with status 0 and writes a well-formed response
    with a non-empty [error] makes [Generate] fail with the attributed
    error whose message is exactly that text; no output file is opened. *)
Theorem Generate_plugin_reported_error g gCtx doc opts s resp g' s' :
  Responds g doc opts s resp g' s' →
  resp_Error resp ≠ EmptyString →
  Generate g gCtx doc opts s =
    (Some (GeneratorError (Prefix g +:+ Name g) (doc_Name doc) (resp_Error resp)),
     g', s')
  ∧ handles s' = handles s.
Proof.
  intros Hr Hne. split.
  - pose proof (Responds_body _ gCtx _ _ _ _ _ _ Hr) as Hb.
    rewrite decide_True in Hb by done.
    by rewrite (Generate_unfold _ _ _ _ _ _ _ _ Hb).
  - destruct Hr as (b & g1 & s1 & req & out & w & _ & Hl & _ & _ & _ & _ & _ & ->).
    simpl. unfold lookOnce_Do in Hl. destruct (lookOnce g).
    + by injection Hl as <- <-.
    + destruct (exec_LookPath _ _) as [[p e] w']. by injection Hl as <- <-.
Qed.

(** *** What a call adds to the log *)

Lemma writeFiles_log gCtx files s err s' :
  writeFiles gCtx files s = (err, s') →
  ∃ l, log s' = log s ++ l ∧ Forall (λ e, isFileEvent e = true) l.
Proof.
  revert s. induction files as [|f rest IH]; intros s; simpl.
  - intros [= <- <-]. exists []. by rewrite app_nil_r.
  - destruct (Open gCtx (file_Name f) (world s)) as [[wc|ferr] w].
    + simpl. destruct (Write wc _ w) as [werr w'].
      destruct werr as [e|].
      * intros [= <- <-]. simpl. eexists [_; _]. rewrite <- app_assoc.
        split; [done|]. by repeat constructor.
      * intros Hrest. apply IH in Hrest as (l & Hl & Hall). simpl in Hl.
        exists (EvOpen (handles s) (file_Name f)
                  :: EvWrite (handles s) (bytes_of_string (file_Content f)) :: l).
        rewrite Hl, <- !app_assoc. split; [done|]. by repeat constructor.
    + intros [= <- <-]. simpl. eexists [_]. split; [done|]. by repeat constructor.
Qed.

Lemma file_events_no_lookups (l : list Event) :
  Forall (λ e, isFileEvent e = true) l → lookups l = 0 ∧ closes l = [].
Proof.
  unfold lookups, closes. induction 1 as [|e l He _ [IH1 IH2]]; [done|].
  destruct e; try done; by rewrite !filter_cons_False by (simpl; tauto).
Qed.

Lemma lookups_app (l1 l2 : list Event) : lookups (l1 ++ l2) = lookups l1 + lookups l2.
Proof. unfold lookups. by rewrite filter_app, length_app. Qed.

Lemma closes_app (l1 l2 : list Event) : closes (l1 ++ l2) = closes l1 ++ closes l2.
Proof. unfold closes. by rewrite filter_app. Qed.

Lemma lookOnce_Do_cached g s : lookOnce g = true → lookOnce_Do g s = (g, s).
Proof. unfold lookOnce_Do. by intros ->. Qed.

Lemma lookOnce_Do_first g s :
  lookOnce g = false →
  ∃ g1 s1, lookOnce_Do g s = (g1, s1)
    ∧ lookOnce g1 = true
    ∧ (path g1, lookPathErr g1) = (exec_LookPath (Prefix g +:+ Name g) (world s)).1
    ∧ gen_Cmd g1 = gen_Cmd g
    ∧ log s1 = log s ++ [EvLookPath (Prefix g +:+ Name g)]
    ∧ handles s1 = handles s.
Proof.
  unfold lookOnce_Do. intros ->.
  destruct (exec_LookPath _ _) as [[p e] w]. by eexists _, _.
Qed.

(** After [lookOnce.Do], the rest of the body resolves nothing, closes
    nothing and leaves the cache alone. *)
Lemma Generate_body_after_lookup g gCtx doc opts s b g1 s1 err g' s' :
  json_Marshal opts = Ok b →
  lookOnce_Do g s = (g1, s1) →
  Generate_body g gCtx doc opts s = (err, g', s') →
  lookOnce g' = lookOnce g1 ∧ path g' = path g1 ∧ lookPathErr g' = lookPathErr g1
  ∧ ∃ l, log s' = log s1 ++ l ∧ lookups l = 0 ∧ closes l = [].
Proof.
  intros Hj Hl. unfold Generate_body. rewrite Hj, Hl.
  assert (∃ l, log s1 = log s1 ++ l ∧ lookups l = 0 ∧ closes l = []) as Hnil
    by (exists []; by rewrite app_nil_r).
  destruct (lookPathErr g1) eqn:He; [by intros [= <- <- <-]|].
  destruct (proto_Marshal _); [|by intros [= <- <- <-]].
  destruct (cmd_Run _ _) as [[rerr out] w].
  assert (∀ c, ∃ l, log (emit (EvRun c) w s1) = log s1 ++ l
                    ∧ lookups l = 0 ∧ closes l = []) as Hrun
    by (intros c; by exists [EvRun c]).
  destruct rerr; [by intros [= <- <- <-]|].
  destruct (proto_Unmarshal out); [|by intros [= <- <- <-]].
  case_decide; [by intros [= <- <- <-]|].
  destruct (writeFiles _ _ _) as [werr s2] eqn:Hw. intros [= <- <- <-].
  repeat split; try done.
  apply writeFiles_log in Hw as (l & Hlog & Hall).
  apply file_events_no_lookups in Hall as [Hl0 Hc0].
  eexists (EvRun _ :: l). simpl in Hlog. rewrite Hlog, <- app_assoc.
  split; [done|]. split; [exact Hl0|exact Hc0].
Qed.

(** *** One call and the cache *)

Lemma Generate_unencodable g gCtx doc opts s e :
  json_Marshal opts = Err e →
  Generate g gCtx doc opts s =
    (Some (GeneratorError (Prefix g +:+ Name g) (doc_Name doc) (Error e)), g, s).
Proof.
  intros Hj. apply (Generate_unfold _ _ _ _ _ (Some e)).
  unfold Generate_body. by rewrite Hj.
Qed.

Lemma Generate_cached_failure g gCtx doc opts s b e :
  json_Marshal opts = Ok b → lookOnce g = true → lookPathErr g = Some e →
  Generate g gCtx doc opts s =
    (Some (GeneratorError (Prefix g +:+ Name g) (doc_Name doc) (Error e)), g, s).
Proof.
  intros Hj Ho He. apply (Generate_unfold _ _ _ _ _ (Some e)).
  unfold Generate_body. by rewrite Hj, (lookOnce_Do_cached _ _ Ho), He.
Qed.

Lemma Generate_cached g gCtx doc opts s err g' s' :
  lookOnce g = true →
  Generate g gCtx doc opts s = (err, g', s') →
  lookOnce g' = true ∧ path g' = path g ∧ lookPathErr g' = lookPathErr g
  ∧ lookups (log s') = lookups (log s) ∧ closes (log s') = closes (log s).
Proof.
  intros Ho Hg.
  destruct (Generate_body g gCtx doc opts s) as [[err1 g1] s1] eqn:Hb.
  rewrite (Generate_unfold _ _ _ _ _ _ _ _ Hb) in Hg. injection Hg as _ <- <-.
  destruct (json_Marshal opts) as [b|e] eqn:Hj.
  - destruct (Generate_body_after_lookup _ _ _ _ _ _ _ _ _ _ _ Hj
                (lookOnce_Do_cached _ s Ho) Hb)
      as (H1 & H2 & H3 & l & Hl & Hl0 & Hc0).
    rewrite Hl, lookups_app, closes_app, Hl0, Hc0, app_nil_r.
    repeat split; first [done | congruence | lia].
  - unfold Generate_body in Hb. rewrite Hj in Hb. by injection Hb as _ <- <-.
Qed.

Lemma Generate_first g gCtx doc opts s b err g' s' :
  lookOnce g = false → json_Marshal opts = Ok b →
  Generate g gCtx doc opts s = (err, g', s') →
  lookOnce g' = true
  ∧ (path g', lookPathErr g') = (exec_LookPath (Prefix g +:+ Name g) (world s)).1
  ∧ lookups (log s') = S (lookups (log s)) ∧ closes (log s') = closes (log s).
Proof.
  intros Ho Hj Hg.
  destruct (Generate_body g gCtx doc opts s) as [[err1 g1] s1] eqn:Hb.
  rewrite (Generate_unfold _ _ _ _ _ _ _ _ Hb) in Hg. injection Hg as _ <- <-.
  destruct (lookOnce_Do_first _ s Ho) as (g2 & s2 & Hl & Ho2 & Hres & _ & Hlog & _).
  destruct (Generate_body_after_lookup _ _ _ _ _ _ _ _ _ _ _ Hj Hl Hb)
    as (H1 & H2 & H3 & l & Hl' & Hl0 & Hc0).
  rewrite Hl', Hlog, !lookups_app, !closes_app, Hl0, Hc0, app_nil_r.
  rewrite H1, H2, H3. repeat split; try done.
  - unfold lookups at 2. simpl. lia.
  - unfold closes at 2. simpl. by rewrite app_nil_r.
Qed.

Lemma GenerateSeq_cached g calls s errs g' s' :
  lookOnce g = true →
  GenerateSeq g calls s = (errs, g', s') →
  lookOnce g' = true ∧ path g' = path g ∧ lookPathErr g' = lookPathErr g
  ∧ lookups (log s') = lookups (log s).
Proof.
  revert g s errs. induction calls as [|[[gCtx doc] opts] rest IH]; intros g s errs Ho; simpl.
  - by intros [= <- <- <-].
  - destruct (Generate g gCtx doc opts s) as [[err g1] s1] eqn:Hg.
    destruct (GenerateSeq g1 rest s1) as [[errs1 g2] s2] eqn:Hs.
    intros [= <- <- <-].
    apply Generate_cached in Hg as (Ho1 & Hp1 & He1 & Hl1 & _); [|done].
    apply IH in Hs as (Ho2 & Hp2 & He2 & Hl2); [|done].
    repeat split; congruence.
Qed.

Lemma GenerateSeq_lookups g calls s errs g' s' :
  GenerateSeq g calls s = (errs, g', s') →
  lookups (log s') ≤ lookups (log s) + (if lookOnce g then 0 else 1).
Proof.
  revert g s errs. induction calls as [|[[gCtx doc] opts] rest IH]; intros g s errs; simpl.
  - intros [= <- <- <-]. lia.
  - destruct (Generate g gCtx doc opts s) as [[err g1] s1] eqn:Hg.
    destruct (GenerateSeq g1 rest s1) as [[errs1 g2] s2] eqn:Hs.
    intros [= <- <- <-].
    destruct (lookOnce g) eqn:Ho.
    + apply Generate_cached in Hg as (Ho1 & _ & _ & Hl1 & _); [|done].
      apply GenerateSeq_cached in Hs as (_ & _ & _ & Hl2); [|done]. lia.
    + destruct (json_Marshal opts) as [b|e] eqn:Hj.
      * apply (Generate_first _ _ _ _ _ _ _ _ _ Ho Hj) in Hg as (Ho1 & _ & Hl1 & _).
        apply GenerateSeq_cached in Hs as (_ & _ & _ & Hl2); [|done]. lia.
      * rewrite (Generate_unencodable _ _ _ _ _ _ Hj) in Hg.
        injection Hg as _ <- <-. apply IH in Hs. by rewrite Ho in Hs.
Qed.

(** C7 (amended). The path is resolved at most once per executor, whatever
    the calls. A call whose options do not encode returns before the
    resolution and leaves the executor as it was; the first call whose
    options encode resolves [Prefix + Name] and caches the path or the
    failure; every call after that resolves nothing and keeps the cache,
    and when the cache holds a failure it returns that failure, attributed,
    without touching the world. *)
Theorem Generate_resolves_at_most_once g :
  (∀ calls s errs g' s', GenerateSeq g calls s = (errs, g', s') →
     lookups (log s') ≤ lookups (log s) + (if lookOnce g then 0 else 1))
  ∧ (∀ gCtx doc opts s e, json_Marshal opts = Err e →
       Generate g gCtx doc opts s =
         (Some (GeneratorError (Prefix g +:+ Name g) (doc_Name doc) (Error e)), g, s))
  ∧ (∀ gCtx doc opts s b err g' s',
       lookOnce g = false → json_Marshal opts = Ok b →
       Generate g gCtx doc opts s = (err, g', s') →
       lookOnce g' = true
       ∧ (path g', lookPathErr g') = (exec_LookPath (Prefix g +:+ Name g) (world s)).1
       ∧ lookups (log s') = S (lookups (log s)))
  ∧ (∀ calls s errs g' s',
       lookOnce g = true → GenerateSeq g calls s = (errs, g', s') →
       lookOnce g' = true ∧ path g' = path g ∧ lookPathErr g' = lookPathErr g
       ∧ lookups (log s') = lookups (log s))
  ∧ (∀ gCtx doc opts s b e,
       lookOnce g = true → lookPathErr g = Some e → json_Marshal opts = Ok b →
       Generate g gCtx doc opts s =
         (Some (GeneratorError (Prefix g +:+ Name g) (doc_Name doc) (Error e)), g, s)).
Proof.
  split; [|split; [|split; [|split]]].
  - intros *. apply GenerateSeq_lookups.
  - intros *. apply Generate_unencodable.
  - intros * Ho Hj Hg.
    destruct (Generate_first _ _ _ _ _ _ _ _ _ Ho Hj Hg) as (? & ? & ? & _). done.
  - intros *. apply GenerateSeq_cached.
  - intros * Ho He Hj. by eapply Generate_cached_failure.
Qed.

(** [Generate] closes no handle: the closes in the log are those that were
    there before the call. *)
Lemma Generate_never_closes g gCtx doc opts s err g' s' :
  Generate g gCtx doc opts s = (err, g', s') → closes (log s') = closes (log s).
Proof.
  intros Hg. destruct (lookOnce g) eqn:Ho.
  - by apply Generate_cached in Hg as (_ & _ & _ & _ & ?).
  - destruct (json_Marshal opts) as [b|e] eqn:Hj.
    + by apply (Generate_first _ _ _ _ _ _ _ _ _ Ho Hj) in Hg as (_ & _ & _ & ?).
    + rewrite (Generate_unencodable _ _ _ _ _ _ Hj) in Hg. by injection Hg as _ _ <-.
Qed.

(** A response without error whose files all open and write leaves every
    handle it obtained open. *)
Lemma writeFiles_opens gCtx files s s' :
  writeFiles gCtx files s = (None, s') →
  handles s' = handles s + length files
  ∧ length (filter isOpen (log s')) = length (filter isOpen (log s)) + length files.
Proof.
  revert s. induction files as [|f rest IH]; intros s; simpl.
  - intros [= <-]. lia.
  - destruct (Open gCtx (file_Name f) (world s)) as [[wc|ferr] w]; [|done].
    simpl. destruct (Write wc _ w) as [[e|] w']; [done|].
    intros Hrest. apply IH in Hrest as [Hh Hl]. simpl in Hh, Hl.
    rewrite Hh, Hl, !filter_app, !length_app. simpl. lia.
Qed.

(** *** The files a call opens *)

Lemma writeFiles_app gCtx pre post s :
  writeFiles gCtx (pre ++ post) s =
    match writeFiles gCtx pre s with
    | (None, s1) => writeFiles gCtx post s1
    | (Some e, s1) => (Some e, s1)
    end.
Proof.
  revert s. induction pre as [|f pre IH]; intros s; simpl.
  - done.
  - destruct (Open gCtx (file_Name f) (world s)) as [[wc|ferr] w]; [|done].
    simpl. destruct (Write wc _ w) as [[e|] w']; [done|]. apply IH.
Qed.

(** Whatever [writeFiles] is known to open, [Generate] opens no more. *)
Lemma Generate_opens (P : string → Prop) g gCtx doc opts s err g' s' :
  (∀ files s1 err1 s2, writeFiles gCtx files s1 = (err1, s2) →
     ∀ h name, EvOpen h name ∈ log s2 → EvOpen h name ∈ log s1 ∨ P name) →
  Generate g gCtx doc opts s = (err, g', s') →
  ∀ h name, EvOpen h name ∈ log s' → EvOpen h name ∈ log s ∨ P name.
Proof.
  intros HP Hg.
  destruct (Generate_body g gCtx doc opts s) as [[err1 g1] s1] eqn:Hb.
  rewrite (Generate_unfold _ _ _ _ _ _ _ _ Hb) in Hg. injection Hg as _ <- <-.
  clear err. revert Hb. unfold Generate_body.
  destruct (json_Marshal opts); [|intros [= <- <- <-]; by left].
  destruct (lookOnce_Do g s) as [g2 s2] eqn:Hl.
  assert (∀ h name, EvOpen h name ∈ log s2 → EvOpen h name ∈ log s) as Hs2.
  { intros h name. unfold lookOnce_Do in Hl. destruct (lookOnce g).
    - by injection Hl as _ <-.
    - destruct (exec_LookPath _ _) as [[p e] w]. injection Hl as _ <-. simpl.
      rewrite elem_of_app, list_elem_of_singleton. by intros [?|?]. }
  destruct (lookPathErr g2); [intros [= <- <- <-]; intros; left; eauto|].
  destruct (proto_Marshal _); [|intros [= <- <- <-]; intros; left; eauto].
  destruct (cmd_Run _ _) as [[rerr out] w].
  assert (∀ c h name, EvOpen h name ∈ log (emit (EvRun c) w s2) →
            EvOpen h name ∈ log s) as Hrun.
  { intros c h name. simpl. rewrite elem_of_app, list_elem_of_singleton.
    intros [?|?]; [eauto|done]. }
  destruct rerr; [intros [= <- <- <-]; intros; left; eauto|].
  destruct (proto_Unmarshal out); [|intros [= <- <- <-]; intros; left; eauto].
  case_decide; [intros [= <- <- <-]; intros; left; eauto|].
  destruct (writeFiles _ _ _) as [werr s3] eqn:Hw. intros [= <- <- <-] h name Hin.
  destruct (HP _ _ _ _ Hw h name Hin) as [?|?]; [left; eauto|by right].
Qed.

(** C6. What the executor does with the handles: a response without error
    whose files are all written makes [Generate] obtain one handle per file
    and return without closing any of them; no path of [Generate] closes a
    handle. *)
Theorem Generate_leaves_handles_open g gCtx doc opts s resp g1 s1 g' s' :
  Responds g doc opts s resp g1 s1 →
  resp_Error resp = EmptyString →
  Generate g gCtx doc opts s = (None, g', s') →
  handles s' = handles s1 + length (resp_File resp)
  ∧ length (filter isOpen (log s')) =
      length (filter isOpen (log s1)) + length (resp_File resp)
  ∧ closes (log s') = closes (log s).
Proof.
  intros Hr He Hg. split; [|split]; [| |by eapply Generate_never_closes].
  all: pose proof (Responds_body _ gCtx _ _ _ _ _ _ Hr) as Hb;
    rewrite decide_False in Hb by (intros Hne; by apply Hne);
    destruct (writeFiles gCtx (resp_File resp) s1) as [werr s2] eqn:Hw;
    rewrite (Generate_unfold _ _ _ _ _ _ _ _ Hb) in Hg;
    destruct werr; [done|]; injection Hg as _ <-;
    by apply writeFiles_opens in Hw as [? ?].
Qed.

End WithWorld.

(** *** The executor on the plugin of [Examples] *)

Import Examples.

(** The plugin of [Examples], when installed, answers with its [reply]. *)
Ltac demo_responds :=
  exists (bytes_of_string "{}"), docsPluginFound,
    (mkState ∅ [EvLookPath "gqlc-gen-docs"] 0), (bytes_of_string "{}"), [], ∅;
  repeat split.

Lemma Generate_errors_attributed_witness :
  let run := Generate (ET := demoText) (E := demoPlugin false oneFile)
               docsPlugin memCtx schemaDoc ∅ start in
  run.1.1 = Some (GeneratorError "gqlc-gen-docs" "schema.gql" (Error (ET := demoText) notFound))
  ∧ ∃ cause,
      Generate_body (E := demoPlugin false oneFile)
        docsPlugin memCtx schemaDoc ∅ start = (Some cause, run.1.2, run.2)
      ∧ GeneratorError "gqlc-gen-docs" "schema.gql" (Error (ET := demoText) notFound)
        = GeneratorError (Prefix docsPlugin +:+ Name docsPlugin) (doc_Name schemaDoc)
            (Error (ET := demoText) cause).
Proof.
  intros run. split; [reflexivity|].
  assert (Generate (ET := demoText) (E := demoPlugin false oneFile)
            docsPlugin memCtx schemaDoc ∅ start = (run.1.1, run.1.2, run.2)) as Hrun
    by (vm_compute; reflexivity).
  apply (proj1 (Generate_errors_attributed (ET := demoText)
                  (E := demoPlugin false oneFile)
                  docsPlugin memCtx schemaDoc ∅ start
                  run.1.1 run.1.2 run.2 Hrun)).
  reflexivity.
Defined.

Lemma Generate_plugin_reported_error_witness :
  Generate (ET := demoText) (E := demoPlugin true boom)
    docsPlugin memCtx schemaDoc ∅ start =
    (Some (GeneratorError "gqlc-gen-docs" "schema.gql" "boom"), docsPluginFound, answered)
  ∧ handles answered = 0.
Proof.
  apply (Generate_plugin_reported_error (ET := demoText) (E := demoPlugin true boom)
           docsPlugin memCtx schemaDoc ∅ start boom docsPluginFound answered).
  - demo_responds.
  - discriminate.
Defined.

Lemma Generate_resolves_at_most_once_witness :
  (let run := Generate (ET := demoText) (E := demoPlugin true oneFile)
                docsPlugin memCtx schemaDoc ∅ start in
   lookOnce run.1.2 = true
   ∧ (path run.1.2, lookPathErr run.1.2) = ("/usr/local/bin/gqlc-gen-docs"%string, None)
   ∧ lookups (log run.2) = 1)
  ∧ Generate (ET := demoText) (E := demoPlugin true oneFile)
      docsPluginMissing memCtx schemaDoc ∅ answered =
      (Some (GeneratorError "gqlc-gen-docs" "schema.gql" (Error (ET := demoText) notFound)),
       docsPluginMissing, answered).
Proof.
  split.
  - intros run.
    apply (proj1 (proj2 (proj2 (Generate_resolves_at_most_once (ET := demoText)
                                  (E := demoPlugin true oneFile) docsPlugin)))
             memCtx schemaDoc ∅ start (bytes_of_string "{}") run.1.1 run.1.2 run.2);
      reflexivity.
  - apply (proj2 (proj2 (proj2 (proj2 (Generate_resolves_at_most_once (ET := demoText)
                                  (E := demoPlugin true oneFile) docsPluginMissing))))
             memCtx schemaDoc ∅ answered (bytes_of_string "{}") notFound);
      reflexivity.
Defined.

(** C7, as stated, fails: on a first call whose options do not encode the
    executor resolves nothing and caches nothing; the resolution is made by
    the second call. *)
Lemma first_call_need_not_resolve :
  let first := Generate (ET := demoText) (E := demoPlugin true oneFile)
                 docsPlugin memCtx schemaDoc chanOpts start in
  let second := Generate (ET := demoText) (E := demoPlugin true oneFile)
                  first.1.2 memCtx schemaDoc ∅ first.2 in
  is_Some first.1.1
  ∧ lookOnce first.1.2 = false ∧ lookups (log first.2) = 0
  ∧ path first.1.2 = EmptyString ∧ lookPathErr first.1.2 = None
  ∧ lookOnce second.1.2 = true ∧ lookups (log second.2) = 1
  ∧ path second.1.2 = "/usr/local/bin/gqlc-gen-docs"%string.
Proof. vm_compute. repeat split. by eexists. Qed.

Lemma Generate_leaves_handles_open_witness :
  let run := Generate (ET := demoText) (E := demoPlugin true oneFile)
               docsPlugin memCtx schemaDoc ∅ start in
  run.1.1 = None
  ∧ log run.2 = [EvLookPath "gqlc-gen-docs"; EvRun docsCmd; EvOpen 0 "a.txt";
                 EvWrite 0 (bytes_of_string "x")]
  ∧ handles run.2 = handles answered + length (resp_File oneFile)
  ∧ length (filter isOpen (log run.2)) =
      length (filter isOpen (log answered)) + length (resp_File oneFile)
  ∧ closes (log run.2) = closes (log start).
Proof.
  intros run. split; [reflexivity|]. split; [reflexivity|].
  apply (Generate_leaves_handles_open (ET := demoText) (E := demoPlugin true oneFile)
           docsPlugin memCtx schemaDoc ∅ start oneFile docsPluginFound answered
           run.1.2 run.2).
  - demo_responds.
  - reflexivity.
  - reflexivity.
Defined.

End PluginFacts.

(** ** The JavaScript generator's output file *)

Module JsFacts.

Import Plugin Js PluginFacts.

Section WithWorld.

Context {World : Type}.

(** When the file opens, [Generate] returns, and the handle it obtained is
    closed once, as the last thing the call does, on the success path and
    on both write-error paths. *)
Lemma writeOut_closes_once (gCtx : GeneratorContext World) fileName imports buf
    (s : State World) jsFile w :
  Open gCtx fileName (world s) = (Ok jsFile, w) →
  ∃ err s' l, writeOut gCtx fileName imports buf s = (Returns err, s')
    ∧ log s' = log s ++ EvOpen (handles s) fileName :: l ++ [EvClose (handles s)]
    ∧ closes l = [] ∧ filter isOpen l = [].
Proof.
  intros Ho. unfold writeOut. rewrite Ho. simpl.
  destruct (Write jsFile imports w) as [[e|] w1]; simpl.
  - destruct (Close jsFile w1) as [c w2]. eexists _, _, [_]. simpl.
    split; [done|]. unfold emit; simpl. rewrite <- !app_assoc. done.
  - unfold Buffer_WriteTo. destruct buf as [|b buf]; simpl.
    + destruct (Close jsFile w1) as [c w2]. eexists _, _, [_]. simpl.
      split; [done|]. unfold emit; simpl. rewrite <- !app_assoc. done.
    + destruct (Write jsFile (b :: buf) w1) as [werr w2]. simpl.
      destruct (Close jsFile w2) as [c w3]. eexists _, _, [_; _]. simpl.
      split; [done|]. unfold emit; simpl. rewrite <- !app_assoc. done.
Qed.

End WithWorld.

End JsFacts.

(** ** The executor behind the output context *)

Module OutputContextFacts.

Import Plugin OutputContext PluginFacts.

Lemma unsafe_invalid name : unsafe name → validName name = false.
Proof.
  unfold validName. intros [Ha|Hc].
  - by rewrite Ha.
  - apply andb_false_intro2, not_true_is_false. rewrite forallb_forall.
    intros Hall.
    assert (∃ c, c ∈ components name ∧ isDot c = true) as (c & Hin & Hdot).
    { destruct Hc as [?|?]; eexists; (split; [eassumption|done]). }
    apply list_elem_of_In, Hall in Hin. by rewrite Hdot in Hin.
Qed.

Lemma valid_safe name : validName name = true → ¬ unsafe name.
Proof. intros Hv Hu. apply unsafe_invalid in Hu. congruence. Qed.

Example evil_relative_unsafe : validName "../evil.txt" = false.
Proof. reflexivity. Qed.

Example etc_passwd_unsafe : validName "/etc/passwd" = false.
Proof. reflexivity. Qed.

Example nested_name_valid : validName "out/types/query.js" = true.
Proof. reflexivity. Qed.

Section WithWorld.

Context {World : Type} {ET : ErrorText} {E : Env World}.

Implicit Types (inner : GeneratorContext World) (s : State World).

Lemma guarded_rejects inner name w :
  validName name = false → Open (guarded inner) name w = (Err (InvalidPath name), w).
Proof. intros Hv. simpl. by rewrite Hv. Qed.

Lemma writeFiles_guarded_opens inner files s err s' :
  writeFiles (guarded inner) files s = (err, s') →
  ∀ h name, EvOpen h name ∈ log s' → EvOpen h name ∈ log s ∨ validName name = true.
Proof.
  revert s. induction files as [|f rest IH]; intros s; simpl.
  - intros [= <- <-]. by left.
  - destruct (validName (file_Name f)) eqn:Hv.
    + destruct (Open inner (file_Name f) (world s)) as [[wc|ferr] w].
      * simpl. destruct (Write wc _ w) as [[e|] w'].
        -- intros [= <- <-] h name. simpl.
           rewrite !elem_of_app, !list_elem_of_singleton.
           intros [[?|[= -> ->]]|?]; [by left|by right|done].
        -- intros Hrest h name Hin.
           destruct (IH _ Hrest h name Hin) as [Hin'|?]; [|by right].
           simpl in Hin'. revert Hin'.
           rewrite !elem_of_app, !list_elem_of_singleton.
           intros [[?|[= -> ->]]|?]; [by left|by right|done].
      * intros [= <- <-] h name. simpl.
        rewrite elem_of_app, list_elem_of_singleton. intros [?|?]; [by left|done].
    + intros [= <- <-] h name. simpl.
      rewrite elem_of_app, list_elem_of_singleton. intros [?|?]; [by left|done].
Qed.

Lemma writeFiles_guarded_fails inner files s f :
  f ∈ files → validName (file_Name f) = false →
  ∃ e s', writeFiles (guarded inner) files s = (Some e, s').
Proof.
  intros Hin Hv. revert s. induction files as [|f' rest IH]; intros s.
  - by apply elem_of_nil in Hin.
  - simpl. destruct (validName (file_Name f')) eqn:Hv'.
    + destruct (Open inner (file_Name f') (world s)) as [[wc|ferr] w]; [|by eexists _, _].
      simpl. destruct (Write wc _ w) as [[e|] w']; [by eexists _, _|].
      apply IH. apply elem_of_cons in Hin as [->|?]; [congruence|done].
    + by eexists _, _.
Qed.

(** C5. With the output context of the spec behind the executor, no file
    is ever opened for a name that is absolute or has a [.] or [..]
    component: every file [Generate] opens has an accepted, relative name.
    A response that lists such a name makes [Generate] fail; and when the
    executor reaches the name (the files listed before it were written),
    the failure is the context's [InvalidPath] error for that name, with
    the executor's attribution, the remaining files are not written and the
    rejection leaves the world as it was. *)
Theorem unsafe_names_rejected inner g doc opts s :
  (∀ err g' s', Generate g (guarded inner) doc opts s = (err, g', s') →
     ∀ h name, EvOpen h name ∈ log s' →
       EvOpen h name ∈ log s ∨ (validName name = true ∧ ¬ unsafe name))
  ∧ (∀ resp g1 s1 f, Responds g doc opts s resp g1 s1 →
       resp_Error resp = EmptyString →
       f ∈ resp_File resp → unsafe (file_Name f) →
       ∃ e g' s', Generate g (guarded inner) doc opts s = (Some e, g', s'))
  ∧ (∀ resp g1 s1 pre f post s2, Responds g doc opts s resp g1 s1 →
       resp_Error resp = EmptyString →
       resp_File resp = pre ++ f :: post → unsafe (file_Name f) →
       writeFiles (guarded inner) pre s1 = (None, s2) →
       Generate g (guarded inner) doc opts s =
         (Some (GeneratorError (Prefix g +:+ Name g) (doc_Name doc)
                  (Error (InvalidPath (file_Name f)))),
          g1, emit (EvOpenFailed (file_Name f)) (world s2) s2)).
Proof.
  split; [|split].
  - intros err g' s' Hg h name Hin.
    eapply (Generate_opens (λ n, validName n = true ∧ ¬ unsafe n)) in Hg; [exact Hg| |exact Hin].
    intros files s1 err1 s2 Hw h' name' Hin'.
    destruct (writeFiles_guarded_opens _ _ _ _ _ Hw h' name' Hin') as [?|Hv]; [by left|].
    right. split; [done|by apply valid_safe].
  - intros resp g1 s1 f Hr He Hin Hu.
    pose proof (Responds_body _ (guarded inner) _ _ _ _ _ _ Hr) as Hb.
    rewrite decide_False in Hb by (intros Hne; by apply Hne).
    destruct (writeFiles_guarded_fails inner _ s1 _ Hin (unsafe_invalid _ Hu))
      as (e & s' & Hw).
    rewrite Hw in Hb. rewrite (Generate_unfold _ _ _ _ _ _ _ _ Hb). by eexists _, _, _.
  - intros resp g1 s1 pre f post s2 Hr He Hf Hu Hpre.
    pose proof (Responds_body _ (guarded inner) _ _ _ _ _ _ Hr) as Hb.
    rewrite decide_False in Hb by (intros Hne; by apply Hne).
    rewrite Hf, writeFiles_app, Hpre in Hb. simpl in Hb.
    rewrite (unsafe_invalid _ Hu) in Hb.
    by rewrite (Generate_unfold _ _ _ _ _ _ _ _ Hb).
Qed.

End WithWorld.

(** *** The plugin of [Examples] returning [../evil.txt] *)

Import Examples.

Lemma unsafe_names_rejected_witness :
  let run := Generate (ET := demoText) (E := demoPlugin true evilFiles)
               docsPlugin (guarded memCtx) schemaDoc ∅ start in
  run.1.1 = Some (GeneratorError "gqlc-gen-docs" "schema.gql"
                    (Error (ET := demoText) (InvalidPath "../evil.txt")))
  ∧ world run.2 !! "../evil.txt"%string = None
  ∧ world run.2 !! "ok.txt"%string = Some (bytes_of_string "fine")
  ∧ ∀ h, EvOpen h "../evil.txt" ∉ log run.2.
Proof.
  intros run.
  pose (wrote := (writeFiles (guarded memCtx) [mkFile "ok.txt" "fine"] answered).2).
  assert (run = (Some (GeneratorError "gqlc-gen-docs" "schema.gql"
                         (Error (ET := demoText) (InvalidPath "../evil.txt"))),
                 docsPluginFound,
                 emit (EvOpenFailed "../evil.txt") (world wrote) wrote)) as Hrun.
  { apply (proj2 (proj2 (unsafe_names_rejected (ET := demoText)
                           (E := demoPlugin true evilFiles)
                           memCtx docsPlugin schemaDoc ∅ start))
             evilFiles docsPluginFound answered
             [mkFile "ok.txt" "fine"] (mkFile "../evil.txt" "gotcha") [] wrote).
    - demo_responds.
    - reflexivity.
    - reflexivity.
    - right; right. vm_compute. apply list_elem_of_here.
    - vm_compute. reflexivity. }
  split; [by rewrite Hrun|]. split; [vm_compute; reflexivity|].
  split; [vm_compute; reflexivity|].
  intros h Hin.
  assert (Generate (ET := demoText) (E := demoPlugin true evilFiles)
            docsPlugin (guarded memCtx) schemaDoc ∅ start
          = (run.1.1, run.1.2, run.2)) as Hsplit
    by (vm_compute; reflexivity).
  destruct (proj1 (unsafe_names_rejected (ET := demoText)
                     (E := demoPlugin true evilFiles)
                     memCtx docsPlugin schemaDoc ∅ start)
              run.1.1 run.1.2 run.2 Hsplit h _ Hin)
    as [Hstart|[Hvalid _]].
  - by apply elem_of_nil in Hstart.
  - discriminate Hvalid.
Defined.

End OutputContextFacts.

(** ** The compile pipeline *)

Module RootFacts.

Import Root.

Section WithWorld.

Context {World DocSet OsFile CodeGenerator : Type}.
Context {E : Env World DocSet OsFile CodeGenerator}.

Implicit Types (flags : list Flag) (args : list string) (w : World).
Implicit Types (gs : list CodeGenerator) (docs : gmap string DocRef).
Implicit Types (tr : Trace CodeGenerator) (r : DocRef) (ps : ParseState DocSet).

(** *** Selecting the generators *)

Lemma visit_all acc flags :
  (foldl visit acc flags).1 = acc.1 ++ omap selected flags.
Proof.
  revert acc. induction flags as [|f flags IH]; intros [gs mode]; simpl.
  - by rewrite app_nil_r.
  - rewrite IH. unfold selected. destruct (Changed f); simpl; [|done].
    destruct (geners !! flag_Name f); simpl; [|done]. by rewrite <- app_assoc.
Qed.

Lemma selectGenerators_selected flags :
  (selectGenerators flags).1 = omap selected flags.
Proof. unfold selectGenerators. by rewrite visit_all. Qed.

(** *** Parsing *)

Lemma parseFiles_parsed mode args ps w ps' w' :
  parseFiles mode args ps w = (Next ps', w') →
  ps_docs ps' = collect (ps_docs ps) (parsed mode args (ps_dset ps) (ps_next ps) w)
  ∧ length (parsed mode args (ps_dset ps) (ps_next ps) w) = length args
  ∧ (ps_err ps = None → ps_err ps' = None).
Proof.
  revert ps w. induction args as [|filename rest IH]; intros ps w; simpl.
  - by intros [= <- <-].
  - unfold parseFile.
    destruct (filepath_Abs filename w) as [[fn|e] w1]; [|done].
    destruct (os_Open fn w1) as [[f|e] w2]; [|done].
    destruct (parser_ParseDoc _ _ _ _ _) as [[dset [doc|e]] w3]; [|done].
    intros Hrest. apply IH in Hrest as (Hdocs & Hlen & Herr). simpl in *.
    rewrite Hdocs, Hlen. repeat split; try done. intros _. by apply Herr.
Qed.

(** The loop leaves early only with the error of the call that failed. *)
Lemma parseFiles_return mode args ps w x w' :
  parseFiles mode args ps w = (Return x, w') →
  is_Some x ∧ length (parsed mode args (ps_dset ps) (ps_next ps) w) < length args.
Proof.
  revert ps w. induction args as [|filename rest IH]; intros ps w; simpl; [done|].
  unfold parseFile.
  destruct (filepath_Abs filename w) as [[fn|e] w1]; [|intros [= <- <-]; simpl; split; [eauto|lia]].
  destruct (os_Open fn w1) as [[f|e] w2]; [|intros [= <- <-]; simpl; split; [eauto|lia]].
  destruct (parser_ParseDoc _ _ _ _ _) as [[dset [doc|e]] w3];
    [|intros [= <- <-]; simpl; split; [eauto|lia]].
  intros Hrest. apply IH in Hrest as [? ?]. simpl in *. split; [done|lia].
Qed.

Lemma parsed_addr mode args dset next w i r :
  parsed mode args dset next w !! i = Some r → addr r = next + i.
Proof.
  revert dset next w i. induction args as [|filename rest IH]; intros dset next w i; simpl; [done|].
  destruct (filepath_Abs filename w) as [[fn|e] w1]; [|done].
  destruct (os_Open fn w1) as [[f|e] w2]; [|done].
  destruct (parser_ParseDoc _ _ _ _ _) as [[dset' [doc|e]] w3]; [|done].
  destruct i as [|i]; simpl.
  - intros [= <-]. simpl. lia.
  - intros Hr. apply IH in Hr. lia.
Qed.

(** *** The map keeps the last document of each name *)

Lemma collect_lookup m (l : list DocRef) k r :
  collect m l !! k = Some r →
  (∃ l1 l2, l = l1 ++ r :: l2 ∧ doc_Name (deref r) = k
            ∧ Forall (λ r', doc_Name (deref r') ≠ k) l2)
  ∨ (m !! k = Some r ∧ Forall (λ r', doc_Name (deref r') ≠ k) l).
Proof.
  revert m. induction l as [|r0 l IH]; intros m; simpl.
  - intros Hm. right. by split.
  - intros Hk. apply IH in Hk as [(l1 & l2 & -> & Hn & Hall)|[Hm Hall]].
    + left. by exists (r0 :: l1), l2.
    + destruct (decide (doc_Name (deref r0) = k)) as [Heq|Hne].
      * rewrite <- Heq, lookup_insert_eq in Hm. injection Hm as ->.
        left. by exists [], l.
      * rewrite lookup_insert_ne in Hm by done. right. split; [done|].
        by constructor.
Qed.

Lemma collect_lookup_last (l : list DocRef) k r :
  collect ∅ l !! k = Some r →
  ∃ l1 l2, l = l1 ++ r :: l2 ∧ doc_Name (deref r) = k
           ∧ Forall (λ r', doc_Name (deref r') ≠ k) l2.
Proof.
  intros Hk. apply collect_lookup in Hk as [?|[Hm _]]; [done|].
  by rewrite lookup_empty in Hm.
Qed.

Lemma collect_lookup_ne m (l : list DocRef) k :
  Forall (λ r', doc_Name (deref r') ≠ k) l → collect m l !! k = m !! k.
Proof.
  revert m. induction l as [|r0 l IH]; intros m Hall; simpl; [done|].
  apply Forall_cons in Hall as [Hne Hall].
  rewrite IH by done. by rewrite lookup_insert_ne.
Qed.

(** A document after which none of its name is parsed is the one the map
    holds under that name. *)
Lemma collect_keeps_last m (l1 l2 : list DocRef) r :
  Forall (λ r', doc_Name (deref r') ≠ doc_Name (deref r)) l2 →
  collect m (l1 ++ r :: l2) !! doc_Name (deref r) = Some r.
Proof.
  intros Hall. unfold collect. rewrite foldl_app. simpl.
  fold (collect (<[doc_Name (deref r) := r]> (foldl (λ m r, <[doc_Name (deref r) := r]> m) m l1)) l2).
  rewrite collect_lookup_ne by done. by rewrite lookup_insert_eq.
Qed.

(** *** Generation *)

(** The plan hands every document of the map to every generator. *)
Lemma elem_of_plan i (gs : list CodeGenerator) (docs : gmap string DocRef) g r :
  (g, r) ∈ plan i gs docs ↔ g ∈ gs ∧ ∃ k, docs !! k = Some r.
Proof.
  revert i. induction gs as [|g0 gs IH]; intros i; simpl.
  - split; [by intros ?%elem_of_nil|by intros [?%elem_of_nil _]].
  - rewrite elem_of_app, IH, list_elem_of_fmap, elem_of_cons. split.
    + intros [([k r0] & [= -> ->] & Hin)|[Hg Hr]].
      * rewrite map_range_perm in Hin. apply elem_of_map_to_list in Hin.
        split; [by left|by exists k].
      * split; [by right|done].
    + intros [[->|Hg] [k Hk]].
      * left. exists (k, r). split; [done|].
        rewrite map_range_perm. by apply elem_of_map_to_list.
      * right. split; [done|by exists k].
Qed.

Lemma generateDocs_trace g (ds : list (string * DocRef)) err tr w fl tr' w' :
  generateDocs g ds err tr w = (fl, tr', w') →
  match fl with
  | Next err' => tr' = tr ++ ((λ kd, (g, kd.2)) <$> ds) ∧ (err = None → err' = None)
  | Return x =>
    ∃ n e r w0, n < length ds ∧ tr' = tr ++ ((λ kd, (g, kd.2)) <$> take (S n) ds)
      ∧ x = Some e ∧ last tr' = Some (g, r) ∧ (Generate g r EmptyString w0).1 = Some e
  end.
Proof.
  revert err tr w. induction ds as [|[k doc] rest IH]; intros err tr w; simpl.
  - intros [= <- <- <-]. by rewrite app_nil_r.
  - destruct (Generate g doc EmptyString w) as [[e|] w1] eqn:Hg.
    + intros [= <- <- <-]. exists 0, e, doc, w. rewrite take_0, Hg. simpl.
      repeat split; try done; [lia|by rewrite last_snoc].
    + intros Hrest. apply IH in Hrest. destruct fl as [err'|x].
      * destruct Hrest as [-> Herr]. rewrite <- app_assoc. split; [done|].
        intros _. by apply Herr.
      * destruct Hrest as (n & e & r & w0 & Hn & -> & -> & Hlast & Hgen).
        exists (S n), e, r, w0. rewrite <- app_assoc in Hlast |- *.
        repeat split; try done. lia.
Qed.

Lemma generateAll_trace i gs docs err tr w fl tr' w' :
  generateAll i gs docs err tr w = (fl, tr', w') →
  ∃ t, tr' = tr ++ t ∧ t `prefix_of` plan i gs docs ∧
    match fl with
    | Next err' => t = plan i gs docs ∧ (err = None → err' = None)
    | Return x =>
      ∃ e g r w0, x = Some e ∧ last t = Some (g, r)
        ∧ (Generate g r EmptyString w0).1 = Some e
    end.
Proof.
  revert i err tr w. induction gs as [|g rest IH]; intros i err tr w; simpl.
  - intros [= <- <- <-]. exists []. by rewrite app_nil_r.
  - destruct (generateDocs g (map_range i docs) err tr w) as [[fl1 tr1] w1] eqn:Hd.
    apply generateDocs_trace in Hd. destruct fl1 as [err1|x].
    + destruct Hd as [-> Herr1]. intros Hrest.
      apply IH in Hrest as (t & -> & Hpre & Hfl).
      exists (((λ kd, (g, kd.2)) <$> map_range i docs) ++ t).
      rewrite <- app_assoc. split; [done|]. split; [by apply prefix_app|].
      destruct fl as [err'|y].
      * destruct Hfl as [-> Herr']. split; [done|]. intros ?. by apply Herr', Herr1.
      * destruct Hfl as (e & g' & r & w0 & -> & Hlast & Hgen).
        exists e, g', r, w0. repeat split; try done.
        destruct t as [|a t] using rev_ind; [done|].
        by rewrite app_assoc, last_snoc in *.
    + destruct Hd as (n & e & r & w0 & Hn & -> & -> & Hlast & Hgen).
      intros [= <- <- <-]. eexists. split; [done|]. split.
      * apply prefix_app_r. rewrite fmap_take. apply prefix_take.
      * exists e, g, r, w0. repeat split; try done.
        destruct (take (S n) (map_range i docs)) as [|a t] eqn:Ht using rev_ind.
        -- destruct (map_range i docs); simpl in *; [lia|done].
        -- rewrite fmap_app in Hlast |- *. simpl in *.
           by rewrite app_assoc, last_snoc in Hlast; rewrite last_snoc.
Qed.

(** *** The three ways [runRoot] ends *)

Lemma runRoot_cases flags args w err tr w' :
  runRoot flags args w = (err, tr, w') →
  let all := parsedDocs flags args w in
  let docs := docsOf flags args w in
  let gs := omap selected flags in
  (is_Some err ∧ tr = [] ∧ length all < length args)
  ∨ (length all = length args ∧ util_CheckTypes docs ≠ [] ∧ err = None ∧ tr = [])
  ∨ (length all = length args ∧ util_CheckTypes docs = []
     ∧ tr `prefix_of` plan 0 gs docs
     ∧ match err with
       | None => tr = plan 0 gs docs
       | Some e => ∃ g r w0, last tr = Some (g, r)
                     ∧ (Generate g r EmptyString w0).1 = Some e
       end).
Proof.
  unfold runRoot, docsOf, parsedDocs.
  pose proof (selectGenerators_selected flags) as Hgs.
  destruct (selectGenerators flags) as [gs mode]. simpl in Hgs. subst gs. simpl.
  destruct (parseFiles _ _ _ _) as [[ps|x] w1] eqn:Hp.
  - apply parseFiles_parsed in Hp as (Hdocs & Hlen & Herr). simpl in *.
    rewrite Hdocs. specialize (Herr eq_refl).
    case_decide as Hc.
    + intros [= <- <- <-]. right; left. repeat split; try done.
      intros Hnil. rewrite Hnil in Hc. simpl in Hc. lia.
    + assert (util_CheckTypes (collect ∅ (parsed mode args token_NewDocSet 0 w)) = [])
        as Hnil by (destruct (util_CheckTypes _); [done|simpl in Hc; lia]).
      destruct (generateAll _ _ _ _ _ _) as [[fl tr1] w2] eqn:Hg.
      apply generateAll_trace in Hg as (t & Ht & Hpre & Hfl). simpl in Ht. subst tr1.
      destruct fl as [err'|y]; intros [= <- <- <-]; right; right.
      * destruct Hfl as [-> Herr']. rewrite Herr' by done. done.
      * destruct Hfl as (e & g & r & w0 & -> & Hlast & Hgen).
        repeat split; try done. by exists g, r, w0.
  - apply parseFiles_return in Hp as [Hx Hlen]. simpl in Hlen.
    intros [= <- <- <-]. left. done.
Qed.

Lemma runRoot_trace_prefix flags args w err tr w' :
  runRoot flags args w = (err, tr, w') →
  tr `prefix_of` plan 0 (omap selected flags) (docsOf flags args w).
Proof.
  intros Hr.
  apply runRoot_cases in Hr as [(_ & -> & _)|[(_ & _ & _ & ->)|(_ & _ & Hpre & _)]];
    [apply prefix_nil..|done].
Qed.

(** *** Two runs that differ in the order of their [range]s only *)

Section TwoRuns.

Context (E' : Env World DocSet OsFile CodeGenerator) (Hsame : sameButRange E E').

Lemma selectGenerators_same flags :
  selectGenerators (E := E') flags = selectGenerators (E := E) flags.
Proof.
  assert (∀ acc f, visit (E := E') acc f = visit (E := E) acc f) as Hvisit.
  { intros [gs mode] f. unfold visit. destruct Hsame as (-> & _). done. }
  unfold selectGenerators. generalize (([] : list CodeGenerator), NoMode).
  induction flags as [|f flags IH]; intros acc; [done|].
  cbn [foldl]. rewrite Hvisit. apply IH.
Qed.

Lemma parseFiles_same mode args ps w :
  parseFiles (E := E') mode args ps w = parseFiles (E := E) mode args ps w.
Proof.
  destruct Hsame as (_ & Habs & Hopen & _ & Hparse & _).
  revert ps w. induction args as [|filename rest IH]; intros ps w; simpl; [done|].
  unfold parseFile. rewrite Habs.
  destruct (filepath_Abs (Env := E) filename w) as [[fn|e] w1]; [|done].
  rewrite Hopen. destruct (os_Open (Env := E) fn w1) as [[f|e] w2]; [|done].
  rewrite Hparse.
  destruct (parser_ParseDoc (Env := E) _ _ _ _ _) as [[dset [doc|e]] w3]; [|done].
  apply IH.
Qed.

Lemma generateDocs_same g (ds : list (string * DocRef)) err tr w :
  generateDocs (E := E') g ds err tr w = generateDocs (E := E) g ds err tr w.
Proof.
  destruct Hsame as (_ & _ & _ & _ & _ & _ & Hgen).
  revert err tr w. induction ds as [|[k doc] rest IH]; intros err tr w; simpl; [done|].
  rewrite Hgen. destruct (Generate (Env := E) g doc EmptyString w) as [[e|] w1]; [done|].
  apply IH.
Qed.

Lemma generateAll_same i gs (docs : gmap string DocRef) err tr w :
  (∀ j, j < length gs →
     map_range (Env := E') (i + j) docs = map_range (Env := E) (i + j) docs) →
  generateAll (E := E') i gs docs err tr w = generateAll (E := E) i gs docs err tr w.
Proof.
  revert i err tr w. induction gs as [|g rest IH]; intros i err tr w Hrange; simpl; [done|].
  rewrite generateDocs_same.
  pose proof (Hrange 0 ltac:(simpl; lia)) as H0. rewrite Nat.add_0_r in H0. rewrite H0.
  destruct (generateDocs (E := E) g (map_range (Env := E) i docs) err tr w)
    as [[[err1|x] tr1] w1]; [|done].
  apply IH. intros j Hj. replace (S i + j) with (i + S j) by lia.
  apply Hrange. simpl. lia.
Qed.

Lemma runRoot_same flags args w :
  (∀ i, i < length (omap (selected (E := E)) flags) →
     map_range (Env := E') i (docsOf (E := E) flags args w)
     = map_range (Env := E) i (docsOf (E := E) flags args w)) →
  runRoot (E := E') flags args w = runRoot (E := E) flags args w.
Proof.
  intros Hrange. unfold runRoot. rewrite selectGenerators_same.
  pose proof (selectGenerators_selected flags) as Hgs.
  unfold docsOf, parsedDocs in Hrange.
  destruct (selectGenerators (E := E) flags) as [gs mode]. simpl in Hgs, Hrange. subst gs.
  destruct Hsame as (_ & _ & _ & Hset & _ & Hcheck & _). rewrite Hset.
  rewrite parseFiles_same.
  destruct (parseFiles (E := E) _ _ _ _) as [[ps|x] w1] eqn:Hp; [|done].
  apply parseFiles_parsed in Hp as (Hdocs & _). simpl in Hdocs.
  rewrite Hcheck. case_decide; [done|].
  rewrite generateAll_same; [done|]. intros j Hj. rewrite Hdocs. by apply Hrange.
Qed.

End TwoRuns.

(** *** The claims on [runRoot] *)

(** C1. When every file parses and the checker reports one diagnostic or
    more, [runRoot] invokes no generator and returns through the bare
    [return] under the TODO: the named result is still nil, so the run
    reports no error. *)
Theorem runRoot_check_failure_returns_nil flags args w :
  length (parsedDocs flags args w) = length args →
  util_CheckTypes (docsOf flags args w) ≠ [] →
  ∃ w', runRoot flags args w = (None, [], w').
Proof.
  intros Hall Hdiag.
  destruct (runRoot flags args w) as [[err tr] w'] eqn:Hr.
  apply runRoot_cases in Hr as [(_ & _ & Hlt)|[(_ & _ & -> & ->)|(_ & Hnil & _)]].
  - lia.
  - by exists w'.
  - done.
Qed.

(** C2 (amended). The generators are those of the changed flags, in the
    order the flags are visited; the invocations of a run are a prefix of
    the plan in which every generator in turn gets the documents in the
    order its [range] over the map yields them, the whole plan when the
    run succeeds after a clean check; what each [range] yields is a
    permutation of the documents the map holds. A second run on the same
    flags, files, registry and libraries whose [range]s over the map
    yield, for every generator, the order they yield in this run returns
    the same error after the same invocations and leaves the same world. *)
Theorem runRoot_invocation_order flags args w err tr w' :
  runRoot flags args w = (err, tr, w') →
  let gs := omap selected flags in
  let docs := docsOf flags args w in
  (selectGenerators flags).1 = gs
  ∧ tr `prefix_of` plan 0 gs docs
  ∧ (err = None → util_CheckTypes docs = [] → tr = plan 0 gs docs)
  ∧ (∀ i, (map_range i docs).*2 ≡ₚ (map_to_list docs).*2)
  ∧ (∀ E' : Env World DocSet OsFile CodeGenerator,
       sameButRange E E' →
       (∀ i, i < length gs →
          map_range (Env := E') i docs = map_range (Env := E) i docs) →
       runRoot (E := E') flags args w = (err, tr, w')).
Proof.
  intros Hr gs docs. split; [apply selectGenerators_selected|].
  split; [|split; [|split]].
  - by eapply runRoot_trace_prefix.
  - intros -> Hnil.
    apply runRoot_cases in Hr as [([? [=]] & _)|[(_ & Hd & _)|(_ & _ & _ & Ht)]]; done.
  - intros i. apply fmap_Permutation, map_range_perm.
  - intros E' Hsame Hrange. rewrite <- Hr. by apply runRoot_same.
Qed.

(** C9. Every document handed to a generator is the last one parsed under
    its name; a document parsed before another of the same name is handed
    to no generator; and when every file parses, the only error [runRoot]
    returns is the one the generator invoked last has returned. The map the
    loop "Parse files" ends with holds, under each name, the document
    parsed last under it; and a run that succeeds after a clean check has
    handed that document to every selected generator. *)
Theorem runRoot_keeps_last_document flags args w err tr w' :
  runRoot flags args w = (err, tr, w') →
  let all := parsedDocs flags args w in
  (∀ g r, (g, r) ∈ tr →
     docsOf flags args w !! doc_Name (deref r) = Some r
     ∧ ∃ l1 l2, all = l1 ++ r :: l2
         ∧ Forall (λ r', doc_Name (deref r') ≠ doc_Name (deref r)) l2)
  ∧ (∀ i j ri rj g, all !! i = Some ri → all !! j = Some rj → i < j →
       doc_Name (deref ri) = doc_Name (deref rj) → (g, ri) ∉ tr)
  ∧ (length all = length args → ∀ e, err = Some e →
       ∃ g r w0, last tr = Some (g, r) ∧ (Generate g r EmptyString w0).1 = Some e)
  ∧ (∀ ps w1,
       parseFiles (selectGenerators flags).2 args
         (mkParseState ∅ token_NewDocSet 0 None) w = (Next ps, w1) →
       ps_docs ps = docsOf flags args w
       ∧ ∀ l1 r l2, all = l1 ++ r :: l2 →
           Forall (λ r', doc_Name (deref r') ≠ doc_Name (deref r)) l2 →
           ps_docs ps !! doc_Name (deref r) = Some r)
  ∧ (err = None → util_CheckTypes (docsOf flags args w) = [] →
       ∀ g l1 r l2, g ∈ omap selected flags → all = l1 ++ r :: l2 →
         Forall (λ r', doc_Name (deref r') ≠ doc_Name (deref r)) l2 →
         (g, r) ∈ tr).
Proof.
  intros Hr all.
  assert (∀ l1 r l2, all = l1 ++ r :: l2 →
            Forall (λ r', doc_Name (deref r') ≠ doc_Name (deref r)) l2 →
            docsOf flags args w !! doc_Name (deref r) = Some r) as Hkept.
  { intros l1 r l2 Hall Hl2. unfold docsOf. fold all. rewrite Hall.
    by apply collect_keeps_last. }
  assert (∀ g r, (g, r) ∈ tr →
     docsOf flags args w !! doc_Name (deref r) = Some r
     ∧ ∃ l1 l2, all = l1 ++ r :: l2
         ∧ Forall (λ r', doc_Name (deref r') ≠ doc_Name (deref r)) l2) as Hlast.
  { intros g r Hin.
    pose proof (runRoot_trace_prefix _ _ _ _ _ _ Hr) as Hpre.
    assert (∃ k, docsOf flags args w !! k = Some r) as [k Hk].
    { eapply elem_of_prefix in Hin; [|exact Hpre].
      clear Hpre Hr. revert Hin. generalize 0.
      induction (omap selected flags) as [|g0 gs IH]; intros i; simpl.
      - by intros ?%elem_of_nil.
      - rewrite elem_of_app. intros [Hin|Hin]; [|by eapply IH].
        apply list_elem_of_fmap in Hin as ([k r0] & [= -> ->] & Hin).
        rewrite map_range_perm in Hin. apply elem_of_map_to_list in Hin. by exists k. }
    destruct (collect_lookup_last _ _ _ Hk) as (l1 & l2 & Hall & Hname & Hl2).
    subst k. split; [done|]. by exists l1, l2. }
  split; [exact Hlast|]. split.
  - intros i j ri rj g Hi Hj Hlt Hname Hin.
    destruct (Hlast _ _ Hin) as (_ & l1 & l2 & Hall & Hl2).
    assert (i = length l1) as ->.
    { pose proof (parsed_addr _ _ _ _ _ _ _ Hi) as Hai.
      assert (all !! length l1 = Some ri) as Hl1
        by (rewrite Hall; by rewrite list_lookup_middle).
      apply parsed_addr in Hl1. lia. }
    rewrite Hall in Hj.
    rewrite lookup_app_r in Hj by lia.
    destruct (j - length l1) as [|n] eqn:Hn; [lia|]. simpl in Hj.
    apply list_elem_of_lookup_2 in Hj.
    rewrite Forall_forall in Hl2. by apply Hl2 in Hj.
  - split; [|split].
    + intros Hlen e ->.
      apply runRoot_cases in Hr as [(_ & _ & Hlt)|[(_ & _ & [=] & _)|(_ & _ & _ & Hg)]];
        [fold all in Hlt; lia|done].
    + intros ps w1 Hp. apply parseFiles_parsed in Hp as (Hdocs & _). simpl in Hdocs.
      assert (ps_docs ps = docsOf flags args w) as Heq by done.
      split; [done|]. intros l1 r l2 Hall Hl2. rewrite Heq. by eapply Hkept.
    + intros -> Hnil g l1 r l2 Hg Hall Hl2.
      apply runRoot_cases in Hr as [([? [=]] & _)|[(_ & Hd & _)|(_ & _ & _ & ->)]];
        [done|].
      apply elem_of_plan. split; [done|].
      exists (doc_Name (deref r)). by eapply Hkept.
Qed.

End WithWorld.

(** *** The pipeline of [Examples] *)

Import Examples.

Lemma runRoot_check_failure_returns_nil_witness :
  ∃ w', runRoot (E := demoRoot (λ _, false) [errorString "undefined type: Foo"])
          docFlags ["a.gql"%string] tt = (None, [], w').
Proof.
  apply (runRoot_check_failure_returns_nil
           (E := demoRoot (λ _, false) [errorString "undefined type: Foo"])
           docFlags ["a.gql"%string] tt).
  - reflexivity.
  - discriminate.
Defined.

Lemma runRoot_invocation_order_witness :
  let E := demoRoot Nat.odd [] in
  let E' := demoRoot (λ i, Nat.odd i || lateReverse 2 i) [] in
  let gs := omap (selected (E := E)) bothFlags in
  let docs := docsOf (E := E) bothFlags ["a.gql"; "b.gql"]%string tt in
  let tr := [("doc", docA 0); ("doc", docB 1); ("go", docB 1); ("go", docA 0)]%string in
  gs = ["doc"; "go"]%string
  ∧ plan (E := E) 0 gs docs = tr
  ∧ (selectGenerators (E := E) bothFlags).1 = gs
  ∧ tr `prefix_of` plan (E := E) 0 gs docs
  ∧ (@None error = None → util_CheckTypes (Env := E) docs = [] →
       tr = plan (E := E) 0 gs docs)
  ∧ (∀ i, (map_range (Env := E) i docs).*2 ≡ₚ (map_to_list docs).*2)
  ∧ map_range (Env := E') 2 docs ≠ map_range (Env := E) 2 docs
  ∧ runRoot (E := E') bothFlags ["a.gql"; "b.gql"]%string tt = (None, tr, tt).
Proof.
  intros E E' gs docs tr. split; [reflexivity|]. split; [vm_compute; reflexivity|].
  assert (runRoot (E := E) bothFlags ["a.gql"; "b.gql"]%string tt = (None, tr, tt))
    as Hrun by (vm_compute; reflexivity).
  pose proof (runRoot_invocation_order (E := E) bothFlags ["a.gql"; "b.gql"]%string tt
                None tr tt Hrun) as (Hgs & Hpre & Hall & Hperm & Htwo).
  split; [exact Hgs|]. split; [exact Hpre|]. split; [exact Hall|].
  split; [exact Hperm|]. split; [vm_compute; discriminate|].
  apply (Htwo E').
  - repeat split.
  - intros i Hi. destruct i as [|[|i]]; [reflexivity|reflexivity|].
    vm_compute in Hi. lia.
Defined.

(** C2, as stated, fails: nothing makes a [range] over the map follow the
    parse order. Where it runs backwards the second file's document is
    generated first; and two runs on the same flags and files whose
    [range]s differ invoke different sequences. Nor do the generators
    follow the order in which they were registered: the registry is a map,
    and with [go_out] defined before [doc_out] a flag set visited in the
    order of the names has [doc] invoked before [go]; on the same registry
    the order of the invocations changes with the order of the visit. *)
Lemma documents_not_in_parse_order :
  let backwards := demoRoot (λ _, true) [] in
  let forwards := demoRoot (λ _, false) [] in
  let args := ["a.gql"; "b.gql"]%string in
  parsedDocs (E := backwards) docFlags args tt = [docA 0; docB 1]
  ∧ (runRoot (E := backwards) docFlags args tt).1.2 = [("doc", docB 1); ("doc", docA 0)]%string
  ∧ (runRoot (E := backwards) docFlags args tt).1.2
      ≠ parseOrderPlan ["doc"%string] (parsedDocs (E := backwards) docFlags args tt)
  ∧ (runRoot (E := backwards) docFlags args tt).1.2
      ≠ (runRoot (E := forwards) docFlags args tt).1.2
  ∧ omap (selected (E := forwards)) definedFlags = ["go"; "doc"]%string
  ∧ byName definedFlags = bothFlags
  ∧ (runRoot (E := forwards) (byName definedFlags) ["a.gql"%string] tt).1.2
      = [("doc", docA 0); ("go", docA 0)]%string
  ∧ (runRoot (E := forwards) definedFlags ["a.gql"%string] tt).1.2
      = [("go", docA 0); ("doc", docA 0)]%string.
Proof. vm_compute. repeat split; discriminate. Qed.

Lemma runRoot_keeps_last_document_witness :
  let E := demoRoot Nat.odd [] in
  let args := ["a.gql"; "b.gql"; "./a.gql"]%string in
  let tr := [("doc", docA 2); ("doc", docB 1); ("go", docB 1); ("go", docA 2)]%string in
  parsedDocs (E := E) bothFlags args tt = [docA 0; docB 1; docA 2]
  ∧ runRoot (E := E) bothFlags args tt = (None, tr, tt)
  ∧ (∀ g, (g, docA 0) ∉ tr)
  ∧ docsOf (E := E) bothFlags args tt !! "/src/a.gql"%string = Some (docA 2)
  ∧ ("go"%string, docA 2) ∈ tr.
Proof.
  intros E args tr.
  assert (runRoot (E := E) bothFlags args tt = (None, tr, tt)) as Hrun
    by (vm_compute; reflexivity).
  pose proof (runRoot_keeps_last_document (E := E) bothFlags args tt None tr tt Hrun)
    as (Hlast & Hearlier & _ & _ & Hout).
  split; [reflexivity|]. split; [exact Hrun|]. split; [|split].
  - intros g. apply (Hearlier 0 2 (docA 0) (docA 2) g); [reflexivity..|lia|reflexivity].
  - apply (Hlast "doc"%string (docA 2)). apply list_elem_of_here.
  - apply (Hout eq_refl eq_refl "go"%string [docA 0; docB 1] (docA 2) []).
    + apply (list_elem_of_lookup_2 _ 1). reflexivity.
    + reflexivity.
    + constructor.
Defined.

End RootFacts.

(** ** The entry point *)

Module CliFacts.

Import Cli.

Section WithWorld.

Context {World Command : Type} {ET : ErrorText} {E : Env World Command}.

Implicit Types (c : Command) (args : list string) (w : World) (v : Value).

Lemma recover_non_nil v : v ≠ VNil → recover v = v.
Proof. by destruct v. Qed.

(** Without [panicnil], [recover] never yields nil while a panic unwinds. *)
Lemma recover_PanicNilError v : panicnil = false → recover v ≠ VNil.
Proof. intros Hp. destruct v; simpl; by rewrite ?Hp. Qed.

(** The error the deferred function builds from a recovered value. *)
Lemma recovered_wraps v w :
  recover v ≠ VNil →
  ∃ cause,
    recovered v w = Some (wrapPanic cause (debug_Stack w))
    ∧ match recover v with
      | VError rerr => cause = rerr
      | r => cause = errorString (fmt_GoSyntax r)
      end.
Proof.
  unfold recovered. intros Hr. destruct (recover v); try done; by eexists.
Qed.

(** C3 (amended). [Run] always returns. A return of its statements goes
    through unchanged. A panic whose recovered value is not nil becomes a
    returned error: it wraps the recovered error, or the [%#v] text of any
    other value, and its message holds that text and the stack that
    [debug.Stack] captured, which is not empty. Without [panicnil] no panic
    has a nil recovered value. A panic whose recovered value is nil is
    stopped and not reported, [Run] returns a nil error; the recovered value
    is nil exactly for [panic(nil)] under [panicnil]. *)
Theorem Run_recovers_panics c args w :
  (∃ err c' w', Run c args w = (Returns err, c', w'))
  ∧ (∀ err c' w', Run_body c args w = (Returns err, c', w') →
       Run c args w = (Returns err, c', w'))
  ∧ (∀ v c' w', Run_body c args w = (Panics v, c', w') → recover v ≠ VNil →
       ∃ e cause,
         Run c args w = (Returns (Some e), c', w')
         ∧ Unwrap e = Some cause
         ∧ match recover v with
           | VError rerr => cause = rerr
           | r => cause = errorString (fmt_GoSyntax r)
           end
         ∧ Error e = "gqlc: recovered from unexpected panic: " +:+ Error cause
                       +:+ newline +:+ newline +:+ string_of_bytes (debug_Stack w')
         ∧ debug_Stack w' ≠ [])
  ∧ (panicnil = false → ∀ v, recover v ≠ VNil)
  ∧ (∀ v c' w', Run_body c args w = (Panics v, c', w') → recover v = VNil →
       Run c args w = (Returns None, c', w'))
  ∧ (∀ v, recover v = VNil ↔ v = VNil ∧ panicnil = true).
Proof.
  unfold Run. split; [|split; [|split; [|split; [|split]]]].
  - destruct (Run_body c args w) as [[[err|v] c'] w']; simpl; by eexists _, _, _.
  - by intros err c' w' ->.
  - intros v c' w' -> Hr. simpl.
    destruct (recovered_wraps v w' Hr) as (cause & -> & Hcause).
    exists (wrapPanic cause (debug_Stack w')), cause.
    repeat split; try done. apply debug_Stack_nonempty.
  - intros Hp v. by apply recover_PanicNilError.
  - intros v c' w' -> Hr. simpl. unfold recovered. by rewrite Hr.
  - intros v. destruct v; simpl; try (split; [done|by intros [? _]]).
    destruct panicnil; split; try done. by intros [_ ?].
Qed.

(** C10. [Run] drops [args[0]] whatever it is: on a slice with a first
    element the command is executed, under the deferred recovery, on the
    elements from index 1 on; two slices that agree from index 1 on run
    alike; and a slice of one element runs the command on no argument at
    all. *)
Theorem Run_discards_first_argument c w :
  (∀ args, args ≠ [] →
     Run c args w = deferred (Execute (SetArgs c (drop 1 args)) w))
  ∧ (∀ args args', args ≠ [] → args' ≠ [] → drop 1 args = drop 1 args' →
       Run c args w = Run c args' w)
  ∧ (∀ a, Run c [a] w = deferred (Execute (SetArgs c []) w)).
Proof.
  assert (∀ args, args ≠ [] →
            Run c args w = deferred (Execute (SetArgs c (drop 1 args)) w)) as Hdrop.
  { intros [|a rest] Hne; [done|]. unfold Run, Run_body. simpl. by rewrite drop_0. }
  split; [exact Hdrop|]. split.
  - intros args args' Hne Hne' Heq. by rewrite !Hdrop, Heq.
  - intros a. by rewrite Hdrop.
Qed.

(** On the empty slice [args[1:]] panics before the command is touched, and
    the deferred function turns the runtime error into the returned error. *)
Lemma Run_no_arguments c w :
  Run c [] w =
    (Returns (Some (wrapPanic (runtimeError "slice bounds out of range [1:0]")
                      (debug_Stack w))), c, w).
Proof. done. Qed.

End WithWorld.

(** *** The command line of [Examples] *)

Import Examples.

Lemma Run_discards_first_argument_witness :
  Run (ET := demoText) (E := demoCli true) [] ["gqlc"; "schema.gql"]%string tt
    = (Returns None, ["schema.gql"%string], tt)
  ∧ Run (ET := demoText) (E := demoCli true) [] ["gqlc"; "schema.gql"]%string tt
    = Run (ET := demoText) (E := demoCli true) [] ["/usr/bin/gqlc"; "schema.gql"]%string tt
  ∧ Run (ET := demoText) (E := demoCli true) [] ["--boom"%string] tt
    = (Returns None, [], tt).
Proof.
  pose proof (Run_discards_first_argument (ET := demoText) (E := demoCli true) [] tt)
    as (Hdrop & Hsame & Hone).
  split; [|split].
  - rewrite (Hdrop ["gqlc"; "schema.gql"]%string) by discriminate. reflexivity.
  - apply Hsame; [discriminate..|reflexivity].
  - rewrite (Hone "--boom"%string). reflexivity.
Defined.

Lemma Run_recovers_panics_witness :
  (∃ e cause,
     Run (ET := demoText) (E := demoCli true) [] ["gqlc"; "--boom"]%string tt
       = (Returns (Some e), ["--boom"%string], tt)
     ∧ Unwrap e = Some cause
     ∧ cause = errorString (quote +:+ "boom" +:+ quote)
     ∧ Error (ET := demoText) e =
         "gqlc: recovered from unexpected panic: " +:+ Error (ET := demoText) cause
           +:+ newline +:+ newline +:+ string_of_bytes demoStack
     ∧ demoStack ≠ [])
  ∧ Run (ET := demoText) (E := demoCli true) [] ["gqlc"; "--nil"]%string tt
      = (Returns None, ["--nil"%string], tt).
Proof.
  split.
  - apply (proj1 (proj2 (proj2 (Run_recovers_panics (ET := demoText) (E := demoCli true)
                                  [] ["gqlc"; "--boom"]%string tt)))
             (VString "boom") ["--boom"%string] tt).
    + reflexivity.
    + discriminate.
  - apply (proj1 (proj2 (proj2 (proj2 (proj2
             (Run_recovers_panics (ET := demoText) (E := demoCli true)
                [] ["gqlc"; "--nil"]%string tt)))))
             VNil ["--nil"%string] tt).
    + reflexivity.
    + reflexivity.
Defined.

(** C3, as stated, fails: under [panicnil] a panic with a nil value is
    stopped by the deferred function, which then finds nothing to report,
    and [Run] returns a nil error. *)
Lemma nil_panic_is_swallowed :
  Run_body (E := demoCli true) [] ["gqlc"; "--nil"]%string tt
    = (Panics VNil, ["--nil"%string], tt)
  ∧ Run (ET := demoText) (E := demoCli true) [] ["gqlc"; "--nil"]%string tt
    = (Returns None, ["--nil"%string], tt).
Proof. split; reflexivity. Qed.

End CliFacts.

(** ** Strings of the standard library *)

Module StdFacts.

Import Std.

Lemma chars_app (a b : string) :
  list_ascii_of_string (a +:+ b) = list_ascii_of_string a ++ list_ascii_of_string b.
Proof. induction a as [|c a IH]; simpl; [done|]. by rewrite IH. Qed.

Lemma of_chars_app (a b : list ascii) :
  string_of_list_ascii (a ++ b) = string_of_list_ascii a +:+ string_of_list_ascii b.
Proof. induction a as [|c a IH]; simpl; [done|]. by rewrite IH. Qed.

Lemma substring_all (s : string) : String.substring 0 (String.length s) s = s.
Proof. induction s as [|c s IH]; simpl; [done|]. by rewrite IH. Qed.

(** [TrimPrefix] of a string that starts with the dot removes the dot. *)
Lemma TrimPrefix_dot (e : string) : strings_TrimPrefix (String "." e) "." = e.
Proof.
  unfold strings_TrimPrefix, strings_HasPrefix.
  assert (String.prefix "." (String "." e) = true) as -> by (by destruct e).
  change (String.length (String "." e) - String.length ".") with (String.length e - 0).
  rewrite Nat.sub_0_r. change (String.length ".") with 1. simpl.
  apply substring_all.
Qed.

Lemma TrimPrefix_empty : strings_TrimPrefix EmptyString "." = EmptyString.
Proof. done. Qed.

(** The scan passes over bytes that are neither a dot nor a separator. *)
Lemma extFrom_skip (e x acc : list ascii) :
  Forall (λ c, c ≠ "/"%char ∧ c ≠ "."%char) e →
  extFrom (e ++ x) acc = extFrom x (reverse e ++ acc).
Proof.
  intros He. revert acc. induction He as [|c e [Hs Hd] _ IH]; intros acc; simpl; [done|].
  apply Ascii.eqb_neq in Hs, Hd. rewrite Hs, Hd, IH.
  by rewrite reverse_cons, <- app_assoc.
Qed.

(** What the scan returns is empty or a suffix of the path that starts
    with a dot. *)
Lemma extFrom_suffix (r acc : list ascii) :
  extFrom r acc = []
  ∨ ∃ pre e, extFrom r acc = "."%char :: e ∧ reverse r ++ acc = pre ++ "."%char :: e.
Proof.
  revert acc. induction r as [|c r IH]; intros acc; simpl; [by left|].
  destruct (Ascii.eqb c "/") eqn:Hs; [by left|].
  destruct (Ascii.eqb c ".") eqn:Hd.
  - apply Ascii.eqb_eq in Hd as ->. right. exists (reverse r), acc.
    split; [done|]. by rewrite reverse_cons, <- app_assoc.
  - destruct (IH (c :: acc)) as [->|(pre & e & -> & Heq)]; [by left|].
    right. exists pre, e. split; [done|].
    by rewrite reverse_cons, <- app_assoc.
Qed.

(** [filepath.Ext] of a name that ends in a dot and an extension free of
    dots and separators is that dot and extension. *)
Lemma Ext_of_suffix (base ext : string) :
  Forall (λ c, c ≠ "/"%char ∧ c ≠ "."%char) (list_ascii_of_string ext) →
  filepath_Ext (base +:+ String "." ext) = String "." ext.
Proof.
  intros He. unfold filepath_Ext. rewrite chars_app. simpl.
  rewrite reverse_app, reverse_cons, <- app_assoc.
  rewrite extFrom_skip by (by apply Forall_reverse).
  simpl. rewrite reverse_involutive, app_nil_r.
  by rewrite string_of_list_ascii_of_string.
Qed.

(** [filepath.Ext] returns the empty string or a suffix of the path that
    starts with a dot. *)
Lemma Ext_suffix (path : string) :
  filepath_Ext path = EmptyString
  ∨ ∃ base e, filepath_Ext path = String "." e ∧ path = base +:+ String "." e.
Proof.
  unfold filepath_Ext.
  destruct (extFrom_suffix (reverse (list_ascii_of_string path)) [])
    as [->|(pre & e & -> & Heq)]; [by left|].
  right. exists (string_of_list_ascii pre), (string_of_list_ascii e).
  split; [done|].
  rewrite reverse_involutive, app_nil_r in Heq.
  rewrite <- (string_of_list_ascii_of_string path), Heq, of_chars_app. done.
Qed.

End StdFacts.

(** ** The root command *)

Module RootCmdFacts.

Import Std Root RootCmd StdFacts.

(** The test of the loop, on one name. *)
Lemma extension_accepted (fileName : string) :
  let ext := strings_TrimPrefix (filepath_Ext fileName) "." in
  negb (String.eqb ext "gql") && negb (String.eqb ext "graphql") = false
  ↔ schemaName fileName.
Proof.
  simpl. rewrite andb_false_iff, !negb_false_iff, !String.eqb_eq. split.
  - intros Hext. destruct (Ext_suffix fileName) as [He|(base & e & He & ->)].
    + rewrite He in Hext. by destruct Hext.
    + rewrite He, TrimPrefix_dot in Hext.
      destruct Hext as [->| ->]; [left|right]; by exists base.
  - intros [[base ->]|[base ->]].
    + left. rewrite (Ext_of_suffix base "gql"), TrimPrefix_dot; [done|].
      repeat constructor; done.
    + right. rewrite (Ext_of_suffix base "graphql"), TrimPrefix_dot; [done|].
      repeat constructor; done.
Qed.

(** X1. The pre-run check lets a run through exactly when the command is
    [help] or every file name ends in [.gql] or [.graphql]. *)
Theorem PersistentPreRunE_accepts (cmdName : string) (args : list string) :
  PersistentPreRunE cmdName args = None
  ↔ cmdName = "help"%string ∨ Forall schemaName args.
Proof.
  unfold PersistentPreRunE.
  assert (validateFileNames args = None ↔ Forall schemaName args) as Hval.
  { induction args as [|f rest IH]; simpl; [by split|].
    pose proof (extension_accepted f) as Hf. simpl in Hf.
    destruct (negb _ && negb _).
    - split; [done|]. intros [Hs _]%Forall_cons. apply Hf in Hs. done.
    - rewrite IH, Forall_cons. split; [|tauto]. intros ?. split; [by apply Hf|done]. }
  destruct (String.eqb cmdName "help") eqn:Hh.
  - apply String.eqb_eq in Hh. split; [by left|done].
  - apply String.eqb_neq in Hh. rewrite Hval. split; [by right|by intros [?|?]].
Qed.

(** X2. The error of the pre-run check names the first file, in argument
    order, whose name does not end in [.gql] or [.graphql]; the names after
    it are not looked at. *)
Theorem PersistentPreRunE_first_offender (cmdName : string) (args : list string) e :
  PersistentPreRunE cmdName args = Some e →
  cmdName ≠ "help"%string
  ∧ ∃ pre f post, args = pre ++ f :: post
      ∧ Forall schemaName pre ∧ ¬ schemaName f
      ∧ e = errorString ("invalid file extension: " +:+ f).
Proof.
  unfold PersistentPreRunE. destruct (String.eqb cmdName "help") eqn:Hh; [done|].
  apply String.eqb_neq in Hh. intros Hv. split; [done|].
  induction args as [|f rest IH]; simpl in Hv; [done|].
  pose proof (extension_accepted f) as Hf. simpl in Hf.
  destruct (negb _ && negb _).
  - injection Hv as <-. exists [], f, rest. repeat split; [done|].
    intros Hs. apply Hf in Hs. done.
  - destruct (IH Hv) as (pre & f' & post & -> & Hpre & Hbad & ->).
    exists (f :: pre), f', post. repeat split; [|done].
    constructor; [by apply Hf|done].
Qed.

Lemma tmpl_in_filter (set : list Flag) key :
  tmpl_in set key = filter (λ f, strings_Contains (flag_Name f) key = true) set.
Proof.
  unfold tmpl_in. induction set as [|f set IH] using rev_ind; [done|].
  rewrite foldl_snoc, filter_app, IH.
  destruct (strings_Contains (flag_Name f) key) eqn:Hc.
  - by rewrite (filter_cons_True _ f []) by done.
  - rewrite (filter_cons_False _ f []) by (by rewrite Hc).
    by rewrite filter_nil, app_nil_r.
Qed.

Lemma tmpl_ex_filter (set : list Flag) key :
  tmpl_ex set key = filter (λ f, ¬ strings_Contains (flag_Name f) key = true) set.
Proof.
  unfold tmpl_ex. induction set as [|f set IH] using rev_ind; [done|].
  rewrite foldl_snoc, filter_app, IH.
  destruct (strings_Contains (flag_Name f) key) eqn:Hc; simpl.
  - rewrite (filter_cons_False _ f []) by (rewrite Hc; by intros []).
    by rewrite filter_nil, app_nil_r.
  - by rewrite (filter_cons_True _ f []) by (by rewrite Hc).
Qed.

(** X3. The two flag groups of the usage text split the flags: each flag
    is in exactly one of [in set key] and [ex set key], each group keeps
    the order of the set, and together they hold the flags of the set. *)
Theorem usage_groups_partition (set : list Flag) (key : string) :
  tmpl_in set key ++ tmpl_ex set key ≡ₚ set
  ∧ tmpl_in set key `sublist_of` set
  ∧ tmpl_ex set key `sublist_of` set
  ∧ (∀ f, f ∈ tmpl_in set key → f ∉ tmpl_ex set key).
Proof.
  rewrite tmpl_in_filter, tmpl_ex_filter. split; [|split; [|split]].
  - apply filter_app_complement.
  - apply sublist_filter.
  - apply sublist_filter.
  - intros f [Hin _]%list_elem_of_filter [Hex _]%list_elem_of_filter. done.
Qed.

End RootCmdFacts.

(** ** The plugin executor: subprocesses and files *)

Module ExecutorFacts.

Import Plugin PluginRuns PluginFacts.

Section WithWorld.

Context {World : Type} {ET : ErrorText} {E : Env World}.

Implicit Types (g : Generator) (s : State World) (doc : Document).
Implicit Types (gCtx : GeneratorContext World) (opts : gmap string Value).

Lemma fileEvents_cons h0 f files :
  fileEvents h0 (f :: files) =
    EvOpen h0 (file_Name f) :: EvWrite h0 (bytes_of_string (file_Content f))
      :: fileEvents (S h0) files.
Proof.
  unfold fileEvents. simpl. rewrite Nat.add_0_r. do 3 f_equal.
  apply imap_ext. intros i x _. simpl. by rewrite Nat.add_succ_r.
Qed.

Lemma writeFiles_in_order gCtx files s s' :
  writeFiles gCtx files s = (None, s') →
  log s' = log s ++ fileEvents (handles s) files.
Proof.
  revert s. induction files as [|f rest IH]; intros s; simpl.
  - intros [= <-]. by rewrite app_nil_r.
  - destruct (Open gCtx (file_Name f) (world s)) as [[wc|ferr] w]; [|done].
    simpl. destruct (Write wc _ w) as [[e|] w']; [done|].
    intros Hrest. apply IH in Hrest. simpl in Hrest.
    rewrite Hrest, fileEvents_cons, <- !app_assoc. done.
Qed.

(** X7. The files of a response are written in the order the plugin returned
    them: after a successful call the log holds, for each file in turn, the
    open of its name and the write of its content on the handle just
    obtained, and nothing else after the subprocess. *)
Theorem Generate_writes_in_order g gCtx doc opts s resp g1 s1 g' s' :
  Responds g doc opts s resp g1 s1 →
  resp_Error resp = EmptyString →
  Generate g gCtx doc opts s = (None, g', s') →
  g' = g1 ∧ log s' = log s1 ++ fileEvents (handles s1) (resp_File resp).
Proof.
  intros Hr He Hg.
  pose proof (Responds_body _ gCtx _ _ _ _ _ _ Hr) as Hb.
  rewrite decide_False in Hb by (intros Hne; by apply Hne).
  destruct (writeFiles gCtx (resp_File resp) s1) as [werr s2] eqn:Hw.
  rewrite (Generate_unfold _ _ _ _ _ _ _ _ Hb) in Hg.
  destruct werr; [done|]. injection Hg as <- <-.
  split; [done|]. by apply (writeFiles_in_order gCtx).
Qed.

(** X8. A file that cannot be opened or written ends the call: the error is
    returned with the executor's attribution and, whatever files follow in
    the response, none of them is opened. *)
Theorem Generate_stops_at_failed_file g gCtx doc opts s resp g1 s1 pre post e s2 :
  Responds g doc opts s resp g1 s1 →
  resp_Error resp = EmptyString →
  resp_File resp = pre ++ post →
  writeFiles gCtx pre s1 = (Some e, s2) →
  Generate g gCtx doc opts s =
    (Some (GeneratorError (Prefix g +:+ Name g) (doc_Name doc) (Error e)), g1, s2).
Proof.
  intros Hr He Hf Hpre.
  pose proof (Responds_body _ gCtx _ _ _ _ _ _ Hr) as Hb.
  rewrite decide_False in Hb by (intros Hne; by apply Hne).
  rewrite Hf, writeFiles_app, Hpre in Hb.
  by rewrite (Generate_unfold _ _ _ _ _ _ _ _ Hb).
Qed.

(** X9. When the subprocess fails ([Run] returns an error, as it does on a
    non-zero exit status), the call returns that error with the executor's
    attribution; what the plugin wrote is not decoded, no file is opened and
    [g.Cmd] is nil afterwards. *)
Theorem Generate_subprocess_failure g gCtx doc opts s b g1 s1 req e out w :
  json_Marshal opts = Ok b →
  lookOnce_Do g s = (g1, s1) →
  lookPathErr g1 = None →
  proto_Marshal (mkRequest [doc_Name doc] (string_of_bytes b) [doc]) = Ok req →
  cmd_Run (command g1 req) (world s1) = ((Some e, out), w) →
  ∃ g' s',
    Generate g gCtx doc opts s =
      (Some (GeneratorError (Prefix g +:+ Name g) (doc_Name doc) (Error e)), g', s')
    ∧ gen_Cmd g' = None
    ∧ log s' = log s1 ++ [EvRun (command g1 req)]
    ∧ handles s' = handles s.
Proof.
  intros Hj Hl Hp Hm Hr.
  assert (Generate_body g gCtx doc opts s =
            (Some e, setCmd g1 None, emit (EvRun (command g1 req)) w s1)) as Hb.
  { unfold Generate_body. rewrite Hj, Hl, Hp, Hm. fold (command g1 req). by rewrite Hr. }
  exists (setCmd g1 None), (emit (EvRun (command g1 req)) w s1).
  rewrite (Generate_unfold _ _ _ _ _ _ _ _ Hb). repeat split.
  simpl. unfold lookOnce_Do in Hl. destruct (lookOnce g).
  - by injection Hl as _ <-.
  - destruct (exec_LookPath _ _) as [[p e'] w']. by injection Hl as _ <-.
Qed.

Lemma runs_app (l1 l2 : list Event) : runs (l1 ++ l2) = runs l1 + runs l2.
Proof. unfold runs. by rewrite filter_app, length_app. Qed.

Lemma file_events_no_runs (l : list Event) :
  Forall (λ e, isFileEvent e = true) l → runs l = 0.
Proof.
  unfold runs. induction 1 as [|e l He _ IH]; [done|].
  destruct e; try done; by rewrite filter_cons_False by (simpl; tauto).
Qed.

Lemma lookOnce_Do_runs g s g1 s1 :
  lookOnce_Do g s = (g1, s1) →
  runs (log s1) = runs (log s) ∧ gen_Cmd g1 = gen_Cmd g
  ∧ (lookOnce g = true → g1 = g).
Proof.
  unfold lookOnce_Do. destruct (lookOnce g).
  - by intros [= <- <-].
  - destruct (exec_LookPath _ _) as [[p e] w]. intros [= <- <-]. simpl.
    rewrite runs_app. unfold runs at 2. simpl. repeat split; [lia|done].
Qed.

(** X10. A call starts at most one subprocess, and when it starts one it
    leaves [g.Cmd] nil, so that a command preset by the caller is run by
    one call only; a call that starts none leaves [g.Cmd] as it was. No
    subprocess is started when the options do not encode or when the
    resolution of the plugin has failed, in this call or an earlier one. *)
Theorem Generate_runs_once g gCtx doc opts s err g' s' :
  Generate g gCtx doc opts s = (err, g', s') →
  ((runs (log s') = S (runs (log s)) ∧ gen_Cmd g' = None)
   ∨ (runs (log s') = runs (log s) ∧ gen_Cmd g' = gen_Cmd g))
  ∧ (is_Some (lookPathErr g') → runs (log s') = runs (log s))
  ∧ (∀ e, json_Marshal opts = Err e → runs (log s') = runs (log s)).
Proof.
  intros Hg.
  destruct (Generate_body g gCtx doc opts s) as [[err1 g2] s2] eqn:Hb.
  rewrite (Generate_unfold _ _ _ _ _ _ _ _ Hb) in Hg. injection Hg as _ <- <-.
  clear err. revert Hb. unfold Generate_body.
  destruct (json_Marshal opts) as [b|e0]; [|intros [= <- <- <-]; by eauto].
  destruct (lookOnce_Do g s) as [g1 s1] eqn:Hl.
  apply lookOnce_Do_runs in Hl as (Hr1 & Hc1 & _).
  destruct (lookPathErr g1) eqn:He1; [intros [= <- <- <-]; by eauto|].
  destruct (proto_Marshal _); [|intros [= <- <- <-]; rewrite He1; split; [by eauto|]; split; [by intros []|done]].
  destruct (cmd_Run _ _) as [[rerr out] w].
  assert (∀ c, runs (log (emit (EvRun c) w s1)) = S (runs (log s))) as Hrun.
  { intros c. simpl. rewrite runs_app, Hr1. unfold runs at 2. simpl. lia. }
  assert (∀ s3 g3, runs (log s3) = S (runs (log s)) → gen_Cmd g3 = None →
            lookPathErr g3 = None →
            ((runs (log s3) = S (runs (log s)) ∧ gen_Cmd g3 = None)
             ∨ (runs (log s3) = runs (log s) ∧ gen_Cmd g3 = gen_Cmd g))
            ∧ (is_Some (lookPathErr g3) → runs (log s3) = runs (log s))
            ∧ (∀ e, @Ok bytes b = Err e → runs (log s3) = runs (log s))) as Hdone.
  { intros s3 g3 H1 H2 H3. split; [by left|]. rewrite H3. split; [by intros []|done]. }
  destruct rerr; [intros [= <- <- <-]; by apply Hdone|].
  destruct (proto_Unmarshal out); [|intros [= <- <- <-]; by apply Hdone].
  case_decide; [intros [= <- <- <-]; by apply Hdone|].
  destruct (writeFiles _ _ _) as [werr s3] eqn:Hw. intros [= <- <- <-].
  apply Hdone; [|done..].
  apply writeFiles_log in Hw as (l & Hlog & Hall).
  rewrite Hlog, runs_app, (file_events_no_runs _ Hall), Hrun. lia.
Qed.

End WithWorld.

End ExecutorFacts.

(** ** The compile pipeline: parsing, mode and the number of invocations *)

Module PipelineFacts.

Import Root RootFacts.

Section WithWorld.

Context {World DocSet OsFile CodeGenerator : Type}.
Context {E : Env World DocSet OsFile CodeGenerator}.

Implicit Types (flags : list Flag) (args : list string) (w : World).
Implicit Types (gs : list CodeGenerator) (docs : gmap string DocRef).
Implicit Types (ps : ParseState DocSet).

Lemma parseFiles_app mode pre post ps w :
  parseFiles mode (pre ++ post) ps w =
    match parseFiles mode pre ps w with
    | (Next ps1, w1) => parseFiles mode post ps1 w1
    | (Return e, w1) => (Return e, w1)
    end.
Proof.
  revert ps w. induction pre as [|f pre IH]; intros ps w; simpl; [done|].
  destruct (parseFile mode f ps w) as [[ps1|e] w1]; [apply IH|done].
Qed.

(** X4. Parsing stops at the first file that cannot be made absolute, opened
    or parsed: [runRoot] returns the error of that call, the files after it
    are not touched, the documents are not checked and no generator is
    invoked. *)
Theorem runRoot_stops_at_first_bad_file flags pre f post w ps1 w1 e w2 :
  parseFiles (selectGenerators flags).2 pre
    (mkParseState ∅ token_NewDocSet 0 None) w = (Next ps1, w1) →
  parseFile (selectGenerators flags).2 f ps1 w1 = (Return e, w2) →
  runRoot flags (pre ++ f :: post) w = (e, [], w2) ∧ is_Some e.
Proof.
  intros Hpre Hf. unfold runRoot.
  destruct (selectGenerators flags) as [gs mode]. simpl in *.
  rewrite parseFiles_app, Hpre. simpl. rewrite Hf. split; [done|].
  revert Hf. unfold parseFile.
  destruct (filepath_Abs f w1) as [[fn|e1] w3]; [|intros [= <- <-]; by eexists].
  destruct (os_Open fn w3) as [[file|e1] w4]; [|intros [= <- <-]; by eexists].
  destruct (parser_ParseDoc _ _ _ _ _) as [[dset [doc|e1]] w5]; [done|].
  intros [= <- <-]; by eexists.
Qed.

Lemma visit_mode acc flags :
  (foldl visit acc flags).2 = ParseComments
  ↔ acc.2 = ParseComments
    ∨ ∃ f, f ∈ flags ∧ Changed f = true ∧ flag_Name f = "doc_out"%string
           ∧ is_Some (geners !! flag_Name f).
Proof.
  revert acc. induction flags as [|f flags IH]; intros [gs mode]; simpl.
  - split; [by left|]. intros [?|(f & Hin & _)]; [done|]. by apply elem_of_nil in Hin.
  - rewrite IH. clear IH. destruct (Changed f) eqn:Hc; simpl.
    + destruct (geners !! flag_Name f) as [gen|] eqn:Hg; simpl.
      * case_decide as Hn; simpl.
        -- split; [|by left]. intros _. right. exists f.
           rewrite Hg. repeat split; [apply list_elem_of_here|done..|by eexists].
        -- split.
           ++ intros [?|(f' & Hin & ?)]; [by left|]. right. exists f'.
              split; [by apply list_elem_of_further|done].
           ++ intros [?|(f' & Hin & Hc' & Hn' & Hs)]; [by left|].
              apply elem_of_cons in Hin as [->|Hin]; [done|].
              right. by exists f'.
      * split.
        -- intros [?|(f' & Hin & ?)]; [by left|]. right. exists f'.
           split; [by apply list_elem_of_further|done].
        -- intros [?|(f' & Hin & Hc' & Hn' & Hs)]; [by left|].
           apply elem_of_cons in Hin as [->|Hin].
           ++ rewrite Hg in Hs. by destruct Hs.
           ++ right. by exists f'.
    + split.
      * intros [?|(f' & Hin & ?)]; [by left|]. right. exists f'.
        split; [by apply list_elem_of_further|done].
      * intros [?|(f' & Hin & Hc' & Hn' & Hs)]; [by left|].
        apply elem_of_cons in Hin as [->|Hin]; [congruence|].
        right. by exists f'.
Qed.

(** X5. The files are parsed with [parser.ParseComments] exactly when the
    flag [doc_out] was given on the command line and a generator is
    registered for it; in every other run the mode is zero. *)
Theorem selectGenerators_mode flags :
  ((selectGenerators flags).2 = ParseComments
   ↔ ∃ f, f ∈ flags ∧ Changed f = true ∧ flag_Name f = "doc_out"%string
          ∧ is_Some (geners !! flag_Name f))
  ∧ ((selectGenerators flags).2 = ParseComments ∨ (selectGenerators flags).2 = NoMode).
Proof.
  split.
  - unfold selectGenerators. rewrite visit_mode. simpl. split; [|by right].
    by intros [?|?].
  - destruct (selectGenerators flags).2; [by right|by left].
Qed.

Lemma plan_length i gs docs : length (plan i gs docs) = length gs * size docs.
Proof.
  revert i. induction gs as [|g gs IH]; intros i; simpl; [done|].
  rewrite length_app, length_fmap, IH, map_range_perm, length_map_to_list. done.
Qed.

Lemma collect_dom (m : gmap string DocRef) (l : list DocRef) :
  dom (collect m l) = dom m ∪ list_to_set ((λ r, doc_Name (deref r)) <$> l).
Proof.
  revert m. induction l as [|r l IH]; intros m; simpl.
  - by rewrite (right_id_L ∅ (∪)).
  - rewrite IH, dom_insert_L.
    by rewrite (comm_L (∪) {[doc_Name (deref r)]} (dom m)), (assoc_L (∪)).
Qed.

Lemma size_names (l : list string) : size (list_to_set l : gset string) ≤ length l.
Proof.
  induction l as [|x l IH].
  - by rewrite list_to_set_nil, size_empty.
  - rewrite list_to_set_cons, size_union_alt, size_singleton. simpl.
    pose proof (subseteq_size (list_to_set l ∖ {[x]}) (list_to_set l : gset string)
                  (subseteq_difference_l _ _ _ (reflexivity _))). lia.
Qed.

(** X6. A run that checks clean and succeeds invokes every selected
    generator once for each distinct document name among the files parsed:
    the number of invocations is the number of selected generators times
    the number of names. *)
Theorem runRoot_invocation_count flags args w tr w' :
  runRoot flags args w = (None, tr, w') →
  util_CheckTypes (docsOf flags args w) = [] →
  length tr = length (omap selected flags) * size (docsOf flags args w)
  ∧ dom (docsOf flags args w)
    = list_to_set ((λ r, doc_Name (deref r)) <$> parsedDocs flags args w)
  ∧ size (docsOf flags args w) ≤ length args.
Proof.
  intros Hr Hnil.
  assert (dom (docsOf flags args w)
    = list_to_set ((λ r, doc_Name (deref r)) <$> parsedDocs flags args w)) as Hdom.
  { unfold docsOf. by rewrite collect_dom, dom_empty_L, (left_id_L ∅ (∪)). }
  apply runRoot_cases in Hr as [([? [=]] & _)|[(_ & Hd & _)|(Hlen & _ & _ & ->)]]; [done|].
  split; [apply plan_length|]. split; [done|].
  rewrite <- size_dom, Hdom, <- Hlen.
  etrans; [apply size_names|]. by rewrite length_fmap.
Qed.

End WithWorld.

End PipelineFacts.

(** ** The import mask of the JavaScript generator *)

Module JsMaskFacts.

Import Std JsGen JsPrint JsObs.

#[local] Instance byte_eq_dec : EqDecision Byte.byte := Byte.byte_eq_dec.

(** The bits of the table lie in the 16 bits of the mask, and no two
    entries share a bit or a name. *)
Lemma bits_in_mask : Forall (λ p, Z.land (Z.lxor p.1 65535) p.1 = 0%Z) bits.
Proof. repeat (constructor; [reflexivity|]). constructor. Qed.

Lemma bits_apart :
  Forall (λ p, Forall (λ q, p = q ∨ Z.land (Z.lxor p.1 65535) q.1 = q.1) bits) bits.
Proof.
  repeat (constructor;
          [repeat (constructor; [first [by left | by right]|]); constructor|]).
  constructor.
Qed.

Lemma bits_names :
  Forall (λ p, Forall (λ q, p.2 = q.2 → p = q) bits) bits.
Proof.
  repeat (constructor;
          [repeat (constructor;
                   [intros Heq; first [reflexivity | (vm_compute in Heq; discriminate Heq)]|]);
           constructor|]).
  constructor.
Qed.

Lemma bits_nonzero : Forall (λ p, p.1 ≠ 0%Z) bits.
Proof. repeat (constructor; [discriminate|]). constructor. Qed.

Lemma andNot_own (m : Z) p : p ∈ bits → Z.land (andNot m p.1) p.1 = 0%Z.
Proof.
  intros Hp. unfold andNot. rewrite <- Z.land_assoc.
  pose proof bits_in_mask as Hall. rewrite Forall_forall in Hall.
  rewrite (Hall _ Hp). apply Z.land_0_r.
Qed.

Lemma andNot_other (m : Z) p q :
  p ∈ bits → q ∈ bits → p ≠ q → Z.land (andNot m p.1) q.1 = Z.land m q.1.
Proof.
  intros Hp Hq Hne. unfold andNot. rewrite <- Z.land_assoc.
  pose proof bits_apart as Hall. rewrite Forall_forall in Hall.
  specialize (Hall _ Hp). rewrite Forall_forall in Hall.
  destruct (Hall _ Hq) as [?|Heq]; [done|]. by rewrite Heq.
Qed.

(** Clearing the bits of table entries, one after the other. *)
Lemma clear_entries (m : Z) (used : list (Z * bytes)) q :
  Forall (λ p, p ∈ bits) used → q ∈ bits →
  Z.land (foldl andNot m used.*1) q.1 = 0%Z ↔ Z.land m q.1 = 0%Z ∨ q ∈ used.
Proof.
  intros Hused Hq. revert m. induction Hused as [|p used Hp _ IH]; intros m; simpl.
  - split; [by left|]. intros [?|Hin]; [done|]. by apply elem_of_nil in Hin.
  - rewrite IH, elem_of_cons. destruct (decide (q = p)) as [->|Hne].
    + rewrite andNot_own by done. split; [by right; left|by left].
    + rewrite andNot_other by done. split; [intros [?|?]|intros [?|[?|?]]]; tauto.
Qed.

Lemma setImports_filter (o : Options) (mask : Z) :
  setImports o mask =
    mkOptions (opt_Module o) (UseFlow o) (Descriptions o)
      (imports o ++ (filter (λ p, Z.land mask p.1 = 0%Z) bits).*2) (declStr o).
Proof.
  unfold setImports. generalize bits. intros tbl. revert o.
  induction tbl as [|p tbl IH]; intros o; simpl.
  - rewrite app_nil_r. by destruct o.
  - rewrite IH. destruct (Z.eqb_spec (Z.land mask p.1) 0) as [Hz|Hnz].
    + rewrite filter_cons_True by done. simpl. by rewrite <- app_assoc.
    + by rewrite filter_cons_False by done.
Qed.

Lemma setImports_member (o : Options) (mask : Z) p :
  p ∈ bits →
  p.2 ∈ imports (setImports o mask) ↔ p.2 ∈ imports o ∨ Z.land mask p.1 = 0%Z.
Proof.
  intros Hp. rewrite setImports_filter. cbn [imports].
  rewrite elem_of_app, list_elem_of_fmap. split.
  - intros [?|(q & Heq & Hq)]; [by left|]. right.
    apply list_elem_of_filter in Hq as [Hz Hq].
    pose proof bits_names as Hall. rewrite Forall_forall in Hall.
    specialize (Hall _ Hp). rewrite Forall_forall in Hall.
    by rewrite (Hall _ Hq Heq).
  - intros [?|Hz]; [by left|]. right. exists p. split; [done|].
    by apply list_elem_of_filter.
Qed.

(** X11. [setImports] appends, in the order of the table, the names whose bit
    is clear in the mask and no other: a name of the table is among the
    imports afterwards exactly when it was there before or its bit is
    clear. With every bit set, as the mask of [Generate] starts, nothing is
    appended. The other options are not touched. *)
Theorem setImports_imports (o : Options) (mask : Z) :
  (∀ p, p ∈ bits →
     p.2 ∈ imports (setImports o mask) ↔ p.2 ∈ imports o ∨ Z.land mask p.1 = 0%Z)
  ∧ (∃ added, imports (setImports o mask) = imports o ++ added
              ∧ added `sublist_of` bits.*2)
  ∧ setImports o fullMask = o
  ∧ (opt_Module (setImports o mask), UseFlow (setImports o mask),
     Descriptions (setImports o mask), declStr (setImports o mask))
    = (opt_Module o, UseFlow o, Descriptions o, declStr o).
Proof.
  rewrite setImports_filter. cbn [imports opt_Module UseFlow Descriptions declStr].
  split; [|split; [|split]].
  - intros p Hp. pose proof (setImports_member o mask p Hp) as Hm.
    by rewrite setImports_filter in Hm.
  - eexists. split; [done|]. apply (fmap_sublist snd), sublist_filter.
  - rewrite setImports_filter.
    assert (filter (λ p, Z.land fullMask p.1 = 0%Z) bits = []) as -> by reflexivity.
    destruct o as [m u d i ds]. simpl. by rewrite app_nil_r.
  - done.
Qed.

End JsMaskFacts.

(** ** Printing types *)

Module JsTypeFacts.

Import Std JsGen JsPrint JsObs JsMaskFacts.

Implicit Types (typ : FieldType) (g : Gen) (m : Z).

Lemma Write_prefix p g : Buffer g `prefix_of` Buffer (Write p g).
Proof. by exists p. Qed.

Lemma printType_unset fuel m typ g :
  allSet typ = false → printType fuel m typ g = None.
Proof.
  revert m typ g. induction fuel as [|fuel IH]; intros m typ g Hs; [done|].
  destruct typ as [| name | v | v]; simpl in *; try done.
  - destruct v; simpl in Hs; try done; by rewrite IH.
  - destruct v; simpl in Hs; try done; by rewrite IH.
Qed.

Lemma printType_ident fuel m name g m' g' :
  printType (S fuel) m (TIdent name) g = Some (m', g') →
  m' = foldl andNot m (option_list (scalarEntry name)).*1
  ∧ indent g' = indent g ∧ Buffer g `prefix_of` Buffer g'.
Proof.
  simpl. unfold scalarEntry.
  repeat (destruct (String.eqb name _);
          [intros [= <- <-]; repeat split; apply Write_prefix|]).
  intros [= <- <-]; repeat split; apply Write_prefix.
Qed.

Lemma printType_result fuel m typ g m' g' :
  printType fuel m typ g = Some (m', g') →
  m' = foldl andNot m (uses typ).*1
  ∧ indent g' = indent g ∧ Buffer g `prefix_of` Buffer g'.
Proof.
  revert m typ g m' g'. induction fuel as [|fuel IH]; intros m typ g m' g'; [done|].
  assert (∀ (inner : FieldType) (outer : Z * bytes) s c m1 g1,
            printType fuel m inner (WriteString s g) = Some (m1, g1) →
            andNot m1 outer.1 = foldl andNot m (uses inner ++ [outer]).*1
            ∧ indent (WriteByte c g1) = indent g
            ∧ Buffer g `prefix_of` Buffer (WriteByte c g1)) as Hwrap.
  { intros inner outer s c m1 g1 Hin.
    apply IH in Hin as (-> & Hi & Hb).
    rewrite fmap_app, foldl_app. split; [done|]. split; [done|].
    etrans; [|apply Write_prefix]. etrans; [apply Write_prefix|done]. }
  destruct typ as [| name | v | v].
  - simpl. by intros [= <- <-].
  - apply printType_ident.
  - simpl.
    destruct (printType fuel m _ _) as [[m1 g1]|] eqn:Hin; [|done].
    intros [= <- <-].
    destruct v as [| name | l | n].
    + by rewrite printType_unset in Hin.
    + exact (Hwrap (TIdent name) (listBit, bytes_of_string "GraphQLList") _ _ _ _ Hin).
    + exact (Hwrap (TList l) (listBit, bytes_of_string "GraphQLList") _ _ _ _ Hin).
    + exact (Hwrap (TNonNull n) (listBit, bytes_of_string "GraphQLList") _ _ _ _ Hin).
  - simpl.
    destruct (printType fuel m _ _) as [[m1 g1]|] eqn:Hin; [|done].
    intros [= <- <-].
    destruct v as [| name | l].
    + by rewrite printType_unset in Hin.
    + exact (Hwrap (TIdent name) (nonNullBit, bytes_of_string "GraphQLNonNull") _ _ _ _ Hin).
    + exact (Hwrap (TList l) (nonNullBit, bytes_of_string "GraphQLNonNull") _ _ _ _ Hin).
Qed.

Lemma printType_enough fuel m typ g :
  allSet typ = true → depth typ < fuel → is_Some (printType fuel m typ g).
Proof.
  revert m typ g. induction fuel as [|fuel IH]; intros m typ g Hs Hd; [lia|].
  destruct typ as [| name | v | v]; simpl in *.
  - by eexists.
  - repeat (destruct (String.eqb name _); [by eexists|]). by eexists.
  - destruct v as [| name | l | n]; simpl in *; try done.
    + destruct (IH m (TIdent name) (WriteString "new GraphQLList(" g)) as [[m1 g1] ->];
        [done|simpl; lia|by eexists].
    + destruct (IH m (TList l) (WriteString "new GraphQLList(" g)) as [[m1 g1] ->];
        [done|simpl; lia|by eexists].
    + destruct (IH m (TNonNull n) (WriteString "new GraphQLList(" g)) as [[m1 g1] ->];
        [done|simpl; lia|by eexists].
  - destruct v as [| name | l]; simpl in *; try done.
    + destruct (IH m (TIdent name) (WriteString "new GraphQLNonNull(" g)) as [[m1 g1] ->];
        [done|simpl; lia|by eexists].
    + destruct (IH m (TList l) (WriteString "new GraphQLNonNull(" g)) as [[m1 g1] ->];
        [done|simpl; lia|by eexists].
Qed.

(** X12. [printType] returns on a type that ends in an identifier, within
    as many nested calls as the type is deep; what it returns has the bits
    of the built-in names and wrappers it printed cleared in the mask, the
    indent untouched and the buffer extended. On a list or non-null whose
    [Type] is unset, at any depth, it calls itself without end. *)
Theorem printType_returns m typ g :
  (allSet typ = true → ∀ fuel, depth typ < fuel →
     ∃ g', printType fuel m typ g = Some (foldl andNot m (uses typ).*1, g')
           ∧ indent g' = indent g ∧ Buffer g `prefix_of` Buffer g')
  ∧ (allSet typ = false → ∀ fuel, printType fuel m typ g = None).
Proof.
  split.
  - intros Hs fuel Hd.
    destruct (printType_enough fuel m typ g Hs Hd) as [[m' g'] Hp].
    destruct (printType_result _ _ _ _ _ _ Hp) as (-> & Hi & Hb). by exists g'.
  - intros Hs fuel. by apply printType_unset.
Qed.

Scheme List_mut := Induction for List Sort Prop
  with NonNull_mut := Induction for NonNull Sort Prop.
Combined Scheme List_NonNull_mutind from List_mut, NonNull_mut.

Lemma scalarEntry_bits name p : scalarEntry name = Some p → p ∈ bits.
Proof.
  unfold scalarEntry.
  repeat (destruct (String.eqb name _);
          [intros [= <-];
           first [ by apply (list_elem_of_lookup_2 _ 10)
                 | by apply (list_elem_of_lookup_2 _ 11)
                 | by apply (list_elem_of_lookup_2 _ 12)
                 | by apply (list_elem_of_lookup_2 _ 13)
                 | by apply (list_elem_of_lookup_2 _ 14) ]|]).
  done.
Qed.

Lemma uses_bits typ : Forall (λ p, p ∈ bits) (uses typ).
Proof.
  assert (∀ name, Forall (λ p, p ∈ bits) (option_list (scalarEntry name))) as Hscalar.
  { intros name. destruct (scalarEntry name) as [p|] eqn:He; simpl; [|done].
    constructor; [by eapply scalarEntry_bits|done]. }
  assert ((listBit, bytes_of_string "GraphQLList") ∈ bits) as Hlist
    by (by apply (list_elem_of_lookup_2 _ 8)).
  assert ((nonNullBit, bytes_of_string "GraphQLNonNull") ∈ bits) as Hnn
    by (by apply (list_elem_of_lookup_2 _ 9)).
  assert ((∀ l, Forall (λ p, p ∈ bits) (usesList l))
          ∧ (∀ n, Forall (λ p, p ∈ bits) (usesNonNull n))) as [HL HN].
  { apply List_NonNull_mutind; simpl; intros; try done;
      rewrite Forall_app; split; try done; by repeat constructor. }
  destruct typ; simpl; try done; rewrite Forall_app; split; try done;
    by repeat constructor.
Qed.

(** X13. After a type is printed, [setImports] imports what was due before
    and what the type refers to, and nothing else: a name of the table is
    imported exactly when it was among the imports, or its bit was clear
    before the type was printed, or the type printed it. *)
Theorem printType_imports fuel m typ g m' g' (o : Options) :
  printType fuel m typ g = Some (m', g') →
  ∀ p, p ∈ bits →
    p.2 ∈ imports (setImports o m')
    ↔ p.2 ∈ imports o ∨ Z.land m p.1 = 0%Z ∨ p ∈ uses typ.
Proof.
  intros Hp p Hin.
  apply printType_result in Hp as (-> & _ & _).
  rewrite (setImports_member o _ p Hin).
  by rewrite (clear_entries m (uses typ) p (uses_bits typ) Hin).
Qed.

End JsTypeFacts.

(** ** The generator's buffer and indent *)

Module JsPrintFacts.

Import Std JsGen JsPrint JsObs JsTypeFacts.

Implicit Types (g : Gen) (str : list PArg).

Lemma keeps_refl g : keeps g g.
Proof. by split. Qed.

Lemma keeps_trans g1 g2 g3 : keeps g1 g2 → keeps g2 g3 → keeps g1 g3.
Proof. intros [H1 H2] [H3 H4]. split; [congruence|by etrans]. Qed.

Lemma Write_keeps p g : keeps g (Write p g).
Proof. split; [done|apply Write_prefix]. Qed.

Lemma printArg_keeps g a : keeps g (printArg g a).
Proof. destruct a; simpl; try apply Write_keeps. apply keeps_refl. Qed.

Lemma P_keeps str g : keeps g (P str g).
Proof.
  unfold P. eapply keeps_trans; [|apply Write_keeps].
  eapply keeps_trans; [apply (Write_keeps (indent g))|].
  generalize (Write (indent g) g). induction str as [|a str IH]; intros g0; simpl.
  - apply keeps_refl.
  - eapply keeps_trans; [apply printArg_keeps|apply IH].
Qed.

Lemma printDescr_keeps text g : keeps g (printDescr text g).
Proof.
  unfold printDescr, WriteByte, WriteString. case_decide; [|apply keeps_refl].
  do 5 (eapply keeps_trans; [|apply Write_keeps]). apply Write_keeps.
Qed.

Lemma printMembers_keeps memsLen i mems sep g :
  keeps g (printMembers memsLen i mems sep g).
Proof.
  revert i sep g. induction mems as [|mem rest IH]; intros i sep g; simpl.
  - apply keeps_refl.
  - eapply keeps_trans; [apply P_keeps|apply IH].
Qed.

(** [Out] undoes [In], whatever was printed in between. *)
Lemma Out_after_In g g1 :
  keeps (In g) g1 → ∃ g2, Out g1 = Returns g2 ∧ keeps g g2.
Proof.
  intros [Hi Hb]. unfold Out. rewrite Hi. simpl.
  rewrite length_app. simpl.
  replace (length (indent g) + 2) with (S (S (length (indent g)))) by lia.
  eexists. split; [done|]. split; simpl.
  - by rewrite take_app_length.
  - done.
Qed.

(** X14. From a generator whose indent is an even run of spaces, as [Reset]
    leaves it, no sequence of [Reset], [In], [Out], [P] and [Write] makes
    [Out] slice out of bounds, and the indent stays an even run of spaces;
    [Out] gives back what [In] added, and on an empty indent it does
    nothing. *)
Theorem indent_stays_even (ops : list Op) g :
  evenIndent g →
  (∃ g', runOps g ops = Returns g' ∧ evenIndent g')
  ∧ Out (In g) = Returns g
  ∧ (indent g = [] → Out g = Returns g)
  ∧ evenIndent (Reset g).
Proof.
  intros Heven. split; [|split; [|split]].
  - revert g Heven. induction ops as [|op ops IH]; intros g Heven; simpl.
    + by exists g.
    + destruct op; simpl.
      * apply IH. by exists 0.
      * apply IH. destruct Heven as [n Hn]. exists (S n).
        unfold In. cbn [indent]. rewrite Hn.
        replace (2 * S n) with (2 * n + 2) by lia.
        by rewrite replicate_add.
      * destruct Heven as [n Hn]. unfold Out. rewrite Hn, length_replicate.
        destruct n as [|n].
        -- apply IH. exists 0. by rewrite Hn.
        -- replace (2 * S n) with (S (S (2 * n))) by lia. cbn beta iota.
           apply IH. exists n. cbn [indent].
           rewrite take_replicate. f_equal. lia.
      * apply IH. destruct Heven as [n Hn]. exists n.
        by rewrite (proj1 (P_keeps str g)).
      * apply IH. destruct Heven as [n Hn]. by exists n.
  - destruct (Out_after_In g (In g) (keeps_refl _)) as (g2 & Hout & Hi & Hb).
    rewrite Hout. f_equal. unfold Out in Hout. simpl in Hout.
    rewrite length_app in Hout. simpl in Hout.
    replace (length (indent g) + 2) with (S (S (length (indent g)))) in Hout by lia.
    injection Hout as <-. destruct g as [b i]. simpl. by rewrite take_app_length.
  - intros Hnil. unfold Out. by rewrite Hnil.
  - by exists 0.
Qed.

(** X15. [generateScalar], and [generateUnion] on a union, always return,
    with the indent they were called with and a buffer that extends the one
    they found; [generateUnion] on any other type specification panics on
    its type assertion. *)
Theorem generate_restores_indent name descr doc g :
  (∃ g', generateScalar name descr doc g = Returns g' ∧ keeps g g')
  ∧ (∀ members, ∃ g',
       generateUnion name descr doc (TypeSpec_Union members) g = Returns g'
       ∧ keeps g g')
  ∧ (∀ ts, (∀ members, ts ≠ TypeSpec_Union members) →
       generateUnion name descr doc ts g = assertionPanic).
Proof.
  split; [|split].
  - unfold generateScalar.
    set (g0 := P [AString "GraphQLScalarType({"] g).
    set (g1 := P [AString "serialize(value) { /* TODO */ }"] _).
    assert (keeps (In g0) g1) as Hk.
    { unfold g1. eapply keeps_trans; [|apply P_keeps].
      eapply keeps_trans; [apply P_keeps|].
      destruct doc as [text|]; [|apply keeps_refl].
      destruct (descr && _); [apply P_keeps|apply keeps_refl]. }
    destruct (Out_after_In _ _ Hk) as (g2 & -> & Hk2). simpl.
    eexists. split; [done|].
    eapply keeps_trans; [apply (P_keeps [AString "GraphQLScalarType({"])|].
    eapply keeps_trans; [exact Hk2|apply P_keeps].
  - intros members. unfold generateUnion.
    set (g0 := P [AString "GraphQLUnionType({"] g).
    set (g1 := if decide (length members = 1) then _ else _).
    assert (keeps (In g0) g1) as Hk1.
    { unfold g1. eapply keeps_trans; [apply P_keeps|].
      case_decide; [apply P_keeps|apply keeps_refl]. }
    assert (∃ g2, (if decide (1 < length members)
                   then Out (printMembers (length members) 0 members "," (In (P [AString "types: ["] g1)))
                        >>> (λ g, Returns (P [AString "],"] g))
                   else Returns g1) = Returns g2 ∧ keeps (In g0) g2) as (g2 & -> & Hk2).
    { case_decide; [|by exists g1].
      destruct (Out_after_In (P [AString "types: ["] g1)
                  (printMembers (length members) 0 members ","
                     (In (P [AString "types: ["] g1))))
        as (g3 & -> & Hk3); [apply printMembers_keeps|].
      simpl. eexists. split; [done|].
      eapply keeps_trans; [exact Hk1|].
      eapply keeps_trans; [apply P_keeps|].
      eapply keeps_trans; [exact Hk3|apply P_keeps]. }
    simpl.
    set (g3 := WriteByte Byte.x0a _).
    assert (keeps (In g0) g3) as Hk3.
    { unfold g3. eapply keeps_trans; [exact Hk2|].
      eapply keeps_trans; [|apply Write_keeps].
      eapply keeps_trans; [apply (Write_keeps (indent g2))|].
      eapply keeps_trans; [apply Write_keeps|].
      destruct doc as [text|]; [|apply keeps_refl].
      destruct descr; [apply printDescr_keeps|apply keeps_refl]. }
    destruct (Out_after_In _ _ Hk3) as (g4 & -> & Hk4). simpl.
    eexists. split; [done|].
    eapply keeps_trans; [apply (P_keeps [AString "GraphQLUnionType({"])|].
    eapply keeps_trans; [exact Hk4|apply P_keeps].
  - intros ts Hts. destruct ts; try done. by destruct (Hts members).
Qed.

Lemma In_Buffer g : Buffer (In g) = Buffer g.
Proof. done. Qed.

Lemma Out_Buffer g g' : Out g = Returns g' → Buffer g' = Buffer g.
Proof.
  unfold Out. destruct (length (indent g)) as [|[|n]]; [|done|]; by intros [= <-].
Qed.

Lemma occurs_later (x : bytes) g g1 g2 pre post :
  Buffer g1 = Buffer g ++ pre ++ x ++ post →
  Buffer g1 `prefix_of` Buffer g2 →
  ∃ post', Buffer g2 = Buffer g ++ pre ++ x ++ post'.
Proof.
  intros H1 [k Hk]. exists (post ++ k). rewrite Hk, H1. by rewrite <- !app_assoc.
Qed.

Lemma printMembers_writes memsLen i mems sep g mem :
  mem ∈ mems →
  ∃ pre post,
    Buffer (printMembers memsLen i mems sep g)
      = Buffer g ++ pre ++ bytes_of_string mem ++ post.
Proof.
  revert i sep g. induction mems as [|m rest IH]; intros i sep g Hin.
  - by apply elem_of_nil in Hin.
  - simpl. apply elem_of_cons in Hin as [->|Hin].
    + set (sep' := if decide (i = memsLen - 1) then _ else _).
      destruct (printMembers_keeps memsLen (S i) rest sep' (P [AString m; AString sep'] g))
        as [_ [k Hk]].
      exists (indent g), (bytes_of_string sep' ++ [Byte.x0a] ++ k).
      rewrite Hk. unfold P, WriteByte, WriteString, Write. simpl.
      by rewrite <- !app_assoc.
    + set (sep' := if decide (i = memsLen - 1) then _ else _).
      destruct (IH (S i) sep' (P [AString m; AString sep'] g) Hin) as (pre & post & ->).
      destruct (P_keeps [AString m; AString sep'] g) as [_ [k ->]].
      exists (k ++ pre), post. by rewrite <- !app_assoc.
Qed.

(** X16. A union of one member is printed without the member: [P] is handed
    the identifier itself, which it ignores, so that the output is the same
    whatever the member is called. With two members or more, every member's
    name is written. *)
Theorem generateUnion_members name descr doc g :
  (∀ mem mem',
     generateUnion name descr doc (TypeSpec_Union [mem]) g
     = generateUnion name descr doc (TypeSpec_Union [mem']) g)
  ∧ (∀ members mem g',
       1 < length members → mem ∈ members →
       generateUnion name descr doc (TypeSpec_Union members) g = Returns g' →
       ∃ pre post, Buffer g' = Buffer g ++ pre ++ bytes_of_string mem ++ post).
Proof.
  split; [done|].
  intros members mem g' Hlen Hin. unfold generateUnion.
  rewrite (decide_False (P := length members = 1)) by lia.
  rewrite (decide_True (P := 1 < length members)) by done.
  set (g1 := P [AString "name: '"; AString name; AString "',"] _).
  set (g2 := In (P [AString "types: ["] g1)).
  destruct (printMembers_writes (length members) 0 members "," g2 mem Hin)
    as (pre & post & Hw).
  destruct (Out (printMembers _ _ _ _ _)) as [g3|v] eqn:Hout; [|done].
  apply Out_Buffer in Hout. simpl.
  set (g4 := WriteByte Byte.x0a _).
  destruct (Out g4) as [g5|v] eqn:Hout4; [|done]. simpl. intros [= <-].
  apply Out_Buffer in Hout4.
  assert (Buffer g `prefix_of` Buffer g2) as [k Hk].
  { unfold g2, g1. rewrite In_Buffer.
    etrans; [|apply P_keeps]. etrans; [|apply P_keeps]. rewrite In_Buffer.
    apply P_keeps. }
  assert (Buffer g3 `prefix_of` Buffer (P [AString "});"] g5)) as Hlater.
  { etrans; [|apply P_keeps]. rewrite Hout4. unfold g4.
    etrans; [apply (P_keeps [AString "],"] g3)|].
    etrans; [|apply Write_prefix].
    assert (∀ i g0, Buffer g0 `prefix_of`
                    Buffer (WriteString "resolveType(value) { /* TODO */ }"
                              (Write i g0))) as Hres.
    { intros i g0. etrans; [|apply Write_prefix]. apply Write_prefix. }
    destruct doc as [text|]; [|apply Hres].
    destruct descr; [|apply Hres].
    etrans; [|apply printDescr_keeps]. apply Hres. }
  rewrite Hout, Hw in Hlater. destruct Hlater as [k' ->].
  exists (k ++ pre), (post ++ k'). rewrite Hk. by rewrite <- !app_assoc.
Qed.

Section Schema.

Context {L : Lower}.

Lemma rootOperations_query (rootOps : list Field) :
  match (rootOperations rootOps).1 with
  | Some f => f ∈ rootOps ∧ strings_ToLower (field_Name f) = "query"%string
  | None => ∀ f, f ∈ rootOps → strings_ToLower (field_Name f) ≠ "query"%string
  end.
Proof.
  unfold rootOperations. induction rootOps as [|f rootOps IH] using rev_ind.
  - simpl. intros f Hin. by apply elem_of_nil in Hin.
  - rewrite foldl_snoc. simpl.
    destruct (String.eqb (strings_ToLower (field_Name f)) "query") eqn:Hq.
    + apply String.eqb_eq in Hq. split; [|done].
      apply elem_of_app. right. apply list_elem_of_here.
    + apply String.eqb_neq in Hq.
      destruct (foldl _ _ rootOps).1 as [q|].
      * destruct IH as [Hin Hl]. split; [|done]. apply elem_of_app. by left.
      * intros f' [Hin|Hin%list_elem_of_singleton]%elem_of_app; [by apply IH|by subst].
Qed.

(** X17. A schema that names no [query] operation makes [generateSchema]
    panic on a nil field instead of returning; when it returns, some root
    operation is called [query] up to case and has an identifier for its
    type, and the indent is the one it was called with. *)
Theorem generateSchema_needs_query (opts : Options) (rootOps : list Field) g :
  ((∀ f, f ∈ rootOps → strings_ToLower (field_Name f) ≠ "query"%string) →
     generateSchema opts (TypeSpec_Schema rootOps) g = nilPanic)
  ∧ (∀ g', generateSchema opts (TypeSpec_Schema rootOps) g = Returns g' →
       keeps g g'
       ∧ ∃ f name, f ∈ rootOps
           ∧ strings_ToLower (field_Name f) = "query"%string
           ∧ field_Type f = Field_Ident name).
Proof.
  pose proof (rootOperations_query rootOps) as Hq.
  unfold generateSchema.
  destruct (rootOperations rootOps) as [query mutation]. simpl in Hq.
  split.
  - intros Hno. destruct query as [f|]; [|done].
    destruct Hq as [Hin Hl]. by destruct (Hno f Hin).
  - intros g'. destruct query as [f|]; [|done]. destruct Hq as [Hin Hl]. simpl.
    destruct (field_Type f) as [| qname | |] eqn:Ht; try done.
    set (g0 := P [ABytes (declStr opts); AString " Schema = new GraphQLSchema({"] g).
    intros Hret.
    assert (∃ g2, keeps (In g0) g2 ∧ Out g2 >>> (λ g, Returns (P [AString "});"] (P [] g)))
                                      = Returns g') as (g2 & Hk2 & Hout).
    { destruct mutation as [m|]; simpl in Hret.
      - destruct (field_Type m); try done. simpl in Hret.
        eexists. split; [|exact Hret]. unfold WriteByte, WriteString.
        do 5 (eapply keeps_trans; [|apply Write_keeps]). apply Write_keeps.
      - eexists. split; [|exact Hret]. unfold WriteString.
        eapply keeps_trans; [|apply Write_keeps]. apply Write_keeps. }
    destruct (Out_after_In _ _ Hk2) as (g3 & Hout3 & Hk3).
    rewrite Hout3 in Hout. simpl in Hout. injection Hout as <-.
    split; [|by exists f, qname].
    eapply keeps_trans;
      [apply (P_keeps [ABytes (declStr opts); AString " Schema = new GraphQLSchema({"] g)|].
    eapply keeps_trans; [exact Hk3|].
    eapply keeps_trans; apply P_keeps.
Qed.

End Schema.

End JsPrintFacts.

(** ** The options of the JavaScript generator *)

Module JsOptionsFacts.

Import Std JsGen JsObs StdFacts.

Section WithQuote.

Context {Q : Quote}.

Lemma directiveFields_keeps fields o o' e :
  directiveFields fields o = Returns (o', e) →
  declStr o' = declStr o ∧ imports o' = imports o.
Proof.
  revert o. induction fields as [|[key val] rest IH]; intros o; simpl.
  - by intros [= <- <-].
  - repeat case_match; try done; try (intros [= <- <-]; done);
      intros Hr; by apply IH in Hr.
Qed.

Lemma directiveOptions_keeps directives o o' e :
  directiveOptions directives o = Returns (o', e) →
  declStr o' = declStr o ∧ imports o' = imports o.
Proof.
  revert o. induction directives as [|d rest IH]; intros o; simpl.
  - by intros [= <- <-].
  - destruct (negb _); [apply IH|].
    destruct (dir_Args d) as [[|[| |[| | |fields]] args]|]; try done.
    + destruct (directiveFields fields o) as [[o1 [e1|]]|v] eqn:Hf; try done.
      * intros [= <- <-]. by eapply directiveFields_keeps.
      * intros Hr. apply IH in Hr as [-> ->]. by eapply directiveFields_keeps.
    + by intros [= <- <-].
Qed.

Lemma directiveOptions_no_js directives o :
  (∀ d, d ∈ directives → dir_Name d ≠ "js"%string) →
  directiveOptions directives o = Returns (o, None).
Proof.
  induction directives as [|d rest IH]; intros Hno; simpl; [done|].
  assert (dir_Name d ≠ "js"%string) as Hd by (apply Hno, list_elem_of_here).
  apply String.eqb_neq in Hd. rewrite Hd. simpl. apply IH.
  intros d' Hin. by apply Hno, list_elem_of_further.
Qed.

(** X18. The command line wins over the document, and the document over the
    defaults: with a map of options that is not nil, each of [Module],
    [Descriptions] and [UseFlow] is what the map holds under its key, the
    zero value when that is of another type, and otherwise what the [@js]
    directives of the document set; without such a directive the document
    sets the defaults. *)
Theorem getOptions_precedence directives (opts : gmap string Value) o err :
  getOptions directives (Some opts) = Returns (o, err) →
  (err = None →
   ∃ od, directiveOptions directives defaults = Returns (od, None)
     ∧ opt_Module o = match opts !! "module"%string with
                      | Some v => asString v
                      | None => opt_Module od
                      end
     ∧ Descriptions o = match opts !! "descriptions"%string with
                        | Some v => asBool v
                        | None => Descriptions od
                        end
     ∧ UseFlow o = match opts !! "useFlow"%string with
                   | Some v => asBool v
                   | None => UseFlow od
                   end
     ∧ ((∀ d, d ∈ directives → dir_Name d ≠ "js"%string) → od = defaults)).
Proof.
  unfold getOptions. fold defaults.
  destruct (directiveOptions directives defaults) as [[od [e|]]|v] eqn:Hd; try done.
  - by intros [= <- <-].
  - intros [= <- <-] _. exists od. split; [done|].
    unfold cliOptions.
    destruct (opts !! "module"%string), (opts !! "descriptions"%string),
      (opts !! "useFlow"%string); simpl;
      (repeat split; try (by destruct (String.eqb _ "ES6"));
       intros Hno; rewrite (directiveOptions_no_js _ _ Hno) in Hd; congruence).
Qed.

(** X19. [getOptions] leaves the imports empty, and the declaration keyword
    follows the module only when the map of the command line is not nil:
    then it is [let] exactly for the module [ES6] and [var] otherwise. With
    a nil map, or when an error is returned, it is [var] whatever module
    the document asks for. *)
Theorem getOptions_declStr directives opts o err :
  getOptions directives opts = Returns (o, err) →
  imports o = []
  ∧ match opts, err with
    | Some _, None =>
      declStr o = if String.eqb (opt_Module o) "ES6" then es6Decl else commonJSDecl
    | _, _ => declStr o = commonJSDecl
    end.
Proof.
  unfold getOptions. fold defaults.
  destruct (directiveOptions directives defaults) as [[od [e|]]|v] eqn:Hd; try done.
  - intros [= <- <-]. apply directiveOptions_keeps in Hd as [-> ->].
    split; [done|]. by destruct opts.
  - apply directiveOptions_keeps in Hd as [Hdecl Himp].
    destruct opts as [opts|]; intros [= <- <-]; [|done].
    unfold cliOptions.
    destruct (opts !! "module"%string), (opts !! "descriptions"%string),
      (opts !! "useFlow"%string); simpl;
      destruct (String.eqb _ "ES6") eqn:Hes; simpl; rewrite ?Hes; done.
Qed.

(** X20. A [@js] directive without arguments ends the scan of the
    directives: what follows it in the document, [@js] directives included,
    has no effect on the options. *)
Theorem getOptions_stops_at_bare_directive pre d post opts :
  dir_Name d = "js"%string → dir_Args d = None →
  getOptions (pre ++ d :: post) opts = getOptions pre opts.
Proof.
  intros Hn Ha. unfold getOptions.
  assert (∀ o, directiveOptions (pre ++ d :: post) o = directiveOptions pre o) as ->; [|done].
  induction pre as [|d0 pre IH]; intros o; simpl.
  - by rewrite Hn, Ha.
  - destruct (negb _); [apply IH|].
    destruct (dir_Args d0) as [[|[| |[| | |fields]] args]|]; try done.
    destruct (directiveFields fields o) as [[o1 [e1|]]|v]; try done.
Qed.

End WithQuote.

(** *** The import statement *)

Lemma writeImportList_lines impLen i (imps : list bytes) b :
  imps ≠ [] → i + length imps = impLen →
  writeImportList indentUnit impLen i imps b = b ++ importLines imps.
Proof.
  revert i b. induction imps as [|imp rest IH]; intros i b Hne Hlen; [done|].
  cbn [writeImportList importLines]. destruct rest as [|imp' rest].
  - cbn [writeImportList]. rewrite decide_False by (simpl in Hlen; lia).
    by rewrite <- ?app_assoc.
  - rewrite decide_True by (simpl in Hlen; lia).
    rewrite IH by (simpl in *; try done; lia).
    by rewrite <- ?app_assoc.
Qed.

(** X21. The import statement: the flow comment if asked for, [import] for
    the module [ES6] and [var] for any other, the imports between braces
    (alone on the line when there is one, else one per line after two
    spaces, with commas between them), and the source clause of the
    module, which is missing when the module is neither [COMMONJS] nor
    [ES6]. *)
Theorem importStatement_shape (opts : Options) :
  importStatement opts =
    (if UseFlow opts then flowDirective ++ [Byte.x0a; Byte.x0a] else [])
    ++ (if String.eqb (opt_Module opts) "ES6" then es6ImportDecl else commonJSDecl)
    ++ bytes_of_string " {" ++ importBody (imports opts) ++ bytes_of_string "} "
    ++ (if String.eqb (opt_Module opts) "COMMONJS" then commonJSImport
        else if String.eqb (opt_Module opts) "ES6" then es6Import else [])
    ++ [Byte.x0a; Byte.x0a].
Proof.
  unfold importStatement. cbv zeta.
  destruct (imports opts) as [|imp [|imp' rest]] eqn:Himps.
  - cbn [length writeImportList importBody].
    rewrite !(decide_False (P := 1 < 0)) by lia.
    rewrite (decide_False (P := 0 = 1)) by lia.
    destruct (UseFlow opts), (String.eqb (opt_Module opts) "COMMONJS"),
      (String.eqb (opt_Module opts) "ES6");
      rewrite <- ?app_assoc, ?app_nil_l; reflexivity.
  - cbn [length writeImportList importBody].
    rewrite !(decide_False (P := 1 < 1)) by lia.
    rewrite (decide_True (P := 1 = 1)) by done.
    rewrite decide_False by lia.
    destruct (UseFlow opts), (String.eqb (opt_Module opts) "COMMONJS"),
      (String.eqb (opt_Module opts) "ES6");
      rewrite <- ?app_assoc, ?app_nil_l; reflexivity.
  - rewrite !(decide_True (P := 1 < length (imp :: imp' :: rest))) by (simpl; lia).
    rewrite (decide_False (P := length (imp :: imp' :: rest) = 1)) by (simpl; lia).
    rewrite writeImportList_lines by (simpl; done).
    cbn [importBody].
    destruct (UseFlow opts), (String.eqb (opt_Module opts) "COMMONJS"),
      (String.eqb (opt_Module opts) "ES6");
      rewrite <- ?app_assoc, ?app_nil_l; reflexivity.
Qed.

(** *** The output file name *)

Lemma length_app_string (a b : string) :
  String.length (a +:+ b) = String.length a + String.length b.
Proof. induction a as [|c a IH]; simpl; [done|]. by rewrite IH. Qed.

Lemma substring_app_l (a b : string) :
  String.substring 0 (String.length a) (a +:+ b) = a.
Proof.
  induction a as [|c a IH]; simpl.
  - by destruct b.
  - by rewrite IH.
Qed.

(** X22. The output file is named after the document with the extension
    replaced: [.js] takes the place of the last dot of the last path element
    and what follows it, and is appended when that element has no dot. *)
Theorem jsFileName_replaces_extension :
  (∀ base ext,
     Forall (λ c, c ≠ "/"%char ∧ c ≠ "."%char) (list_ascii_of_string ext) →
     jsFileName (base +:+ String "." ext) = base +:+ ".js")
  ∧ (∀ docName, filepath_Ext docName = EmptyString →
       jsFileName docName = docName +:+ ".js")
  ∧ (∀ docName, ∃ base,
       docName = base +:+ filepath_Ext docName ∧ jsFileName docName = base +:+ ".js").
Proof.
  assert (∀ base e, filepath_Ext (base +:+ e) = e →
            jsFileName (base +:+ e) = base +:+ ".js") as Hcut.
  { intros base e He. unfold jsFileName. rewrite He, length_app_string.
    replace (String.length base + String.length e - String.length e)
      with (String.length base) by lia.
    by rewrite substring_app_l. }
  split; [|split].
  - intros base ext Hext. apply Hcut. by apply Ext_of_suffix.
  - intros docName He. unfold jsFileName. rewrite He. simpl.
    by rewrite Nat.sub_0_r, substring_all.
  - intros docName. destruct (Ext_suffix docName) as [He|(base & e & He & Hd)].
    + exists docName. rewrite He. split.
      * clear He. induction docName as [|c s IH]; [done|].
        change (String c s = String c (s +:+ EmptyString)). by f_equal.
      * unfold jsFileName. rewrite He. simpl. by rewrite Nat.sub_0_r, substring_all.
    + exists base. rewrite He. split; [done|]. rewrite Hd at 1. apply Hcut.
      by rewrite <- Hd.
Qed.

End JsOptionsFacts.

(** ** The comparison of the end-to-end test *)

Module E2EFacts.

Import E2E.

Section WithFold.

Context {F : Fold}.

Lemma lineFeeds_cons b (l : bytes) :
  lineFeeds (b :: l) = (if decide (b = Byte.x0a) then 1 else 0) + lineFeeds l.
Proof.
  unfold lineFeeds. destruct (decide (b = Byte.x0a)) as [Hb|Hb].
  - by rewrite filter_cons_True.
  - by rewrite filter_cons_False.
Qed.

Lemma compareLoop_passes ex out i line :
  compareLoop ex i line out = Passes ↔ out `prefix_of` drop i ex.
Proof.
  revert i line. induction out as [|b rest IH]; intros i line; simpl.
  - split; [intros _; apply prefix_nil | done].
  - destruct (ex !! i) as [e|] eqn:He.
    + rewrite (drop_S _ _ _ He). destruct (decide (e ≠ b)) as [Hne|Heq].
      * split; [done|]. intros Hp. apply prefix_cons_inv_1 in Hp. congruence.
      * apply dec_stable in Heq. subst e. rewrite IH.
        split; [apply prefix_cons | apply prefix_cons_inv_2].
    + rewrite drop_ge by (by apply lookup_ge_None). split; [done|].
      intros Hp. by apply prefix_nil_inv in Hp.
Qed.

Lemma compareLoop_fatal ex out i line j e b l :
  compareLoop ex i line out = Fatal j e b l →
  ∃ k, j = i + k ∧ take k out = take k (drop i ex) ∧ out !! k = Some b
     ∧ ex !! j = Some e ∧ e ≠ b ∧ l = line + lineFeeds (take (S k) out).
Proof.
  revert i line. induction out as [|b0 rest IH]; intros i line; simpl; [done|].
  destruct (ex !! i) as [e0|] eqn:He; [|done].
  destruct (decide (e0 ≠ b0)) as [Hne|Heq].
  - intros [= <- <- <- <-]. exists 0. rewrite Nat.add_0_r, take_0.
    do 5 (split; [done|]).
    change (take 1 (b0 :: rest)) with (b0 :: take 0 rest).
    rewrite lineFeeds_cons, take_0. unfold lineFeeds. simpl.
    destruct (decide (b0 = Byte.x0a)); lia.
  - apply dec_stable in Heq. subst e0. intros Hr.
    apply IH in Hr as (k & -> & Htake & Hb & Hex & Hne & ->).
    exists (S k). rewrite (drop_S _ _ _ He).
    split; [lia|]. split; [simpl; by rewrite Htake|]. split; [done|].
    split; [by replace (i + S k) with (S i + k) by lia|]. split; [done|].
    change (take (S (S k)) (b0 :: rest)) with (b0 :: take (S k) rest).
    rewrite lineFeeds_cons. destruct (decide (b0 = Byte.x0a)); lia.
Qed.

Lemma compareLoop_out_of_range ex out i line j :
  i ≤ length ex →
  compareLoop ex i line out = OutOfRange j →
  j = length ex ∧ ∃ b rest, out = drop i ex ++ b :: rest.
Proof.
  revert i line. induction out as [|b0 rest IH]; intros i line Hi; simpl; [done|].
  destruct (ex !! i) as [e0|] eqn:He.
  - destruct (decide (e0 ≠ b0)) as [Hne|Heq]; [done|].
    apply dec_stable in Heq. subst e0. intros Hr.
    apply IH in Hr as (-> & b & rest' & ->);
      [|by apply lookup_lt_Some in He].
    split; [done|]. exists b, rest'. by rewrite (drop_S _ _ _ He).
  - intros [= <-]. apply lookup_ge_None in He.
    split; [lia|]. exists b0, rest. by rewrite drop_ge.
Qed.

(** X23. [compareBytes] lets the test go on exactly when the output equals
    the expected bytes under [bytes.EqualFold], or is a prefix of them: an
    output that was cut short, the empty one included, is not told apart
    from the expected one. *)
Theorem compareBytes_passes ex out :
  compareBytes ex out = Passes ↔ bytes_EqualFold out ex = true ∨ out `prefix_of` ex.
Proof.
  unfold compareBytes. destruct (bytes_EqualFold out ex).
  - split; [by left|done].
  - rewrite compareLoop_passes, drop_0. split; [by right|]. by intros [?|?].
Qed.

(** X24. When [compareBytes] fails the test, it does so at the first index
    at which the output differs from the expected bytes, and reports the
    two bytes found there; the line it reports is one more than the number
    of line feeds of the output up to and including that index. *)
Theorem compareBytes_reports_first_difference ex out i e b line :
  compareBytes ex out = Fatal i e b line →
  bytes_EqualFold out ex = false
  ∧ take i out = take i ex
  ∧ out !! i = Some b ∧ ex !! i = Some e ∧ e ≠ b
  ∧ line = 1 + lineFeeds (take (S i) out).
Proof.
  unfold compareBytes. destruct (bytes_EqualFold out ex); [done|].
  intros Hr. apply compareLoop_fatal in Hr as (k & -> & Htake & Hb & He & Hne & ->).
  rewrite drop_0 in Htake. done.
Qed.

(** X25. An output that goes on after the expected bytes does not fail the
    test with a message: [ex[i]] is then indexed out of range, at the
    length of the expected bytes, and this is the only way
    [compareBytes] indexes out of range. *)
Theorem compareBytes_longer_output ex out i :
  compareBytes ex out = OutOfRange i →
  bytes_EqualFold out ex = false
  ∧ i = length ex ∧ ∃ b rest, out = ex ++ b :: rest.
Proof.
  unfold compareBytes. destruct (bytes_EqualFold out ex); [done|].
  intros Hr. apply compareLoop_out_of_range in Hr as (-> & b & rest & ->); [|lia].
  rewrite drop_0. eauto.
Qed.

End WithFold.

End E2EFacts.

(** ** The output file of the JavaScript generator *)

Module JsOutFacts.

Import Plugin Js.

Section WithWorld.

Context {World : Type}.

(** X26. When the output file opens, the JavaScript generator returns with
    the handle closed: the log grows by the open, the write of the import
    statement, the write of the buffer if the first write succeeded and the
    buffer is not empty, and the close of that handle, in this order,
    whether the writes succeed or fail. *)
Theorem writeOut_balances_handle (gCtx : GeneratorContext World) fileName imports buf
    (s : State World) jsFile w :
  Open gCtx fileName (world s) = (Ok jsFile, w) →
  ∃ err s' l,
    writeOut gCtx fileName imports buf s = (Returns err, s')
    ∧ log s' = log s ++ EvOpen (handles s) fileName :: l ++ [EvClose (handles s)]
    ∧ (l = [EvWrite (handles s) imports]
       ∨ (buf ≠ [] ∧ (Write jsFile imports w).1 = None
          ∧ l = [EvWrite (handles s) imports; EvWrite (handles s) buf]))
    ∧ (l = [EvWrite (handles s) imports] →
       err = (Write jsFile imports w).1 ∧ (err = None → buf = []))
    ∧ handles s' = S (handles s)
    ∧ closes (log s') = closes (log s) ++ [EvClose (handles s)].
Proof.
  intros Ho. unfold writeOut. rewrite Ho. simpl.
  destruct (Write jsFile imports w) as [[e|] w1]; simpl.
  - destruct (Close jsFile w1) as [c w2]. eexists _, _, [_]. simpl.
    split; [done|]. unfold emit, closes; simpl.
    rewrite <- !app_assoc, !filter_app. simpl.
    repeat split; try done. by left.
  - unfold Buffer_WriteTo. destruct buf as [|b buf]; simpl.
    + destruct (Close jsFile w1) as [c w2]. eexists _, _, [_]. simpl.
      split; [done|]. unfold emit, closes; simpl.
      rewrite <- !app_assoc, !filter_app. simpl.
      repeat split; try done. by left.
    + destruct (Write jsFile (b :: buf) w1) as [werr w2]. simpl.
      destruct (Close jsFile w2) as [c w3]. eexists _, _, [_; _]. simpl.
      split; [done|]. unfold emit, closes; simpl.
      rewrite <- !app_assoc, !filter_app. simpl.
      repeat split; try done. by right.
Qed.

End WithWorld.

End JsOutFacts.

(** ** The properties on the concrete inputs *)

Module SampleFacts.

Import Examples Samples.

(** *** The root command *)

Import Std Root RootCmd RootCmdFacts PipelineFacts.

Lemma PersistentPreRunE_first_offender_witness :
  "gqlc"%string ≠ "help"%string
  ∧ ∃ pre f post, ["a.gql"; "b.txt"; "c.json"]%string = pre ++ f :: post
      ∧ Forall schemaName pre ∧ ¬ schemaName f
      ∧ errorString "invalid file extension: b.txt"
        = errorString ("invalid file extension: " +:+ f).
Proof.
  apply (PersistentPreRunE_first_offender "gqlc" ["a.gql"; "b.txt"; "c.json"]%string
           (errorString "invalid file extension: b.txt")).
  reflexivity.
Defined.

Lemma usage_groups_partition_witness :
  mkFlag "go_out" false ∉ tmpl_ex docFlags "_out".
Proof.
  apply (proj2 (proj2 (proj2 (usage_groups_partition docFlags "_out")))).
  apply (list_elem_of_lookup_2 _ 1). reflexivity.
Defined.

Lemma runRoot_stops_at_first_bad_file_witness :
  runRoot (E := brokenRoot) docFlags ["a.gql"; "missing.gql"; "b.gql"]%string tt
    = (Some missing, [], tt)
  ∧ is_Some (Some missing).
Proof.
  apply (runRoot_stops_at_first_bad_file (E := brokenRoot) docFlags
           ["a.gql"%string] "missing.gql"%string ["b.gql"%string] tt
           (mkParseState {["/src/a.gql"%string := docA 0]} tt 1 None) tt
           (Some missing) tt).
  - vm_compute. reflexivity.
  - vm_compute. reflexivity.
Defined.

Lemma runRoot_invocation_count_witness :
  let E := demoRoot Nat.odd [] in
  let args := ["a.gql"; "b.gql"; "./a.gql"]%string in
  let tr := [("doc", docA 2); ("doc", docB 1); ("go", docB 1); ("go", docA 2)]%string in
  length tr = length (omap (selected (E := E)) bothFlags)
              * size (docsOf (E := E) bothFlags args tt)
  ∧ dom (docsOf (E := E) bothFlags args tt)
    = list_to_set ((λ r, doc_Name (deref r)) <$> parsedDocs (E := E) bothFlags args tt)
  ∧ size (docsOf (E := E) bothFlags args tt) ≤ length args.
Proof.
  intros E args tr.
  apply (runRoot_invocation_count (E := E) bothFlags args tt tr tt).
  - vm_compute. reflexivity.
  - reflexivity.
Defined.

(** *** The plugin executor *)

Import Plugin PluginRuns PluginFacts ExecutorFacts Js JsOutFacts.

Lemma Generate_writes_in_order_witness :
  let run := Generate (ET := demoText) (E := demoPlugin true twoFiles)
               docsPlugin memCtx schemaDoc ∅ start in
  run.1.2 = docsPluginFound
  ∧ log run.2 = log answered ++ fileEvents (handles answered) (resp_File twoFiles).
Proof.
  intros run.
  apply (Generate_writes_in_order (ET := demoText) (E := demoPlugin true twoFiles)
           docsPlugin memCtx schemaDoc ∅ start twoFiles docsPluginFound answered
           run.1.2 run.2).
  - demo_responds.
  - reflexivity.
  - vm_compute. reflexivity.
Defined.

Lemma Generate_stops_at_failed_file_witness :
  let s2 := (writeFiles lockedCtx (take 2 (resp_File threeFiles)) answered).2 in
  Generate (ET := demoText) (E := demoPlugin true threeFiles)
    docsPlugin lockedCtx schemaDoc ∅ start
  = (Some (GeneratorError (Prefix docsPlugin +:+ Name docsPlugin) (doc_Name schemaDoc)
             (Error (ET := demoText) denied)),
     docsPluginFound, s2).
Proof.
  intros s2.
  apply (Generate_stops_at_failed_file (ET := demoText) (E := demoPlugin true threeFiles)
           docsPlugin lockedCtx schemaDoc ∅ start threeFiles docsPluginFound answered
           (take 2 (resp_File threeFiles)) (drop 2 (resp_File threeFiles)) denied s2).
  - demo_responds.
  - reflexivity.
  - reflexivity.
  - vm_compute. reflexivity.
Defined.

Lemma Generate_subprocess_failure_witness :
  ∃ g' s',
    Generate (ET := demoText) (E := crashPlugin) docsPlugin memCtx schemaDoc ∅ start =
      (Some (GeneratorError (Prefix docsPlugin +:+ Name docsPlugin) (doc_Name schemaDoc)
               (Error (ET := demoText) exitStatus)), g', s')
    ∧ gen_Cmd g' = None
    ∧ log s' = log looked ++ [EvRun (command (E := crashPlugin) docsPluginFound
                                        (bytes_of_string "{}"))]
    ∧ handles s' = handles start.
Proof.
  apply (Generate_subprocess_failure (ET := demoText) (E := crashPlugin)
           docsPlugin memCtx schemaDoc ∅ start (bytes_of_string "{}")
           docsPluginFound looked (bytes_of_string "{}") exitStatus [] ∅);
    reflexivity.
Defined.

Lemma Generate_runs_once_witness :
  let run := Generate (ET := demoText) (E := demoPlugin true oneFile)
               (setCmd docsPlugin (Some docsCmd)) memCtx schemaDoc ∅ start in
  ((runs (log run.2) = S (runs (log start)) ∧ gen_Cmd run.1.2 = None)
   ∨ (runs (log run.2) = runs (log start)
      ∧ gen_Cmd run.1.2 = gen_Cmd (setCmd docsPlugin (Some docsCmd))))
  ∧ (is_Some (lookPathErr run.1.2) → runs (log run.2) = runs (log start))
  ∧ (∀ e, json_Marshal (Env := demoPlugin true oneFile) ∅ = Err e →
       runs (log run.2) = runs (log start)).
Proof.
  intros run.
  apply (Generate_runs_once (ET := demoText) (E := demoPlugin true oneFile)
           (setCmd docsPlugin (Some docsCmd)) memCtx schemaDoc ∅ start
           run.1.1 run.1.2 run.2).
  vm_compute. reflexivity.
Defined.

Lemma writeOut_balances_handle_witness :
  ∃ err s' l,
    writeOut memCtx "schema.js" importLine body start = (Returns err, s')
    ∧ log s' = log start ++ EvOpen (handles start) "schema.js" :: l
                 ++ [EvClose (handles start)]
    ∧ (l = [EvWrite (handles start) importLine]
       ∨ (body ≠ []
          ∧ (Write (memFile "schema.js") importLine {["schema.js"%string := []]}).1 = None
          ∧ l = [EvWrite (handles start) importLine; EvWrite (handles start) body]))
    ∧ (l = [EvWrite (handles start) importLine] →
       err = (Write (memFile "schema.js") importLine {["schema.js"%string := []]}).1
       ∧ (err = None → body = []))
    ∧ handles s' = S (handles start)
    ∧ closes (log s') = closes (log start) ++ [EvClose (handles start)].
Proof.
  apply (writeOut_balances_handle memCtx "schema.js" importLine body
           start (memFile "schema.js") {["schema.js"%string := []]}).
  reflexivity.
Defined.

(** *** The JavaScript generator *)

Import JsGen JsPrint JsObs JsMaskFacts JsTypeFacts JsPrintFacts JsOptionsFacts.

Lemma setImports_imports_witness :
  bytes_of_string "GraphQLList"
    ∈ imports (setImports defaults (andNot fullMask listBit)).
Proof.
  pose proof (setImports_imports defaults (andNot fullMask listBit)) as (Hmem & _).
  apply (Hmem (listBit, bytes_of_string "GraphQLList")).
  - apply (list_elem_of_lookup_2 _ 8). reflexivity.
  - right. reflexivity.
Defined.

Lemma printType_returns_witness :
  ∃ g', printType 3 fullMask intList fresh
          = Some (foldl andNot fullMask (uses intList).*1, g')
        ∧ indent g' = indent fresh ∧ Buffer fresh `prefix_of` Buffer g'.
Proof.
  apply (proj1 (printType_returns fullMask intList fresh)).
  - reflexivity.
  - vm_compute. lia.
Defined.

Lemma printType_imports_witness :
  let r := default (0%Z, fresh) (printType 3 fullMask intList fresh) in
  bytes_of_string "GraphQLInt" ∈ imports (setImports defaults r.1)
  ↔ bytes_of_string "GraphQLInt" ∈ imports defaults
    ∨ Z.land fullMask intBit = 0%Z
    ∨ (intBit, bytes_of_string "GraphQLInt") ∈ uses intList.
Proof.
  intros r.
  assert (printType 3 fullMask intList fresh = Some (r.1, r.2)) as Hrun
    by (vm_compute; reflexivity).
  assert ((intBit, bytes_of_string "GraphQLInt") ∈ bits) as Hin
    by (apply (list_elem_of_lookup_2 _ 10); reflexivity).
  exact (printType_imports 3 fullMask intList fresh r.1 r.2 defaults Hrun
           (intBit, bytes_of_string "GraphQLInt") Hin).
Defined.

Lemma indent_stays_even_witness :
  (∃ g', runOps fresh session = Returns g' ∧ evenIndent g')
  ∧ Out (In fresh) = Returns fresh
  ∧ (indent fresh = [] → Out fresh = Returns fresh)
  ∧ evenIndent (Reset fresh).
Proof.
  apply (indent_stays_even session fresh). exists 0. reflexivity.
Defined.

Lemma generate_restores_indent_witness :
  (∃ g', generateScalar "Time" true (Some "RFC 3339.") fresh = Returns g' ∧ keeps fresh g')
  ∧ generateUnion "Pet" true None TypeSpec_Scalar fresh = assertionPanic.
Proof.
  pose proof (generate_restores_indent "Time" true (Some "RFC 3339."%string) fresh)
    as (Hscalar & _).
  pose proof (generate_restores_indent "Pet" true None fresh) as (_ & _ & Hother).
  split; [exact Hscalar|]. apply (Hother TypeSpec_Scalar). intros members. discriminate.
Defined.

Lemma generateUnion_members_witness :
  let r := generateUnion "Pet" false None petUnion fresh in
  ∃ pre post, Buffer (returned r) = Buffer fresh ++ pre ++ bytes_of_string "Dog" ++ post.
Proof.
  intros r.
  apply (proj2 (generateUnion_members "Pet" false None fresh)
           ["Cat"; "Dog"]%string "Dog"%string (returned r)).
  - simpl. lia.
  - apply list_elem_of_further, list_elem_of_here.
  - vm_compute. reflexivity.
Defined.

Lemma generateSchema_needs_query_witness :
  generateSchema (L := asciiLower) defaults (TypeSpec_Schema mutationOnly) fresh = nilPanic
  ∧ (let r := generateSchema (L := asciiLower) defaults (TypeSpec_Schema fullSchema) fresh in
     keeps fresh (returned r)
     ∧ ∃ f name, f ∈ fullSchema
         ∧ strings_ToLower (Lower := asciiLower) (field_Name f) = "query"%string
         ∧ field_Type f = Field_Ident name).
Proof.
  split.
  - apply (proj1 (generateSchema_needs_query (L := asciiLower) defaults mutationOnly fresh)).
    intros f Hin. apply list_elem_of_singleton in Hin. subst f. discriminate.
  - intros r.
    apply (proj2 (generateSchema_needs_query (L := asciiLower) defaults fullSchema fresh)
             (returned r)).
    vm_compute. reflexivity.
Defined.

Lemma getOptions_precedence_witness :
  ∃ od, directiveOptions (Q := goQuote) [otherDirective; es6Directive] defaults
          = Returns (od, None)
    ∧ opt_Module es6Options = match cliOpts !! "module"%string with
                              | Some v => asString v
                              | None => opt_Module od
                              end
    ∧ Descriptions es6Options = match cliOpts !! "descriptions"%string with
                                | Some v => asBool v
                                | None => Descriptions od
                                end
    ∧ UseFlow es6Options = match cliOpts !! "useFlow"%string with
                           | Some v => asBool v
                           | None => UseFlow od
                           end
    ∧ ((∀ d, d ∈ [otherDirective; es6Directive] → dir_Name d ≠ "js"%string)
       → od = defaults).
Proof.
  apply (getOptions_precedence (Q := goQuote) [otherDirective; es6Directive] cliOpts
           es6Options None).
  - vm_compute. reflexivity.
  - reflexivity.
Defined.

Lemma getOptions_declStr_witness :
  (imports es6Options = []
   ∧ declStr es6Options
     = if String.eqb (opt_Module es6Options) "ES6" then es6Decl else commonJSDecl)
  ∧ (imports docOptions = [] ∧ declStr docOptions = commonJSDecl).
Proof.
  split.
  - apply (getOptions_declStr (Q := goQuote) [otherDirective; es6Directive]
             (Some cliOpts) es6Options None).
    vm_compute. reflexivity.
  - apply (getOptions_declStr (Q := goQuote) [otherDirective; es6Directive]
             None docOptions None).
    vm_compute. reflexivity.
Defined.

Lemma getOptions_stops_at_bare_directive_witness :
  getOptions (Q := goQuote) [otherDirective; bareDirective; es6Directive] (Some cliOpts)
  = getOptions (Q := goQuote) [otherDirective] (Some cliOpts).
Proof.
  apply (getOptions_stops_at_bare_directive (Q := goQuote)
           [otherDirective] bareDirective [es6Directive] (Some cliOpts));
    reflexivity.
Defined.

Lemma jsFileName_replaces_extension_witness :
  jsFileName "api.v1/schema.gql" = "api.v1/schema.js"%string
  ∧ jsFileName "api.v1/schema" = "api.v1/schema.js"%string.
Proof.
  pose proof jsFileName_replaces_extension as (Hext & Hnone & _).
  split.
  - apply (Hext "api.v1/schema"%string "gql"%string).
    repeat (constructor; [split; discriminate|]). constructor.
  - apply (Hnone "api.v1/schema"%string). reflexivity.
Defined.

(** *** The test helper *)

Import E2E E2EFacts.

Lemma compareBytes_reports_first_difference_witness :
  bytes_EqualFold (Fold := asciiFold) writtenLines expectedLines = false
  ∧ take 3 writtenLines = take 3 expectedLines
  ∧ writtenLines !! 3 = Some Byte.x64 ∧ expectedLines !! 3 = Some Byte.x63
  ∧ Byte.x63 ≠ Byte.x64
  ∧ 2 = 1 + lineFeeds (take 4 writtenLines).
Proof.
  apply (compareBytes_reports_first_difference (F := asciiFold)
           expectedLines writtenLines 3 Byte.x63 Byte.x64 2).
  vm_compute. reflexivity.
Defined.

Lemma compareBytes_longer_output_witness :
  bytes_EqualFold (Fold := asciiFold) writtenLines (take 2 writtenLines) = false
  ∧ 2 = length (take 2 writtenLines)
  ∧ ∃ b rest, writtenLines = take 2 writtenLines ++ b :: rest.
Proof.
  apply (compareBytes_longer_output (F := asciiFold) (take 2 writtenLines) writtenLines 2).
  vm_compute. reflexivity.
Defined.

End SampleFacts.
